(** * SNAPwise-NYC: the store query engine and the ZIP resolver of
    [server/index.js], embedded in Rocq.

    JavaScript numbers are IEEE-754 binary64 values; they are modelled by
    [spec_float] with the operations of [SpecFloat] at precision 53 and
    maximal exponent 1024.  The functions of the [Math] object that ECMAScript
    leaves implementation-approximated ([Math.sin], [Math.cos], [Math.sqrt],
    [Math.atan2]) are a parameter of the development.

    Strings are 8-bit strings: the whitespace and the letter-case operations
    of JavaScript are modelled on their ASCII part. *)

From Stdlib Require Import ZArith Lia Bool Ascii String List Sorted Permutation.
From Stdlib Require Import SpecFloat.
From stdpp Require Import gmap strings.

Import ListNotations.
Local Open Scope string_scope.
Local Open Scope Z_scope.

(* ===================================================================== *)
(** * JavaScript numbers *)
(* ===================================================================== *)

Module Num.

Definition prec : Z := 53.
Definition emax : Z := 1024.

Definition number := spec_float.

Definition NaN : number := S754_nan.
Definition Infinity : number := S754_infinity false.
Definition pzero : number := S754_zero false.
Definition nzero : number := S754_zero true.

Definition add : number -> number -> number := SFadd prec emax.
Definition sub : number -> number -> number := SFsub prec emax.
Definition mul : number -> number -> number := SFmul prec emax.
Definition div : number -> number -> number := SFdiv prec emax.
Definition neg : number -> number := SFopp.

(** The relational operators [<], [<=] and [>]: false as soon as an
    operand is NaN. *)
Definition ltb : number -> number -> bool := SFltb.
Definition leb : number -> number -> bool := SFleb.
Definition gtb (x y : number) : bool := SFltb y x.

(** The number denoted by an integer: the nearest binary64 value, ties to
    even, [Infinity] beyond the range. *)
Definition ofZ (z : Z) : number := binary_normalize prec emax z 0 false.

(** The number nearest to [m * 10 ^ e], for a natural [m]: the rounding that
    a decimal literal of the program text and a decimal string undergo. *)
Definition ofDecimal (m : Z) (e : Z) : number :=
  match m with
  | Z0 => pzero
  | Zneg _ => NaN
  | Zpos p =>
      if 0 <=? e then ofZ (m * 10 ^ e)
      else div (S754_finite false p 0)
               (S754_finite false (Z.to_pos (10 ^ (- e))) 0)
  end.

(** [Number.isFinite] *)
Definition isFinite (x : number) : bool :=
  match x with
  | S754_zero _ | S754_finite _ _ _ => true
  | S754_infinity _ | S754_nan => false
  end.

Definition isNaN (x : number) : bool :=
  match x with S754_nan => true | _ => false end.

(** ToIntegerOrInfinity on a finite number: truncation toward zero. *)
Definition truncate (x : number) : Z :=
  match x with
  | S754_finite s m e =>
      let a := if 0 <=? e then Z.pos m * 2 ^ e else Z.pos m / 2 ^ (- e) in
      if s then - a else a
  | _ => 0
  end.

(** [Math.min] and [Math.max] of two numbers. *)
Definition Math_min (x y : number) : number :=
  match SFcompare x y with
  | None => NaN
  | Some Gt => y
  | Some Eq => match x with S754_zero true => x | _ => y end
  | Some Lt => x
  end.

Definition Math_max (x y : number) : number :=
  match SFcompare x y with
  | None => NaN
  | Some Lt => y
  | Some Eq => match x with S754_zero false => x | _ => y end
  | Some Gt => x
  end.

(** [Math.PI], the binary64 value 0x400921FB54442D18. *)
Definition Math_PI : number := S754_finite false 7074237752028440 (-51).

End Num.

Export Num.

(* ===================================================================== *)
(** * Strings *)
(* ===================================================================== *)

(** A string is a sequence of characters with codes from 0 to 255.  On the
    strings of ASCII characters (codes below 128) the functions of this
    module are those of JavaScript.  On other strings they are not:
    [toUpperCase] and [toLowerCase] of JavaScript map the letters of all
    alphabets, and [trim] removes the white space of all of Unicode.  A
    statement that depends on what the three functions do to a character
    is made for ASCII strings. *)
Module Str.

Definition isDigit (c : ascii) : bool :=
  let n := nat_of_ascii c in (48 <=? n)%nat && (n <=? 57)%nat.

Definition digitValue (c : ascii) : Z := Z.of_nat (nat_of_ascii c) - 48.

(** White space and line terminators (ASCII part): TAB, LF, VT, FF, CR,
    SP. *)
Definition isWhite (c : ascii) : bool :=
  let n := nat_of_ascii c in
  ((9 <=? n)%nat && (n <=? 13)%nat) || (n =? 32)%nat.

Definition lowerChar (c : ascii) : ascii :=
  let n := nat_of_ascii c in
  if (65 <=? n)%nat && (n <=? 90)%nat then ascii_of_nat (n + 32) else c.

Definition upperChar (c : ascii) : ascii :=
  let n := nat_of_ascii c in
  if (97 <=? n)%nat && (n <=? 122)%nat then ascii_of_nat (n - 32) else c.

Fixpoint map (f : ascii -> ascii) (s : string) : string :=
  match s with
  | EmptyString => EmptyString
  | String c s' => String (f c) (map f s')
  end.

Definition toLowerCase : string -> string := map lowerChar.
Definition toUpperCase : string -> string := map upperChar.

Fixpoint filter (p : ascii -> bool) (s : string) : string :=
  match s with
  | EmptyString => EmptyString
  | String c s' => if p c then String c (filter p s') else filter p s'
  end.

(** [s.slice(0, n)] for a natural [n]. *)
Fixpoint take (n : nat) (s : string) : string :=
  match n, s with
  | O, _ => EmptyString
  | S _, EmptyString => EmptyString
  | S n', String c s' => String c (take n' s')
  end.

Fixpoint repeat (c : ascii) (n : nat) : string :=
  match n with
  | O => EmptyString
  | S n' => String c (repeat c n')
  end.

(** [s.padStart(n, c)] for a one-character filler. *)
Definition padStart (n : nat) (c : ascii) (s : string) : string :=
  repeat c (n - String.length s) ++ s.

Fixpoint trimStart (s : string) : string :=
  match s with
  | String c s' => if isWhite c then trimStart s' else s
  | EmptyString => EmptyString
  end.

Fixpoint rev_acc (s acc : string) : string :=
  match s with
  | EmptyString => acc
  | String c s' => rev_acc s' (String c acc)
  end.

Definition rev (s : string) : string := rev_acc s EmptyString.

Definition trimEnd (s : string) : string := rev (trimStart (rev s)).

Definition trim (s : string) : string := trimEnd (trimStart s).

(** The longest prefix of decimal digits, and what follows it. *)
Fixpoint spanDigits (s : string) : string * string :=
  match s with
  | String c s' =>
      if isDigit c then let '(d, r) := spanDigits s' in (String c d, r)
      else (EmptyString, s)
  | EmptyString => (EmptyString, EmptyString)
  end.

(** The natural number written by a string of decimal digits. *)
Fixpoint digitsValue_acc (s : string) (acc : Z) : Z :=
  match s with
  | EmptyString => acc
  | String c s' => digitsValue_acc s' (10 * acc + digitValue c)
  end.

Definition digitsValue (s : string) : Z := digitsValue_acc s 0.

(** [s.startsWith(p)], with the rest of [s] on success. *)
Fixpoint stripPrefix (p s : string) : option string :=
  match p, s with
  | EmptyString, _ => Some s
  | String a p', String b s' =>
      if Ascii.eqb a b then stripPrefix p' s' else None
  | String _ _, EmptyString => None
  end.

(** [s.includes(p)] *)
Fixpoint includes (p s : string) : bool :=
  match stripPrefix p s with
  | Some _ => true
  | None =>
      match s with
      | EmptyString => false
      | String _ s' => includes p s'
      end
  end.

End Str.

(* ===================================================================== *)
(** * Values that may be [undefined] *)
(* ===================================================================== *)

(** A query parameter, a route parameter or a CSV cell is a string or is
    absent ([undefined]): [option string]. *)

(** [String(v)] *)
Definition ToString (v : option string) : string :=
  match v with Some s => s | None => "undefined" end.

(** [v || d]: the empty string and [undefined] are falsy. *)
Definition orElse (v : option string) (d : string) : string :=
  match v with
  | Some s => if String.eqb s "" then d else s
  | None => d
  end.

(* ===================================================================== *)
(** * [parseFloat] and [parseInt] *)
(* ===================================================================== *)

Module Parse.
Import Str.

(** An optional sign: [true] for [-]. *)
Definition signOf (s : string) : bool * string :=
  match s with
  | String "-" r => (true, r)
  | String "+" r => (false, r)
  | _ => (false, s)
  end.

Definition applySign (neg : bool) (x : number) : number :=
  if neg then Num.neg x else x.

(** The exponent part [e], [E] followed by a signed integer: its value and
    nothing when the prefix stops before it. *)
Definition exponentPart (s : string) : Z :=
  match s with
  | String c r =>
      if Ascii.eqb c "e" || Ascii.eqb c "E" then
        let '(neg, r') := signOf r in
        let '(ds, _) := spanDigits r' in
        if String.eqb ds "" then 0
        else if neg then - digitsValue ds else digitsValue ds
      else 0
  | EmptyString => 0
  end.

(** The longest prefix that is a StrUnsignedDecimalLiteral, as a number: the
    binary64 value nearest to the decimal value, ties to even (ECMAScript
    lets an implementation stop at the 20th significant digit; V8 rounds the
    exact value). *)
Definition unsignedDecimal (s : string) : number :=
  match stripPrefix "Infinity" s with
  | Some _ => Infinity
  | None =>
      let '(ip, r) := spanDigits s in
      let '(fp, r') :=
        match r with
        | String "." t => spanDigits t
        | _ => (EmptyString, r)
        end in
      if String.eqb ip "" && String.eqb fp "" then NaN
      else
        ofDecimal (digitsValue (ip ++ fp))
                  (exponentPart r' - Z.of_nat (String.length fp))
  end.

(** [parseFloat(s)] *)
Definition parseFloat (s : string) : number :=
  let '(neg, r) := signOf (trimStart s) in
  applySign neg (unsignedDecimal r).

(** [parseInt(s, 10)] *)
Definition parseInt (s : string) : number :=
  let '(neg, r) := signOf (trimStart s) in
  let '(ds, _) := spanDigits r in
  if String.eqb ds "" then NaN
  else applySign neg (ofDecimal (digitsValue ds) 0).

End Parse.

Export Parse.

(* ===================================================================== *)
(** * Record normalizer *)
(* ===================================================================== *)

(** [toZip5(value)]: [value == null] holds for [undefined] only here. *)
Definition toZip5 (value : option string) : string :=
  match value with
  | None => ""
  | Some s =>
      let digits := Str.take 5 (Str.filter Str.isDigit s) in
      Str.padStart 5 "0" digits
  end.

(** [parseBoolean(value)] on a string or [undefined]. *)
Definition parseBoolean (value : option string) : bool :=
  let s := Str.toLowerCase (Str.trim (orElse value "")) in
  String.eqb s "true" || String.eqb s "1" || String.eqb s "yes".

(** A row of the CSV parser: an object from column names to cells. *)
Abbreviation Row := (gmap string string).

Record StoreRecord := {
  id : string;
  name : string;
  address : string;
  city : string;
  borough : string;
  zip : string;
  county : string;
  storeType : string;
  isHealthyStore : bool;
  aiScore : option number;
  aiReason : string;
  aiEconomyScore : option number;
  aiEconomyReason : string;
  latitude : number;
  longitude : number
}.

(** [a || b] on two cells. *)
Definition orCell (a b : option string) : option string :=
  match a with
  | Some s => if String.eqb s "" then b else a
  | None => b
  end.

(** The score columns: absent, blank or unparsable gives [undefined], a
    number is clamped to [1, hi]. *)
Definition parseScore (hi : Z) (raw : option string) : option number :=
  match raw with
  | None => None
  | Some s =>
      if String.eqb (Str.trim s) "" then None
      else
        let n := parseInt s in
        if isFinite n then Some (Math_max (ofZ 1) (Math_min (ofZ hi) n))
        else None
  end.

(** The record that the ['data'] handler pushes for a row whose coordinates
    parsed to [lat] and [lon]. *)
Definition storeOf (row : Row) (lat lon : number) : StoreRecord := {|
  id := orElse (orCell (row !! "Record_ID") (row !! "ObjectId")) "";
  name := orElse (row !! "Store_Name") "";
  address := orElse (row !! "Store_Street_Address") "";
  city := orElse (row !! "City") "";
  borough := Str.toUpperCase (orElse (row !! "County") "");
  zip := toZip5 (row !! "Zip_Code");
  county := orElse (row !! "County") "";
  storeType := orElse (row !! "Store_Type") "";
  isHealthyStore := parseBoolean (row !! "Is_Healthy_Store");
  aiScore := parseScore 10 (row !! "AI_Health_Score");
  aiReason := orElse (row !! "AI_Health_Reason") "";
  aiEconomyScore := parseScore 5 (row !! "AI_Economy_Score");
  aiEconomyReason := orElse (row !! "AI_Economy_Reason") "";
  latitude := lat;
  longitude := lon
|}.

Definition rowLatitude (row : Row) : number :=
  parseFloat (ToString (row !! "Latitude")).
Definition rowLongitude (row : Row) : number :=
  parseFloat (ToString (row !! "Longitude")).

(** The ['data'] handler: the row is skipped when a coordinate is not
    finite, and [results.push(...)] otherwise. *)
Definition onData (results : list StoreRecord) (row : Row) : list StoreRecord :=
  let lat := rowLatitude row in
  let lon := rowLongitude row in
  if negb (isFinite lat) || negb (isFinite lon) then results
  else (results ++ [storeOf row lat lon])%list.

(** [loadStoresFromCsv], on the rows that the CSV parser emits in order. *)
Definition loadStoresFromCsv (rows : list Row) : list StoreRecord :=
  fold_left onData rows [].

(* ===================================================================== *)
(** * Distance engine *)
(* ===================================================================== *)

(** The arithmetic that [haversineMeters] uses.  The function is written
    over this interface and read with binary64 arithmetic, the arithmetic of
    the program. *)
Class Arith (N : Type) := {
  lit : Z -> N;
  plus : N -> N -> N;
  minus : N -> N -> N;
  times : N -> N -> N;
  over : N -> N -> N;
  pi : N;
  sine : N -> N;
  cosine : N -> N;
  root : N -> N;
  arctan2 : N -> N -> N
}.

Declare Scope arith_scope.
Delimit Scope arith_scope with ar.
Notation "x + y" := (plus x y) : arith_scope.
Notation "x - y" := (minus x y) : arith_scope.
Notation "x * y" := (times x y) : arith_scope.
Notation "x / y" := (over x y) : arith_scope.

Section Haversine.
Context {N : Type} `{Arith N}.
Local Open Scope arith_scope.

Definition toRad (d : N) : N := (d * pi) / lit 180.

Definition haversineMeters (lat1 lon1 lat2 lon2 : N) : N :=
  let R := lit 6371000 in
  let dLat := toRad (lat2 - lat1) in
  let dLon := toRad (lon2 - lon1) in
  let a :=
    sine (dLat / lit 2) * sine (dLat / lit 2) +
    cosine (toRad lat1) * cosine (toRad lat2) *
    sine (dLon / lit 2) * sine (dLon / lit 2) in
  let c := lit 2 * arctan2 (root a) (root (lit 1 - a)) in
  R * c.

End Haversine.

(** The implementation-approximated functions of the [Math] object. *)
Record MathLib := {
  Math_sin : number -> number;
  Math_cos : number -> number;
  Math_sqrt : number -> number;
  Math_atan2 : number -> number -> number
}.

(** Binary64 arithmetic: the arithmetic of the program. *)
Definition binary64 (M : MathLib) : Arith number := {|
  lit := ofZ;
  plus := Num.add;
  minus := Num.sub;
  times := Num.mul;
  over := Num.div;
  pi := Math_PI;
  sine := Math_sin M;
  cosine := Math_cos M;
  root := Math_sqrt M;
  arctan2 := Math_atan2 M
|}.

(** A small [Math] library for running the engine on examples: the
    small-angle approximations of the circular functions and the IEEE square
    root.  The theorems below hold for every [MathLib]. *)
Definition smallAngle : MathLib := {|
  Math_sin := fun x => x;
  Math_cos := fun x => Num.sub (ofZ 1) (Num.div (Num.mul x x) (ofZ 2));
  Math_sqrt := SFsqrt prec emax;
  Math_atan2 := fun y x => Num.div y x
|}.

(** The same library with the value that ECMAScript prescribes for
    [Math.sin] and [Math.cos] outside the finite numbers: NaN. *)
Definition smallAngleStrict : MathLib := {|
  Math_sin := fun x => if isFinite x then x else NaN;
  Math_cos := fun x =>
    if isFinite x then Num.sub (ofZ 1) (Num.div (Num.mul x x) (ofZ 2)) else NaN;
  Math_sqrt := SFsqrt prec emax;
  Math_atan2 := fun y x => Num.div y x
|}.

(* ===================================================================== *)
(** * Arrays *)
(* ===================================================================== *)

Section ArraySort.
Context {A : Type} (comparefn : A -> A -> number).

(** SortCompare: [x] goes after [y] when [comparefn(x, y) > 0]; a NaN
    result counts as [+0]. *)
Definition sortsAfter (x y : A) : bool := gtb (comparefn x y) pzero.

Fixpoint insertSorted (x : A) (l : list A) : list A :=
  match l with
  | [] => [x]
  | y :: l' => if sortsAfter x y then y :: insertSorted x l' else x :: l
  end.

(** [l.sort(comparefn)]: ECMAScript asks for a stable sort; the order of
    the calls to [comparefn] is the implementation's.  Stable insertion
    sort. *)
Fixpoint Array_sort (l : list A) : list A :=
  match l with
  | [] => []
  | x :: l' => insertSorted x (Array_sort l')
  end.

End ArraySort.

(** [l.slice(0, end)] *)
Definition Array_slice0 {A : Type} (l : list A) (end_ : number) : list A :=
  match end_ with
  | S754_nan => []
  | S754_infinity false => l
  | S754_infinity true => []
  | _ =>
      let len := Z.of_nat (length l) in
      let relativeEnd := truncate end_ in
      let final :=
        if relativeEnd <? 0 then Z.max (len + relativeEnd) 0
        else Z.min relativeEnd len in
      firstn (Z.to_nat final) l
  end.

(* ===================================================================== *)
(** * Store query engine: [app.get('/stores')] *)
(* ===================================================================== *)

(** [req.query]: each parameter is absent or, given once, a string. *)
Record Query := {
  query_lat : option string;
  query_lng : option string;
  query_radius : option string;
  query_isHealthy : option string;
  query_storeType : option string;
  query_limit : option string
}.

(** What a request is answered with: a JSON body, a status with an error
    message, or nothing when the process ends before the handler answers. *)
Inductive Response (A : Type) :=
| Json (body : A)
| Status (code : Z) (error : string)
| NoResponse.
Arguments Json {A} body.
Arguments Status {A} code error.
Arguments NoResponse {A}.

(** [{ ...s, distance_m }] *)
Record StoreWithDistance := {
  store : StoreRecord;
  distance_m : number
}.

(** The parameters as the handler parses them. *)
Definition latOf (q : Query) : number := parseFloat (orElse (query_lat q) "0").
Definition lngOf (q : Query) : number := parseFloat (orElse (query_lng q) "0").
Definition radiusMetersOf (q : Query) : number :=
  parseFloat (orElse (query_radius q) "1609").
Definition healthyOnlyOf (q : Query) : string :=
  Str.toLowerCase (orElse (query_isHealthy q) "any").
Definition storeTypeOf (q : Query) : string :=
  Str.trim (orElse (query_storeType q) "").
Definition rawLimitOf (q : Query) : string := orElse (query_limit q) "200".

(** [limit] after lines 216 and 217. *)
Definition limitOf (q : Query) : number :=
  let rawLimit := rawLimitOf q in
  let limit :=
    if String.eqb (Str.toLowerCase rawLimit) "unlimited" then Infinity
    else parseInt rawLimit in
  if negb (isFinite limit) || leb limit pzero then ofZ 200 else limit.

Section StoreQuery.
Variable M : MathLib.

Definition distanceMeters : number -> number -> number -> number -> number :=
  @haversineMeters number (binary64 M).

(** The filters, the distances, the sort and the cap of the handler, on
    parsed parameters. *)
Definition queryStores (stores : list StoreRecord) (lat lng radiusMeters : number)
    (healthyOnly wantedType : string) (limit : number) : list StoreWithDistance :=
  let filtered := stores in
  let filtered :=
    if String.eqb healthyOnly "true" then List.filter isHealthyStore filtered
    else if String.eqb healthyOnly "false"
      then List.filter (fun s => negb (isHealthyStore s)) filtered
    else filtered in
  let filtered :=
    if negb (String.eqb wantedType "") then
      let typeLc := Str.toLowerCase wantedType in
      List.filter (fun s => String.eqb (Str.toLowerCase (storeType s)) typeLc) filtered
    else filtered in
  let withDistance :=
    Array_sort (fun a b => Num.sub (distance_m a) (distance_m b))
      (List.filter (fun s => leb (distance_m s) radiusMeters)
        (List.map (fun s => {| store := s;
                               distance_m := distanceMeters lat lng (latitude s) (longitude s) |})
                  filtered)) in
  if isFinite limit then Array_slice0 withDistance limit else withDistance.

Definition get_stores (stores : list StoreRecord) (q : Query)
    : Response (list StoreWithDistance) :=
  let lat := latOf q in
  let lng := lngOf q in
  if negb (isFinite lat) || negb (isFinite lng) then
    Status 400 "lat and lng are required numbers"
  else
    Json (queryStores stores lat lng (radiusMetersOf q) (healthyOnlyOf q)
            (storeTypeOf q) (limitOf q)).

End StoreQuery.

(* ===================================================================== *)
(** * ZIP resolver: [app.get('/zip/:zip')] *)
(* ===================================================================== *)

Module Coordinate.
Record t := { latitude : number; longitude : number }.
End Coordinate.

(** A promise settles: it resolves to a value or rejects; a call returns
    or throws. *)
Inductive Outcome (A : Type) :=
| Resolved (a : A)
| Rejected.
Arguments Resolved {A} a.
Arguments Rejected {A}.

(** What [await] finds: the promise settled, or the process ended before it
    did. *)
Inductive Awaited (A : Type) :=
| Settled (o : Outcome A)
| ProcessEnds.
Arguments Settled {A} o.
Arguments ProcessEnds {A}.

(** An element of the list of the geocoding service whose [lat] and [lon]
    can be read: each is undefined or has a string form. *)
Record Hit := { hit_lat : option string; hit_lon : option string }.

(** The JSON value of a response: a value with elements, or a value with no
    positive [length].  An element is a hit, or [None] when reading its
    [lat] or its [lon] throws, as it does for [null]. *)
Inductive JsonValue :=
| Hits (l : list (option Hit))
| NotAList.

(** A response of [fetch]: [ok], [json()] and [text()]. *)
Record HttpResponse := {
  ok : bool;
  json : Outcome JsonValue;
  text : Outcome string
}.

(** A CSV file as [fs.createReadStream(csvPath).pipe(csv())] meets it:
    absent; a read stream that emits ['error']; a parser that emits
    ['error']; or the rows that the parser emits before ['end'].  The only
    ['error'] listener of a loader is on the parser, which [pipe] returns:
    an ['error'] of the parser rejects the promise of the loader, an
    ['error'] of the read stream has no listener and ends the process with
    code 1. *)
Inductive CsvFile :=
| FileMissing
| StreamError
| ParserError
| FileRows (rows : list Row).

(** What is outside the process during one request. *)
Record World := {
  nycZipCsv : CsvFile;
  fetch : string -> Outcome HttpResponse
}.

(** An entry of [nycZipCache]. *)
Record NycZip := { nyc_zip : option string; nyc_borough : option string }.

(** The module-level variables [zipCentroids] and [nycZipCache]. *)
Record ServerState := {
  zipCentroids : gmap string Coordinate.t;
  nycZipCache : option (gmap string NycZip)
}.

(** What a request does to the outside and to the cache, in order. *)
Inductive Effect :=
| ReadNycCsv
| Fetch (url : string)
| CacheWrite (zip : string) (c : Coordinate.t).

(** [Object.fromEntries(results.map(r => [r.zip, r]))]: a later entry
    replaces an earlier one with the same key. *)
Definition nycZipTable (rows : list Row) : gmap string NycZip :=
  fold_left
    (fun (m : gmap string NycZip) (row : Row) =>
       let r := {| nyc_zip := row !! "ZipCode"; nyc_borough := row !! "Borough" |} in
       <[ToString (nyc_zip r) := r]> m)
    rows ∅.

(** [loadNYCZips()], awaited: what the caller finds, the state and the
    effects. *)
Definition loadNYCZips (w : World) (st : ServerState)
    : Awaited (gmap string NycZip) * ServerState * list Effect :=
  match nycZipCache st with
  | Some cache => (Settled (Resolved cache), st, [])
  | None =>
      match nycZipCsv w with
      | FileMissing => (Settled (Resolved ∅), st, [])
      | StreamError => (ProcessEnds, st, [ReadNycCsv])
      | ParserError => (Settled Rejected, st, [ReadNycCsv])
      | FileRows rows =>
          let cache := nycZipTable rows in
          (Settled (Resolved cache),
           {| zipCentroids := zipCentroids st; nycZipCache := Some cache |},
           [ReadNycCsv])
      end
  end.

Definition coord (lat lon : number) : Coordinate.t :=
  {| Coordinate.latitude := lat; Coordinate.longitude := lon |}.

(** A lookup in an object literal. *)
Fixpoint assoc {A : Type} (k : string) (l : list (string * A)) : option A :=
  match l with
  | [] => None
  | (k', v) :: l' => if String.eqb k k' then Some v else assoc k l'
  end.

Definition boroughCoords : list (string * Coordinate.t) :=
  [ ("BRONX", coord (ofDecimal 408448 (-4)) (neg (ofDecimal 738648 (-4))));
    ("BROOKLYN", coord (ofDecimal 406782 (-4)) (neg (ofDecimal 739442 (-4))));
    ("MANHATTAN", coord (ofDecimal 407831 (-4)) (neg (ofDecimal 739712 (-4))));
    ("QUEENS", coord (ofDecimal 407282 (-4)) (neg (ofDecimal 737949 (-4))));
    ("STATEN ISLAND", coord (ofDecimal 405795 (-4)) (neg (ofDecimal 741502 (-4)))) ].

(** [getBoroughCoordinates(borough)]: throws when [borough] is
    [undefined]. *)
Definition getBoroughCoordinates (borough : option string) : Outcome Coordinate.t :=
  match borough with
  | None => Rejected
  | Some b =>
      match assoc (Str.toUpperCase b) boroughCoords with
      | Some c => Resolved c
      | None => Resolved (coord (ofDecimal 407831 (-4)) (neg (ofDecimal 739712 (-4))))
      end
  end.

Definition zipPrefixCoords : list (string * Coordinate.t) :=
  [ ("100", coord (ofDecimal 407589 (-4)) (neg (ofDecimal 739851 (-4))));
    ("101", coord (ofDecimal 407589 (-4)) (neg (ofDecimal 739851 (-4))));
    ("102", coord (ofDecimal 407589 (-4)) (neg (ofDecimal 739851 (-4))));
    ("103", coord (ofDecimal 405795 (-4)) (neg (ofDecimal 741502 (-4))));
    ("104", coord (ofDecimal 408448 (-4)) (neg (ofDecimal 738648 (-4))));
    ("110", coord (ofDecimal 407282 (-4)) (neg (ofDecimal 737949 (-4))));
    ("111", coord (ofDecimal 407282 (-4)) (neg (ofDecimal 737949 (-4))));
    ("112", coord (ofDecimal 406782 (-4)) (neg (ofDecimal 739442 (-4))));
    ("113", coord (ofDecimal 407282 (-4)) (neg (ofDecimal 737949 (-4))));
    ("114", coord (ofDecimal 407282 (-4)) (neg (ofDecimal 737949 (-4))));
    ("116", coord (ofDecimal 407282 (-4)) (neg (ofDecimal 737949 (-4)))) ].

(** [getNYCApproximateCoordinates(zip)] *)
Definition getNYCApproximateCoordinates (zip : string) : option Coordinate.t :=
  assoc (Str.take 3 zip) zipPrefixCoords.

Definition dquote : string := String (ascii_of_nat 34) EmptyString.

Definition nominatimUrl (zip : string) : string :=
  "https://nominatim.openstreetmap.org/search?postalcode=" ++ zip
  ++ "&country=US&format=json&limit=1".

Definition uspsUrl (zip : string) : string :=
  "https://secure.shippingapis.com/ShippingAPI.dll?API=CityStateLookup&XML=<CityStateLookupRequest><ZipCode ID="
  ++ dquote ++ "0" ++ dquote ++ "><Zip5>" ++ zip
  ++ "</Zip5></ZipCode></CityStateLookupRequest>".

(** Third try: the coordinate of the first hit of the geocoding service.
    Every failure inside the [try] block is caught and gives nothing. *)
Definition nominatimLookup (w : World) (zip : string) : option Coordinate.t :=
  match fetch w (nominatimUrl zip) with
  | Resolved nominatimRes =>
      if ok nominatimRes then
        match json nominatimRes with
        | Resolved (Hits (Some h :: _)) =>
            Some (coord (parseFloat (ToString (hit_lat h)))
                        (parseFloat (ToString (hit_lon h))))
        | _ => None
        end
      else None
  | Rejected => None
  end.

(** Fourth try: the validation service has no [<Error>] and the prefix table
    knows the first three digits. *)
Definition uspsLookup (w : World) (zip : string) : option Coordinate.t :=
  match fetch w (uspsUrl zip) with
  | Resolved uspsRes =>
      if ok uspsRes then
        match text uspsRes with
        | Resolved uspsText =>
            if negb (Str.includes "<Error>" uspsText)
            then getNYCApproximateCoordinates zip
            else None
        | Rejected => None
        end
      else None
  | Rejected => None
  end.

Definition cache (zip : string) (c : Coordinate.t) (st : ServerState) : ServerState :=
  {| zipCentroids := <[zip := c]> (zipCentroids st); nycZipCache := nycZipCache st |}.

(** The handler: the response, the state after it, and its effects.  When
    the process ends inside [loadNYCZips], the request has no response and
    the state is the one at that moment. *)
Definition get_zip (w : World) (st : ServerState) (param : option string)
    : Response Coordinate.t * ServerState * list Effect :=
  let zip := toZip5 param in
  if String.eqb zip "" then (Status 400 "Invalid ZIP", st, [])
  else
    match zipCentroids st !! zip with
    | Some centroid => (Json centroid, st, [])
    | None =>
        let '(loaded, st1, e1) := loadNYCZips w st in
        match loaded with
        | ProcessEnds => (NoResponse, st1, e1)
        | Settled Rejected => (Status 500 "ZIP lookup failed", st1, e1)
        | Settled (Resolved nycZipData) =>
            match nycZipData !! zip with
            | Some entry =>
                match getBoroughCoordinates (nyc_borough entry) with
                | Resolved boroughCoords => (Json boroughCoords, st1, e1)
                | Rejected => (Status 500 "ZIP lookup failed", st1, e1)
                end
            | None =>
                match nominatimLookup w zip with
                | Some coords =>
                    (Json coords, cache zip coords st1,
                     (e1 ++ [Fetch (nominatimUrl zip); CacheWrite zip coords])%list)
                | None =>
                    match uspsLookup w zip with
                    | Some nycCoords =>
                        (Json nycCoords, cache zip nycCoords st1,
                         (e1 ++ [Fetch (nominatimUrl zip); Fetch (uspsUrl zip);
                                 CacheWrite zip nycCoords])%list)
                    | None =>
                        (Status 404 "ZIP not found", st1,
                         (e1 ++ [Fetch (nominatimUrl zip); Fetch (uspsUrl zip)])%list)
                    end
                end
            end
        end
    end.

(* ===================================================================== *)
(** * Startup: [start()] *)
(* ===================================================================== *)

(** An entry of [agg]: the sums of the coordinates of the stores of a ZIP
    and their number. *)
Record Agg := { sumLat : number; sumLon : number; count : number }.

Definition newAgg : Agg := {| sumLat := pzero; sumLon := pzero; count := pzero |}.

(** One turn of the loop over the stores: a store without ZIP is skipped. *)
Definition aggregate (agg : gmap string Agg) (s : StoreRecord) : gmap string Agg :=
  if String.eqb (zip s) "" then agg
  else
    let v := match agg !! zip s with Some v => v | None => newAgg end in
    <[zip s := {| sumLat := Num.add (sumLat v) (latitude s);
                  sumLon := Num.add (sumLon v) (longitude s);
                  count := Num.add (count v) (ofZ 1) |}]> agg.

Definition centroidOf (v : Agg) : Coordinate.t :=
  coord (Num.div (sumLat v) (count v)) (Num.div (sumLon v) (count v)).

(** [zipCentroids] as [start] builds it from the stores. *)
Definition buildCentroids (stores : list StoreRecord) : gmap string Coordinate.t :=
  centroidOf <$> fold_left aggregate stores ∅.

(** [start] ends the process or leaves the server listening, with its
    stores and its state. *)
Inductive Started :=
| Exits (code : Z)
| Listening (stores : list StoreRecord) (st : ServerState).

(** [start()], on the file [NYC Food Stamp Stores.csv]: [process.exit(1)]
    when the file is absent and when [loadStoresFromCsv] rejects; an
    ['error'] of the read stream is an uncaught exception, which ends the
    process with code 1 as well. *)
Definition start (csv : CsvFile) : Started :=
  match csv with
  | FileMissing => Exits 1
  | StreamError => Exits 1
  | ParserError => Exits 1
  | FileRows rows =>
      let stores := loadStoresFromCsv rows in
      Listening stores {| zipCentroids := buildCentroids stores; nycZipCache := None |}
  end.

(* ===================================================================== *)
(** * Health check *)
(* ===================================================================== *)

(** [app.get('/health')]: [{ ok: true, storesLoaded: stores.length }]. *)
Record Health := { health_ok : bool; storesLoaded : nat }.

Definition get_health (stores : list StoreRecord) : Health :=
  {| health_ok := true; storesLoaded := length stores |}.

(* ===================================================================== *)
(** * Chat proxy: the messages of [app.post('/chat')] *)
(* ===================================================================== *)

(** [l.slice(start)] for an integer [start]. *)
Definition Array_sliceFrom {A : Type} (l : list A) (start : Z) : list A :=
  let len := Z.of_nat (length l) in
  let k := if start <? 0 then Z.max (len + start) 0 else Z.min start len in
  skipn (Z.to_nat k) l.

(** [context] of the request body, where it is an object: [stores] is an
    array or something else, [zip] a string or absent. *)
Record ChatContext (Store : Type) := {
  context_stores : option (list Store);
  context_zip : option string
}.
Arguments context_stores {Store} c.
Arguments context_zip {Store} c.

Section Chat.
Context {Store Message : Type}.

(** The message that lists the stores and the message that gives the ZIP:
    the two template literals of the handler. *)
Variable storesMessage : list Store -> Message.
Variable zipMessage : string -> Message.

(** [userContext], lines 374 to 394. *)
Definition userContextOf (context : option (ChatContext Store)) : list Message :=
  match context with
  | None => []
  | Some c =>
      (match context_stores c with
       | Some (s :: l) => [storesMessage (s :: l)]
       | _ => []
       end ++
       match context_zip c with
       | Some z => if String.eqb z "" then [] else [zipMessage z]
       | None => []
       end)%list
  end.

(** [messages] of the request to the completion service, line 397;
    [messages] of the body is an array or something else. *)
Definition chatMessages (system : Message) (userContext : list Message)
    (messages : option (list Message)) : list Message :=
  Array_sliceFrom
    (system :: userContext ++ match messages with Some l => l | None => [] end)%list
    (-20).

End Chat.

(** The two files that may hold the API key: the secret file of the host,
    absent or read (a read gives the content or throws), and the local
    file. *)
Record KeyFiles := {
  renderKey : option (Outcome string);
  localKey : Outcome string
}.

Inductive KeyFile := RenderPath | LocalPath.

(** [lengthHint], [maxTokens] and [temperature] after lines 343 to 359. *)
Record LengthSettings := {
  lengthHint : string;
  maxTokens : Z;
  temperature : number
}.

Definition lengthSettingsOf (responseLength : option string) : LengthSettings :=
  let length := orElse responseLength "default" in
  if String.eqb length "concise" then
    {| lengthHint := "Respond in at most 3 short bullet points (max 15 words each). No intro or outro.";
       maxTokens := 500; temperature := ofDecimal 4 (-1) |}
  else if String.eqb length "comprehensive" then
    {| lengthHint := "Provide comprehensive guidance: 6-10 concise bullet points with examples, then a one-sentence summary.";
       maxTokens := 2000; temperature := ofDecimal 8 (-1) |}
  else
    {| lengthHint := "Respond in 5-8 succinct sentences with practical steps and examples.";
       maxTokens := 1000; temperature := ofDecimal 7 (-1) |}.

(** The body of a chat request, where its fields are of the expected kinds:
    [messages] an array or something else, [goal] and [responseLength]
    strings or absent, [context] an object or absent. *)
Record ChatBody (Store Message : Type) := {
  body_messages : option (list Message);
  body_goal : option string;
  body_context : option (ChatContext Store);
  body_responseLength : option string
}.
Arguments body_messages {Store Message} _.
Arguments body_goal {Store Message} _.
Arguments body_context {Store Message} _.
Arguments body_responseLength {Store Message} _.

(** The request to the completion service: the [Authorization] header and
    the fields of the body next to the model name. *)
Record CompletionRequest (Message : Type) := {
  authorization : string;
  request_messages : list Message;
  request_temperature : number;
  request_max_tokens : Z
}.
Arguments authorization {Message} _.
Arguments request_messages {Message} _.
Arguments request_temperature {Message} _.
Arguments request_max_tokens {Message} _.

(** The response of the completion service. *)
Record CompletionResponse (Data : Type) := {
  completion_ok : bool;
  completion_json : Outcome Data;
  completion_text : Outcome string
}.
Arguments completion_ok {Data} _.
Arguments completion_json {Data} _.
Arguments completion_text {Data} _.

(** The answer of the handler: the data of the service, or status 500 with
    an error and, for an error of the service, its text. *)
Inductive ChatResponse (Data : Type) :=
| ChatJson (data : Data)
| ChatError (error : string) (detail : option string).
Arguments ChatJson {Data} data.
Arguments ChatError {Data} error detail.

Inductive ChatEffect (Message : Type) :=
| ReadKeyFile (file : KeyFile)
| Complete (request : CompletionRequest Message).
Arguments ReadKeyFile {Message} file.
Arguments Complete {Message} request.

Section ChatHandler.
Context {Store Message Data : Type}.

(** The system message for a goal, a length hint and, when the context has
    stores, their number; the message that lists the stores and the message
    that gives the ZIP: the template literals of the handler. *)
Variable systemMessage : string -> string -> option nat -> Message.
Variable storesMessage : list Store -> Message.
Variable zipMessage : string -> Message.

(** The template literal of line 379 throws for an element of [stores]:
    the element is [null] or [undefined], or a value that the template
    interpolates has no string form. *)
Variable storeLineThrows : Store -> bool.

(** Lines 323 to 340: the key, trimmed, and the file that was read. *)
Definition readApiKey (files : KeyFiles) : Outcome string * KeyFile :=
  match renderKey files with
  | Some content =>
      (match content with Resolved s => Resolved (Str.trim s) | Rejected => Rejected end,
       RenderPath)
  | None =>
      (match localKey files with Resolved s => Resolved (Str.trim s) | Rejected => Rejected end,
       LocalPath)
  end.

(** The number of stores of the context, when it has some. *)
Definition storeCount (context : option (ChatContext Store)) : option nat :=
  match context with
  | Some c =>
      match context_stores c with
      | Some (s :: l) => Some (length (s :: l))
      | _ => None
      end
  | None => None
  end.

(** [context.stores.map(...)], lines 378 to 380, throws: the context has an
    array of stores and the template throws for one of them. *)
Definition storeInfoThrows (context : option (ChatContext Store)) : bool :=
  match context with
  | Some c =>
      match context_stores c with
      | Some l => existsb storeLineThrows l
      | None => false
      end
  | None => false
  end.

(** [body] of the request to the service, lines 342 to 400, when the
    templates give their strings. *)
Definition completionRequest (apiKey : string) (body : option (ChatBody Store Message))
    : CompletionRequest Message :=
  let messages := match body with Some b => body_messages b | None => None end in
  let goal := match body with Some b => body_goal b | None => None end in
  let context := match body with Some b => body_context b | None => None end in
  let responseLength := match body with Some b => body_responseLength b | None => None end in
  let settings := lengthSettingsOf responseLength in
  let system :=
    systemMessage (orElse goal "unspecified") (lengthHint settings) (storeCount context) in
  {| authorization := "Bearer " ++ apiKey;
     request_messages :=
       chatMessages system (userContextOf storesMessage zipMessage context) messages;
     request_temperature := temperature settings;
     request_max_tokens := maxTokens settings |}.

(** The handler: the answer and the effects, in order.  What is thrown
    after the key is read is caught by the outer [catch]. *)
Definition post_chat (files : KeyFiles)
    (service : CompletionRequest Message -> Outcome (CompletionResponse Data))
    (body : option (ChatBody Store Message))
    : ChatResponse Data * list (ChatEffect Message) :=
  let '(key, file) := readApiKey files in
  match key with
  | Rejected => (ChatError "Could not read api_key.txt file" None, [ReadKeyFile file])
  | Resolved apiKey =>
      if String.eqb apiKey "" then
        (ChatError "API key file is empty" None, [ReadKeyFile file])
      else if storeInfoThrows (match body with Some b => body_context b | None => None end)
      then (ChatError "Chat proxy failed" None, [ReadKeyFile file])
      else
        let request := completionRequest apiKey body in
        let effects := [ReadKeyFile file; Complete request] in
        match service request with
        | Rejected => (ChatError "Chat proxy failed" None, effects)
        | Resolved response =>
            if negb (completion_ok response) then
              match completion_text response with
              | Resolved text => (ChatError "OpenAI error" (Some text), effects)
              | Rejected => (ChatError "Chat proxy failed" None, effects)
              end
            else
              match completion_json response with
              | Resolved data => (ChatJson data, effects)
              | Rejected => (ChatError "Chat proxy failed" None, effects)
              end
        end
  end.

End ChatHandler.

(* ===================================================================== *)
(** * Vocabulary of the properties *)
(* ===================================================================== *)

(** A string of decimal digits. *)
(** The characters of a string are ASCII: their codes are below 128. *)
Fixpoint isAscii (s : string) : bool :=
  match s with
  | EmptyString => true
  | String c s' => (nat_of_ascii c <? 128)%nat && isAscii s'
  end.

Fixpoint allDigits (s : string) : bool :=
  match s with
  | EmptyString => true
  | String c s' => Str.isDigit c && allDigits s'
  end.

(** The rows that [loadStoresFromCsv] keeps, and the record of a row. *)
Definition finiteCoords (row : Row) : bool :=
  isFinite (rowLatitude row) && isFinite (rowLongitude row).

Definition normalized (row : Row) : StoreRecord :=
  storeOf row (rowLatitude row) (rowLongitude row).

(** Requests. *)
Definition noParameters : Query := {|
  query_lat := None; query_lng := None; query_radius := None;
  query_isHealthy := None; query_storeType := None; query_limit := None
|}.

Definition withOrigin (lat lng : option string) (q : Query) : Query := {|
  query_lat := lat; query_lng := lng; query_radius := query_radius q;
  query_isHealthy := query_isHealthy q; query_storeType := query_storeType q;
  query_limit := query_limit q
|}.

Definition withRadius (radius : option string) (q : Query) : Query := {|
  query_lat := query_lat q; query_lng := query_lng q; query_radius := radius;
  query_isHealthy := query_isHealthy q; query_storeType := query_storeType q;
  query_limit := query_limit q
|}.

Definition withLimit (limit : option string) (q : Query) : Query := {|
  query_lat := query_lat q; query_lng := query_lng q; query_radius := query_radius q;
  query_isHealthy := query_isHealthy q; query_storeType := query_storeType q;
  query_limit := limit
|}.

(** The response of a request, and what [await loadNYCZips()] gives. *)
Definition responseOf (w : World) (st : ServerState) (param : option string)
    : Response Coordinate.t :=
  fst (fst (get_zip w st param)).

Definition regionalTable (w : World) (st : ServerState)
    : Awaited (gmap string NycZip) :=
  fst (fst (loadNYCZips w st)).

Definition InvalidInput : Response Coordinate.t := Status 400 "Invalid ZIP".
Definition NotFound : Response Coordinate.t := Status 404 "ZIP not found".
Definition LookupFailed : Response Coordinate.t := Status 500 "ZIP lookup failed".

(** A world where the read stream of the regional table emits an error and
    no service answers. *)
Definition brokenTable : World := {|
  nycZipCsv := StreamError;
  fetch := fun _ => Rejected
|}.

(** A world where the regional table has a row for 10001 without the column
    [Borough], and no service answers. *)
Definition noBoroughTable : World := {|
  nycZipCsv := FileRows [ <["ZipCode" := "10001"]> ∅ ];
  fetch := fun _ => Rejected
|}.

Definition freshState : ServerState := {|
  zipCentroids := ∅;
  nycZipCache := None
|}.

(** ** Valid binary64 numbers *)

(** A mantissa and an exponent in canonical form: the mantissa is zero at the
    least exponent, or has as many digits as the exponent asks for. *)
Definition canonical (m : Z) (e : Z) : Prop :=
  (m = 0 /\ e = -1074)
  \/ exists p, m = Z.pos p /\ fexp prec emax (Z.pos (digits2_pos p) + e) = e.

(** A finite number that is not zero, or an infinity, of sign [s]. *)
Definition signed (s : bool) (x : number) : Prop :=
  match x with
  | S754_finite s' _ _ | S754_infinity s' => s' = s
  | _ => False
  end.

(** The comparison of [SFcompare] on two positive finite numbers. *)
Definition lex (m1 : positive) (e1 : Z) (m2 : positive) (e2 : Z) : comparison :=
  match Z.compare e1 e2 with
  | Lt => Lt
  | Gt => Gt
  | Eq => Pos.compare m1 m2
  end.

Definition le_cmp (c : comparison) : bool :=
  match c with Gt => false | _ => true end.

(** [a <= b] on the distances of two results, and the results within a
    radius. *)
Definition nearerOrEqual (a b : StoreWithDistance) : Prop :=
  leb (distance_m a) (distance_m b) = true.

Definition within (radiusMeters : number) (a : StoreWithDistance) : Prop :=
  leb (distance_m a) radiusMeters = true.


(** What holds of every element of a result: it is a store of the
    collection, with the distance computed for it, within the radius. *)
Definition measured (M : MathLib) (lat lng radiusMeters : number)
    (stores : list StoreRecord) (a : StoreWithDistance) : Prop :=
  In (store a) stores
  /\ distance_m a = distanceMeters M lat lng (latitude (store a)) (longitude (store a))
  /\ within radiusMeters a.

(** A distance that the comparator of the sort orders: valid and not NaN. *)
Definition comparable (a : StoreWithDistance) : Prop :=
  valid_binary prec emax (distance_m a) = true /\ isNaN (distance_m a) = false.

(** ** [Math] libraries *)

(** A [Math] library has the values that ECMAScript prescribes at 0 and
    1. *)
Record Conforming (M : MathLib) : Prop := {
  sin_zero : Math_sin M pzero = pzero;
  cos_zero : Math_cos M pzero = ofZ 1;
  sqrt_zero : Math_sqrt M pzero = pzero;
  sqrt_one : Math_sqrt M (ofZ 1) = ofZ 1;
  atan2_zero_one : Math_atan2 M pzero (ofZ 1) = pzero
}.

(** [Math.sin] is odd. *)
Definition OddSine (M : MathLib) : Prop :=
  forall x : number, Math_sin M (neg x) = neg (Math_sin M x).

(** A [Math] library has the value that ECMAScript prescribes, NaN, for
    [Math.cos] at the infinities and at NaN, for [Math.sqrt] at NaN and for
    [Math.atan2] at NaN. *)
Record PropagatesNaN (M : MathLib) : Prop := {
  cos_not_finite : forall x : number, isFinite x = false -> Math_cos M x = NaN;
  sqrt_NaN : Math_sqrt M NaN = NaN;
  atan2_NaN : Math_atan2 M NaN NaN = NaN
}.

(** A latitude that is finite and whose measure in radians is not: 1e308. *)
Definition hugeLatitude : number := parseFloat "1e308".

(** ** Examples *)

(** A CSV row of the store file with the given cells. *)
Definition exampleRow (storeName lat lon zipCode : string) : Row :=
  <["Store_Name" := storeName]>
    (<["Latitude" := lat]> (<["Longitude" := lon]> (<["Zip_Code" := zipCode]> ∅))).

Definition exampleRows : list Row :=
  [ exampleRow "Far" "40.71" "-74.0" "10007";
    exampleRow "No coordinates" "n/a" "" "10001";
    exampleRow "Near" "40.7001" "-74.0" "10004";
    exampleRow "Here" "40.7" "-74.0" "10004" ].

Definition exampleStores : list StoreRecord := loadStoresFromCsv exampleRows.

Definition exampleQuery : Query :=
  withLimit (Some "2") (withOrigin (Some "40.7") (Some "-74.0") noParameters).

(** A store at latitude 0 and longitude 0. *)
Definition storeAtOrigin : StoreRecord := {|
  id := ""; name := "Null Island"; address := ""; city := ""; borough := "";
  zip := "00000"; county := ""; storeType := ""; isHealthyStore := false;
  aiScore := None; aiReason := ""; aiEconomyScore := None; aiEconomyReason := "";
  latitude := pzero; longitude := pzero
|}.

(** The least positive number, 5e-324. *)
Definition tiny : number := S754_finite false 1 (-1074).

(** A state whose centroid index knows the ZIP 10004. *)
Definition exampleState : ServerState := {|
  zipCentroids := {[ "10004" := coord (ofDecimal 407 (-1)) (neg (ofZ 74)) ]};
  nycZipCache := None
|}.

(** ** Store filters *)

Definition withHealthy (isHealthy : option string) (q : Query) : Query := {|
  query_lat := query_lat q; query_lng := query_lng q; query_radius := query_radius q;
  query_isHealthy := isHealthy; query_storeType := query_storeType q;
  query_limit := query_limit q
|}.

Definition withStoreType (type : option string) (q : Query) : Query := {|
  query_lat := query_lat q; query_lng := query_lng q; query_radius := query_radius q;
  query_isHealthy := query_isHealthy q; query_storeType := type;
  query_limit := query_limit q
|}.

(** The two filters of a request, as predicates on a store. *)
Definition passesHealth (healthyOnly : string) (s : StoreRecord) : bool :=
  if String.eqb healthyOnly "true" then isHealthyStore s
  else if String.eqb healthyOnly "false" then negb (isHealthyStore s)
  else true.

Definition passesType (wantedType : string) (s : StoreRecord) : bool :=
  String.eqb wantedType ""
  || String.eqb (Str.toLowerCase (storeType s)) (Str.toLowerCase wantedType).

(** A store with its distance from the origin of the request. *)
Definition withDistanceOf (M : MathLib) (lat lng : number) (s : StoreRecord)
    : StoreWithDistance :=
  {| store := s; distance_m := distanceMeters M lat lng (latitude s) (longitude s) |}.

(** The stores that a request asks for, in the order of the collection:
    those that pass both filters and lie within the radius. *)
Definition qualifying (M : MathLib) (stores : list StoreRecord) (q : Query)
    : list StoreWithDistance :=
  List.filter (fun a => leb (distance_m a) (radiusMetersOf q))
    (List.map (withDistanceOf M (latOf q) (lngOf q))
       (List.filter (fun s => passesHealth (healthyOnlyOf q) s
                              && passesType (storeTypeOf q) s) stores)).

(** A string of white space. *)
Fixpoint allWhite (s : string) : bool :=
  match s with
  | EmptyString => true
  | String c s' => Str.isWhite c && allWhite s'
  end.

(** ** Runs of the ZIP resolver *)

(** The state after a request, and its effects. *)
Definition stateAfter (w : World) (st : ServerState) (param : option string)
    : ServerState :=
  snd (fst (get_zip w st param)).

Definition effectsOf (w : World) (st : ServerState) (param : option string)
    : list Effect :=
  snd (get_zip w st param).

(** The URLs that a list of effects fetches, in order. *)
Fixpoint fetched (e : list Effect) : list string :=
  match e with
  | [] => []
  | Fetch url :: e' => url :: fetched e'
  | _ :: e' => fetched e'
  end.

(** What a list of effects writes to the centroid index, in order. *)
Fixpoint written (e : list Effect) : list (string * Coordinate.t) :=
  match e with
  | [] => []
  | CacheWrite zip c :: e' => (zip, c) :: written e'
  | _ :: e' => written e'
  end.

(** The entry and the key of a row of the regional table. *)
Definition entryOf (row : Row) : NycZip :=
  {| nyc_zip := row !! "ZipCode"; nyc_borough := row !! "Borough" |}.

Definition keyOf (row : Row) : string := ToString (row !! "ZipCode").

(** ** The stores of a ZIP *)

Definition accumulate (v : Agg) (s : StoreRecord) : Agg :=
  {| sumLat := Num.add (sumLat v) (latitude s);
     sumLon := Num.add (sumLon v) (longitude s);
     count := Num.add (count v) (ofZ 1) |}.

Definition accumulateIn (o : option Agg) (s : StoreRecord) : option Agg :=
  Some (accumulate (match o with Some v => v | None => newAgg end) s).

Definition atZip (k : string) (s : StoreRecord) : bool := String.eqb (zip s) k.

(** ** More examples *)

(** A row of the store file with a type, a health flag and a health
    score. *)
Definition catalogRow (storeName lat lon zipCode type healthy score : string) : Row :=
  <["Store_Type" := type]>
    (<["Is_Healthy_Store" := healthy]>
       (<["AI_Health_Score" := score]> (exampleRow storeName lat lon zipCode))).

Definition farRow : Row :=
  catalogRow "Far" "40.71" "-74.0" "10007" "Supermarket" "TRUE" "12".

Definition nowhereRow : Row :=
  catalogRow "Nowhere" "40.7" "-74.0" "n/a" "Farmers Market" "" "".

Definition catalogRows : list Row :=
  [ farRow;
    catalogRow "Near" "40.7001" "-74.0" "10004" "Grocery Store" " yes " "7";
    catalogRow "Here" "40.7" "-74.0" "10004" "supermarket" "no" "0";
    nowhereRow ].

Definition catalogStores : list StoreRecord := loadStoresFromCsv catalogRows.

(** The state that [start] leaves for the catalog. *)
Definition catalogState : ServerState :=
  {| zipCentroids := buildCentroids catalogStores; nycZipCache := None |}.

(** Requests around (40.7, -74.0): healthy stores only, supermarkets only,
    and within 5 km. *)
Definition healthyQuery : Query := withHealthy (Some "TRUE") exampleQuery.
Definition supermarketQuery : Query := withStoreType (Some " SuperMarket ") exampleQuery.
Definition wideQuery : Query :=
  withRadius (Some "5000") (withLimit (Some "50") exampleQuery).

(** A world whose regional table knows 10001 and whose geocoding service
    answers every request with one hit that has a latitude and no
    longitude. *)
Definition geocoderWorld : World := {|
  nycZipCsv := FileRows [ <["ZipCode" := "10001"]> (<["Borough" := "Manhattan"]> ∅) ];
  fetch := fun _ =>
    Resolved {| ok := true;
                json := Resolved (Hits [ Some {| hit_lat := Some "40.69"; hit_lon := None |} ]);
                text := Rejected |}
|}.

(** A world without regional table whose services answer every request
    with the JSON list that holds [null] alone and a text without
    [<Error>]. *)
Definition nullHitWorld : World := {|
  nycZipCsv := FileMissing;
  fetch := fun _ =>
    Resolved {| ok := true;
                json := Resolved (Hits [ None ]);
                text := Resolved "<CityStateLookupResponse/>" |}
|}.

(** A state whose regional table is in memory, and empty. *)
Definition loadedState : ServerState :=
  {| zipCentroids := zipCentroids exampleState; nycZipCache := Some ∅ |}.

(** ** Ties *)

(** The results at the distance [d]: [a.distance_m <= d && d <= a.distance_m]. *)
Definition sameDistance (d : number) (a : StoreWithDistance) : bool :=
  leb (distance_m a) d && leb d (distance_m a).

(** ** Runs of the chat proxy *)

(** The requests that a list of effects sends to the completion service. *)
Fixpoint completions {Message : Type} (e : list (ChatEffect Message))
    : list (CompletionRequest Message) :=
  match e with
  | [] => []
  | Complete r :: e' => r :: completions e'
  | _ :: e' => completions e'
  end.

(** The key files that a list of effects reads. *)
Fixpoint keyReads {Message : Type} (e : list (ChatEffect Message)) : list KeyFile :=
  match e with
  | [] => []
  | ReadKeyFile f :: e' => f :: keyReads e'
  | _ :: e' => keyReads e'
  end.

(** Examples: a host whose secret file is blank while the local file holds
    a key, and a service that answers every request. *)
Definition blankSecret : KeyFiles :=
  {| renderKey := Some (Resolved "  "); localKey := Resolved "sk-local" |}.

Definition localOnly : KeyFiles :=
  {| renderKey := None; localKey := Resolved " sk-local " |}.

Definition echoService (r : CompletionRequest nat)
    : Outcome (CompletionResponse (list nat)) :=
  Resolved {| completion_ok := true;
              completion_json := Resolved (request_messages r);
              completion_text := Rejected |}.

Definition exampleBody : ChatBody unit nat :=
  {| body_messages := Some [7%nat; 8%nat];
     body_goal := None;
     body_context := Some {| context_stores := Some [tt]; context_zip := Some "10004" |};
     body_responseLength := Some "Concise" |}.

(** A body whose context lists a store and [null]; the template throws for
    [null]. *)
Definition nullStoreBody : ChatBody (option unit) nat :=
  {| body_messages := Some [7%nat; 8%nat];
     body_goal := None;
     body_context := Some {| context_stores := Some [Some tt; None];
                             context_zip := Some "10004" |};
     body_responseLength := None |}.

Definition isNull {A : Type} (x : option A) : bool :=
  match x with
  | None => true
  | Some _ => false
  end.

(** The context of a body. *)
Definition contextOf {Store Message : Type} (body : option (ChatBody Store Message))
    : option (ChatContext Store) :=
  match body with
  | Some b => body_context b
  | None => None
  end.

(* ===================================================================== *)
(** * Facts on binary64 arithmetic *)
(* ===================================================================== *)

Module Binary64.

Lemma fexp_eq e : fexp prec emax e = Z.max (e - 53) (-1074).
Proof. reflexivity. Qed.

Lemma emin_le_fexp e : -1074 <= fexp prec emax e.
Proof. rewrite fexp_eq. lia. Qed.

(** ** Digits *)

Lemma digits2_pos_bounds (m : positive) :
  2 ^ (Z.pos (digits2_pos m) - 1) <= Z.pos m < 2 ^ Z.pos (digits2_pos m).
Proof.
  induction m as [m IH|m IH|]; cbn [digits2_pos].
  - rewrite Pos2Z.inj_succ.
    replace (Z.succ (Z.pos (digits2_pos m)) - 1) with (Z.succ (Z.pos (digits2_pos m) - 1)) by lia.
    rewrite !Z.pow_succ_r by lia. lia.
  - rewrite Pos2Z.inj_succ.
    replace (Z.succ (Z.pos (digits2_pos m)) - 1) with (Z.succ (Z.pos (digits2_pos m) - 1)) by lia.
    rewrite !Z.pow_succ_r by lia. lia.
  - simpl. lia.
Qed.

Lemma digits2_pos_unique (m : positive) (k : Z) :
  2 ^ (k - 1) <= Z.pos m < 2 ^ k -> Z.pos (digits2_pos m) = k.
Proof.
  intros [Hlo Hhi]. pose proof (digits2_pos_bounds m) as [Dlo Dhi].
  set (d := Z.pos (digits2_pos m)) in *.
  assert (0 < d) by (subst d; lia).
  destruct (Z.lt_trichotomy d k) as [Hlt | [Heq | Hgt]]; [|exact Heq|].
  - assert (2 ^ d <= 2 ^ (k - 1)) by (apply Z.pow_le_mono_r; lia). lia.
  - assert (0 <= k).
    { destruct (Z.le_gt_cases 0 k); [assumption|].
      rewrite (Z.pow_neg_r 2 k) in Hhi by lia. lia. }
    assert (2 ^ k <= 2 ^ (d - 1)) by (apply Z.pow_le_mono_r; lia). lia.
Qed.

Lemma Zdigits2_pos (m : positive) : Zdigits2 (Z.pos m) = Z.pos (digits2_pos m).
Proof. reflexivity. Qed.

(** ** Shifts *)

Lemma iter_pos_iter {A} (f : A -> A) (n : positive) (x : A) :
  SpecFloat.iter_pos f n x = Pos.iter f x n.
Proof.
  revert x. induction n as [n IH|n IH|]; intros x; cbn [SpecFloat.iter_pos Pos.iter].
  - rewrite !IH. now rewrite !Pos.iter_swap.
  - now rewrite !IH.
  - reflexivity.
Qed.

Lemma shr_1_m mrs : 0 <= shr_m mrs -> shr_m (shr_1 mrs) = shr_m mrs / 2.
Proof.
  destruct mrs as [m r s]. cbn [shr_m]. intros Hm.
  destruct m as [|p|p]; [reflexivity| |lia].
  destruct p as [p|p|]; cbn [shr_1 shr_m].
  - rewrite Pos2Z.inj_xI. apply Z.div_unique with (r := 1); lia.
  - rewrite Pos2Z.inj_xO. apply Z.div_unique with (r := 0); lia.
  - reflexivity.
Qed.

Lemma shr_iter_m (n : positive) mrs :
  0 <= shr_m mrs ->
  shr_m (SpecFloat.iter_pos shr_1 n mrs) = shr_m mrs / 2 ^ Z.pos n.
Proof.
  intros Hm. rewrite iter_pos_iter.
  induction n as [|n IH] using Pos.peano_ind.
  - cbn [Pos.iter]. rewrite shr_1_m by assumption. reflexivity.
  - rewrite Pos.iter_succ, shr_1_m.
    + rewrite IH, Pos2Z.inj_succ, Z.pow_succ_r by lia.
      rewrite Z.div_div by (try apply Z.pow_pos_nonneg; lia).
      f_equal. lia.
    + rewrite IH. apply Z.div_pos; [assumption|]. apply Z.pow_pos_nonneg; lia.
Qed.

Lemma shr_record_of_loc_m m l : shr_m (shr_record_of_loc m l) = m.
Proof. destruct l as [|[]]; reflexivity. Qed.

Lemma round_nearest_even_cases m l :
  round_nearest_even m l = m \/ round_nearest_even m l = m + 1.
Proof.
  destruct l as [|[]]; cbn [round_nearest_even]; auto.
  destruct (Z.even m); auto.
Qed.


(** The mantissa and the exponent after [shr_fexp]. *)
Lemma shr_fexp_specZ (m : Z) (e : Z) (l : location) :
  0 <= m ->
  let n := fexp prec emax (Zdigits2 m + e) - e in
  (n <= 0 /\ shr_fexp prec emax m e l = (shr_record_of_loc m l, e))
  \/ (0 < n /\ exists mrs, shr_fexp prec emax m e l = (mrs, e + n) /\
                           shr_m mrs = m / 2 ^ n).
Proof.
  intros Hm n. unfold shr_fexp. fold n.
  destruct n as [|p|p] eqn:Hn.
  - left. split; [lia|reflexivity].
  - right. split; [lia|]. cbn [shr].
    eexists. split; [reflexivity|].
    rewrite shr_iter_m; rewrite shr_record_of_loc_m; [reflexivity|lia].
  - left. split; [lia|reflexivity].
Qed.

Lemma digits2_pos_mono (p q : positive) :
  Z.pos p <= Z.pos q -> Z.pos (digits2_pos p) <= Z.pos (digits2_pos q).
Proof.
  intros Hpq.
  pose proof (digits2_pos_bounds p) as [Hp _].
  pose proof (digits2_pos_bounds q) as [_ Hq].
  destruct (Z.le_gt_cases (Z.pos (digits2_pos p)) (Z.pos (digits2_pos q)));
    [assumption|].
  assert (2 ^ Z.pos (digits2_pos q) <= 2 ^ (Z.pos (digits2_pos p) - 1))
    by (apply Z.pow_le_mono_r; lia).
  lia.
Qed.

Lemma fexp_mono a b : a <= b -> fexp prec emax a <= fexp prec emax b.
Proof. rewrite !fexp_eq. lia. Qed.

(** A right shift by fewer bits than the mantissa has leaves a positive
    mantissa, with that many digits less. *)
Lemma shift_digits (m : positive) (n : Z) :
  0 <= n < Z.pos (digits2_pos m) ->
  exists p, Z.pos m / 2 ^ n = Z.pos p /\
            Z.pos (digits2_pos p) = Z.pos (digits2_pos m) - n.
Proof.
  intros Hn. pose proof (digits2_pos_bounds m) as [Hlo Hhi].
  set (d := Z.pos (digits2_pos m)) in *.
  assert (Hpn : 0 < 2 ^ n) by (apply Z.pow_pos_nonneg; lia).
  assert (Hq_lo : 2 ^ (d - n - 1) <= Z.pos m / 2 ^ n).
  { apply Z.div_le_lower_bound; [assumption|].
    rewrite <- Z.pow_add_r by lia. replace (n + (d - n - 1)) with (d - 1) by lia.
    assumption. }
  assert (Hq_hi : Z.pos m / 2 ^ n < 2 ^ (d - n)).
  { apply Z.div_lt_upper_bound; [assumption|].
    rewrite <- Z.pow_add_r by lia. replace (n + (d - n)) with d by lia.
    assumption. }
  assert (0 < 2 ^ (d - n - 1)) by (apply Z.pow_pos_nonneg; lia).
  destruct (Z.pos m / 2 ^ n) as [|p|p] eqn:Hq; [lia| |lia].
  exists p. split; [reflexivity|]. apply digits2_pos_unique. lia.
Qed.

Lemma shift_out (m : positive) (n : Z) :
  Z.pos (digits2_pos m) <= n -> Z.pos m / 2 ^ n = 0.
Proof.
  intros Hn. pose proof (digits2_pos_bounds m) as [_ Hhi].
  apply Z.div_small. split; [lia|].
  assert (2 ^ Z.pos (digits2_pos m) <= 2 ^ n) by (apply Z.pow_le_mono_r; lia).
  lia.
Qed.

(** ** [shr_fexp] from at or below the target exponent *)

Lemma shr_fexp_canonical (m : positive) (e : Z) (l : location) :
  e <= fexp prec emax (Z.pos (digits2_pos m) + e) ->
  exists mrs,
    shr_fexp prec emax (Z.pos m) e l
    = (mrs, fexp prec emax (Z.pos (digits2_pos m) + e))
    /\ 0 <= shr_m mrs
    /\ canonical (shr_m mrs) (fexp prec emax (Z.pos (digits2_pos m) + e)).
Proof.
  intros He.
  destruct (shr_fexp_specZ (Z.pos m) e l ltac:(lia)) as [[Hn Hs] | (Hn & mrs & Hs & Hm)];
    rewrite Zdigits2_pos in Hn.
  - exists (shr_record_of_loc (Z.pos m) l).
    assert (HE : fexp prec emax (Z.pos (digits2_pos m) + e) = e) by lia.
    rewrite shr_record_of_loc_m. split; [rewrite Hs; f_equal; lia|].
    split; [lia|].
    right. exists m. split; [reflexivity|]. rewrite HE. exact HE.
  - rewrite Zdigits2_pos in Hs, Hm.
    remember (Z.pos (digits2_pos m)) as d eqn:Hd.
    remember (fexp prec emax (d + e)) as E eqn:HE.
    exists mrs. replace (e + (E - e)) with E in Hs by lia.
    split; [assumption|]. rewrite Hm.
    destruct (Z.le_gt_cases d (E - e)) as [Hout | Hin].
    + rewrite shift_out by lia. split; [lia|]. left. split; [reflexivity|].
      rewrite fexp_eq in HE. lia.
    + destruct (shift_digits m (E - e) ltac:(lia)) as (p & Hp & Hdp).
      rewrite Hp. split; [lia|]. right. exists p. split; [reflexivity|].
      rewrite Hdp, <- Hd. replace (d - (E - e) + E) with (d + e) by lia.
      now rewrite HE.
Qed.

Lemma shr_fexp_zero (e : Z) (l : location) :
  shr_m (fst (shr_fexp prec emax 0 e l)) = 0.
Proof.
  destruct (shr_fexp_specZ 0 e l ltac:(lia)) as [[_ Hs] | (_ & mrs & Hs & Hm)];
    rewrite Hs; cbn [fst].
  - apply shr_record_of_loc_m.
  - rewrite Hm. apply Zdiv_0_l.
Qed.


(** ** Rounding gives valid numbers *)

Lemma round_nearest_even_ge m l : m <= round_nearest_even m l.
Proof. destruct (round_nearest_even_cases m l); lia. Qed.

Lemma binary_round_aux_valid (s : bool) (m : positive) (e : Z) (l : location) :
  e <= fexp prec emax (Z.pos (digits2_pos m) + e) ->
  valid_binary prec emax (binary_round_aux prec emax s (Z.pos m) e l) = true.
Proof.
  intros He. unfold binary_round_aux.
  destruct (shr_fexp_canonical m e l He) as (mrs & Hs & Hm0 & Hc). rewrite Hs.
  remember (fexp prec emax (Z.pos (digits2_pos m) + e)) as E eqn:HE.
  pose proof (round_nearest_even_ge (shr_m mrs) (loc_of_shr_record mrs)) as Hge.
  pose proof (round_nearest_even_cases (shr_m mrs) (loc_of_shr_record mrs)) as Hcases.
  destruct (round_nearest_even (shr_m mrs) (loc_of_shr_record mrs)) as [|p1|p1] eqn:Hr;
    [| |lia].
  - pose proof (shr_fexp_zero E loc_Exact) as Hz.
    destruct (shr_fexp prec emax 0 E loc_Exact) as [mrs2 e2]. cbn [fst] in Hz.
    now rewrite Hz.
  - assert (He1 : E <= fexp prec emax (Z.pos (digits2_pos p1) + E)).
    { destruct Hc as [[Hm HE'] | (p0 & Hp0 & Hcan)].
      - rewrite HE'. apply emin_le_fexp.
      - rewrite <- Hcan at 1. apply fexp_mono.
        assert (Z.pos (digits2_pos p0) <= Z.pos (digits2_pos p1))
          by (apply digits2_pos_mono; lia).
        lia. }
    destruct (shr_fexp_canonical p1 E loc_Exact He1) as (mrs2 & Hs2 & Hm2 & Hc2).
    rewrite Hs2.
    destruct Hc2 as [[Hz _] | (p2 & Hp2 & Hcan2)]; rewrite ?Hz; [reflexivity|].
    rewrite Hp2.
    destruct (Z.leb_spec (fexp prec emax (Z.pos (digits2_pos p1) + E)) (emax - prec)) as [Hle|Hgt];
      [|reflexivity].
    cbn [valid_binary]. unfold SpecFloat.bounded, canonical_mantissa.
    rewrite Hcan2, Z.eqb_refl. apply Z.leb_le in Hle. now rewrite Hle.
Qed.

(** ** Rounding keeps the sign *)

Lemma shr_fexp_positive (m : positive) (e : Z) (l : location) :
  -1074 <= e ->
  exists mrs e', shr_fexp prec emax (Z.pos m) e l = (mrs, e') /\
                 0 < shr_m mrs /\ -1074 <= e'.
Proof.
  intros He.
  destruct (shr_fexp_specZ (Z.pos m) e l ltac:(lia)) as [[Hn Hs] | (Hn & mrs & Hs & Hm)].
  - eexists _, _. split; [exact Hs|]. rewrite shr_record_of_loc_m. lia.
  - rewrite Zdigits2_pos in Hn, Hs, Hm.
    remember (Z.pos (digits2_pos m)) as d eqn:Hd.
    assert (0 < d) by lia.
    rewrite fexp_eq in Hn, Hs, Hm.
    remember (Z.max (d + e - 53) (-1074) - e) as n eqn:Hn'.
    destruct (shift_digits m n ltac:(lia)) as (p & Hp & _).
    eexists _, _. split; [exact Hs|]. rewrite Hm, Hp. lia.
Qed.

Lemma binary_round_aux_signed (s : bool) (m : positive) (e : Z) (l : location) :
  -1074 <= e -> signed s (binary_round_aux prec emax s (Z.pos m) e l).
Proof.
  intros He. unfold binary_round_aux.
  destruct (shr_fexp_positive m e l He) as (mrs & e' & Hs & Hm & He'). rewrite Hs.
  pose proof (round_nearest_even_ge (shr_m mrs) (loc_of_shr_record mrs)) as Hge.
  destruct (round_nearest_even (shr_m mrs) (loc_of_shr_record mrs)) as [|p1|p1];
    [lia| |lia].
  destruct (shr_fexp_positive p1 e' loc_Exact He') as (mrs2 & e2 & Hs2 & Hm2 & _).
  rewrite Hs2. destruct (shr_m mrs2) as [|p2|p2]; [lia| |lia].
  destruct (e2 <=? emax - prec); reflexivity.
Qed.

Lemma pos_iter_xO (m d : positive) :
  Z.pos (Pos.iter xO m d) = Z.pos m * 2 ^ Z.pos d.
Proof.
  induction d as [|d IH] using Pos.peano_ind.
  - cbn [Pos.iter]. lia.
  - rewrite Pos.iter_succ, Pos2Z.inj_xO, IH, Pos2Z.inj_succ, Z.pow_succ_r by lia.
    lia.
Qed.

Lemma shl_align_value (m : positive) (e e' : Z) :
  e' <= e -> Z.pos (fst (shl_align m e e')) = Z.pos m * 2 ^ (e - e').
Proof.
  intros He. unfold shl_align.
  destruct (e' - e) as [|d|d] eqn:Hd; cbn [fst]; [|lia|].
  - replace (e - e') with 0 by lia. lia.
  - rewrite pos_iter_xO. f_equal. f_equal. lia.
Qed.

Lemma shl_align_exponent (m : positive) (e e' : Z) :
  snd (shl_align m e e') = Z.min e e'.
Proof.
  unfold shl_align. destruct (e' - e) as [|d|d] eqn:Hd; cbn [snd]; lia.
Qed.

Lemma binary_round_signed (s : bool) (m : positive) (e : Z) :
  -1074 <= e -> signed s (binary_round prec emax s m e).
Proof.
  intros He. unfold binary_round.
  pose proof (shl_align_exponent m e (fexp prec emax (Z.pos (digits2_pos m) + e))) as Hx.
  pose proof (emin_le_fexp (Z.pos (digits2_pos m) + e)).
  destruct (shl_align m e (fexp prec emax (Z.pos (digits2_pos m) + e))) as [mz ez].
  cbn [snd] in Hx. apply binary_round_aux_signed. lia.
Qed.

Lemma gtb_zero_signed (x : number) : signed false x -> gtb x pzero = true.
Proof. destruct x as [| | |s m e]; simpl; try tauto; intros ->; reflexivity. Qed.

Lemma gtb_zero_round_negative (m e : Z) (l : location) :
  gtb (binary_round_aux prec emax true m e l) pzero = false.
Proof.
  unfold binary_round_aux.
  destruct (shr_fexp prec emax m e l) as [mrs e'].
  destruct (shr_fexp prec emax _ e' loc_Exact) as [mrs2 e2].
  destruct (shr_m mrs2); [reflexivity| |reflexivity].
  destruct (e2 <=? emax - prec); reflexivity.
Qed.

(** The sign of a rounded integer, as the comparator of the sort reads
    it. *)
Lemma gtb_zero_normalize (m e : Z) :
  -1074 <= e -> gtb (binary_normalize prec emax m e false) pzero = (0 <? m).
Proof.
  intros He. destruct m as [|p|p]; cbn [binary_normalize].
  - reflexivity.
  - now rewrite gtb_zero_signed by now apply binary_round_signed.
  - unfold binary_round.
    destruct (shl_align p e _) as [mz ez]. apply gtb_zero_round_negative.
Qed.


(** ** Products with a normal number are valid *)

Lemma mul_valid_normal (s : bool) (m : positive) (e : Z) (y : number) :
  Z.pos (digits2_pos m) = 53 ->
  valid_binary prec emax (mul (S754_finite s m e) y) = true.
Proof.
  intros Hd. destruct y as [sy|sy| |sy my ey]; try reflexivity.
  unfold mul. cbn [SFmul]. apply binary_round_aux_valid.
  assert (Z.pos (digits2_pos m) <= Z.pos (digits2_pos (m * my)))
    by (apply digits2_pos_mono; nia).
  rewrite fexp_eq. lia.
Qed.

(** ** The order of valid numbers *)

Lemma valid_canonical (s : bool) (m : positive) (e : Z) :
  valid_binary prec emax (S754_finite s m e) = true ->
  fexp prec emax (Z.pos (digits2_pos m) + e) = e.
Proof.
  cbn [valid_binary]. unfold SpecFloat.bounded, canonical_mantissa.
  intros [H _]%andb_true_iff. now apply Z.eqb_eq.
Qed.

Lemma lex_antisym m1 e1 m2 e2 : lex m2 e2 m1 e1 = CompOpp (lex m1 e1 m2 e2).
Proof.
  unfold lex. rewrite (Z.compare_antisym e1 e2).
  destruct (e1 ?= e2); try reflexivity. cbn [CompOpp].
  apply Pos.compare_antisym.
Qed.

Lemma compare_aligned_lt (m1 : positive) (e1 : Z) (m2 : positive) (e2 : Z) :
  fexp prec emax (Z.pos (digits2_pos m1) + e1) = e1 ->
  fexp prec emax (Z.pos (digits2_pos m2) + e2) = e2 ->
  e1 < e2 ->
  Z.pos m1 < Z.pos m2 * 2 ^ (e2 - e1).
Proof.
  intros H1 H2 Hlt. rewrite fexp_eq in H1, H2.
  pose proof (digits2_pos_bounds m1) as [_ Hhi].
  pose proof (digits2_pos_bounds m2) as [Hlo _].
  assert (Hd2 : Z.pos (digits2_pos m2) = 53) by lia.
  assert (Hd1 : Z.pos (digits2_pos m1) <= 53) by lia.
  rewrite Hd2 in Hlo.
  assert (2 ^ Z.pos (digits2_pos m1) <= 2 ^ 53) by (apply Z.pow_le_mono_r; lia).
  assert (2 ^ 1 <= 2 ^ (e2 - e1)) by (apply Z.pow_le_mono_r; lia).
  change (2 ^ (53 - 1)) with 4503599627370496 in Hlo.
  change (2 ^ 53) with 9007199254740992 in *.
  change (2 ^ 1) with 2 in *.
  nia.
Qed.

Lemma compare_aligned (m1 : positive) (e1 : Z) (m2 : positive) (e2 : Z) :
  fexp prec emax (Z.pos (digits2_pos m1) + e1) = e1 ->
  fexp prec emax (Z.pos (digits2_pos m2) + e2) = e2 ->
  (Z.pos m1 * 2 ^ (e1 - Z.min e1 e2) ?= Z.pos m2 * 2 ^ (e2 - Z.min e1 e2))
  = lex m1 e1 m2 e2.
Proof.
  intros H1 H2. unfold lex.
  destruct (Z.compare_spec e1 e2) as [Heq|Hlt|Hgt].
  - subst e2. rewrite Z.min_id, Z.sub_diag. cbn [Z.pow]. rewrite !Z.mul_1_r.
    reflexivity.
  - rewrite Z.min_l by lia. rewrite Z.sub_diag. cbn [Z.pow]. rewrite Z.mul_1_r.
    apply Z.compare_lt_iff. now apply compare_aligned_lt.
  - rewrite Z.min_r by lia. rewrite Z.sub_diag. cbn [Z.pow]. rewrite Z.mul_1_r.
    apply Z.compare_gt_iff. now apply compare_aligned_lt.
Qed.

Lemma lex_negative m1 e1 m2 e2 :
  match e1 ?= e2 with
  | Eq => CompOpp (Pos.compare_cont Eq m1 m2)
  | Lt => Gt
  | Gt => Lt
  end = CompOpp (lex m1 e1 m2 e2).
Proof. unfold lex. destruct (e1 ?= e2); reflexivity. Qed.

(** The comparator [a - b] of the sort is positive exactly when
    [b < a]. *)
Lemma sub_positive (a b : number) :
  valid_binary prec emax a = true -> valid_binary prec emax b = true ->
  isNaN a = false -> isNaN b = false ->
  gtb (sub a b) pzero = ltb b a.
Proof.
  intros Va Vb Na Nb.
  destruct a as [sa|sa| |sa ma ea]; [| |discriminate|];
    (destruct b as [sb|sb| |sb mb eb]; [| |discriminate|]);
    try (destruct sa, sb; reflexivity); try (destruct sb; reflexivity);
    try (destruct sa; reflexivity).
  pose proof (valid_canonical _ _ _ Va) as Ca.
  pose proof (valid_canonical _ _ _ Vb) as Cb.
  unfold sub. cbn [SFsub].
  assert (Hea : -1074 <= ea) by (rewrite <- Ca; apply emin_le_fexp).
  assert (Heb : -1074 <= eb) by (rewrite <- Cb; apply emin_le_fexp).
  rewrite gtb_zero_normalize by lia.
  rewrite !shl_align_value by lia.
  pose proof (compare_aligned ma ea mb eb Ca Cb) as Hcmp.
  assert (0 < Z.pos ma * 2 ^ (ea - Z.min ea eb))
    by (apply Z.mul_pos_pos; [lia | apply Z.pow_pos_nonneg; lia]).
  assert (0 < Z.pos mb * 2 ^ (eb - Z.min ea eb))
    by (apply Z.mul_pos_pos; [lia | apply Z.pow_pos_nonneg; lia]).
  assert (Hlex : lex mb eb ma ea
                 = CompOpp (Z.pos ma * 2 ^ (ea - Z.min ea eb)
                            ?= Z.pos mb * 2 ^ (eb - Z.min ea eb)))
    by (now rewrite lex_antisym, Hcmp).
  remember (Z.pos ma * 2 ^ (ea - Z.min ea eb)) as X.
  remember (Z.pos mb * 2 ^ (eb - Z.min ea eb)) as Y.
  unfold ltb, SFltb. cbn [SFcompare].
  destruct sa, sb; cbn [cond_Zopp].
  - rewrite lex_negative, Hlex.
    destruct (Z.compare_spec X Y); cbn [CompOpp];
      destruct (Z.ltb_spec 0 (- X - - Y)); try reflexivity; lia.
  - destruct (Z.ltb_spec 0 (- X - Y)); try reflexivity; lia.
  - destruct (Z.ltb_spec 0 (X - - Y)); try reflexivity; lia.
  - change (match eb ?= ea with
            | Eq => Pos.compare_cont Eq mb ma | Lt => Lt | Gt => Gt end)
      with (lex mb eb ma ea).
    rewrite Hlex.
    destruct (Z.compare_spec X Y); cbn [CompOpp];
      destruct (Z.ltb_spec 0 (X - Y)); try reflexivity; lia.
Qed.


(** ** [<=] on numbers is a total preorder away from NaN *)

Lemma lex_spec m1 e1 m2 e2 :
  match lex m1 e1 m2 e2 with
  | Lt => e1 < e2 \/ (e1 = e2 /\ Z.pos m1 < Z.pos m2)
  | Eq => e1 = e2 /\ m1 = m2
  | Gt => e2 < e1 \/ (e1 = e2 /\ Z.pos m2 < Z.pos m1)
  end.
Proof.
  unfold lex. destruct (Z.compare_spec e1 e2); try lia.
  destruct (Pos.compare_spec m1 m2); lia.
Qed.

Lemma lex_le_trans m1 e1 m2 e2 m3 e3 :
  le_cmp (lex m1 e1 m2 e2) = true -> le_cmp (lex m2 e2 m3 e3) = true ->
  le_cmp (lex m1 e1 m3 e3) = true.
Proof.
  pose proof (lex_spec m1 e1 m2 e2). pose proof (lex_spec m2 e2 m3 e3).
  pose proof (lex_spec m1 e1 m3 e3).
  destruct (lex m1 e1 m2 e2), (lex m2 e2 m3 e3), (lex m1 e1 m3 e3);
    cbn [le_cmp]; intros; try reflexivity; try discriminate; lia.
Qed.

Lemma SFcompare_finite s1 m1 e1 s2 m2 e2 :
  SFcompare (S754_finite s1 m1 e1) (S754_finite s2 m2 e2)
  = Some match s1, s2 with
         | true, false => Lt
         | false, true => Gt
         | false, false => lex m1 e1 m2 e2
         | true, true => CompOpp (lex m1 e1 m2 e2)
         end.
Proof.
  cbn [SFcompare]. destruct s1, s2; try reflexivity.
  now rewrite lex_negative.
Qed.

Lemma SFcompare_antisym (a b : number) :
  SFcompare b a = option_map CompOpp (SFcompare a b).
Proof.
  destruct a as [sa|sa| |sa ma ea], b as [sb|sb| |sb mb eb];
    try reflexivity; try (destruct sa; reflexivity);
    try (destruct sb; reflexivity); try (destruct sa, sb; reflexivity).
  rewrite !SFcompare_finite. cbn [option_map].
  rewrite (lex_antisym ma ea mb eb).
  destruct sa, sb; cbn [CompOpp]; try reflexivity.
Qed.

Lemma SFcompare_defined (a b : number) :
  isNaN a = false -> isNaN b = false -> exists c, SFcompare a b = Some c.
Proof.
  destruct a as [sa|sa| |sa ma ea], b as [sb|sb| |sb mb eb];
    try discriminate; intros _ _; cbn [SFcompare]; eauto.
Qed.

Lemma leb_not_NaN (a b : number) :
  leb a b = true -> isNaN a = false /\ isNaN b = false.
Proof.
  destruct a as [sa|sa| |sa ma ea], b as [sb|sb| |sb mb eb];
    try discriminate; auto.
Qed.

Lemma leb_of_not_ltb (a b : number) :
  isNaN a = false -> isNaN b = false -> ltb b a = false -> leb a b = true.
Proof.
  intros Na Nb. unfold ltb, leb, SFltb, SFleb.
  rewrite (SFcompare_antisym a b).
  destruct (SFcompare_defined a b Na Nb) as [c ->]. cbn [option_map].
  destruct c; cbn [CompOpp]; congruence.
Qed.

Lemma leb_of_ltb (a b : number) : ltb a b = true -> leb a b = true.
Proof.
  unfold ltb, leb, SFltb, SFleb.
  destruct (SFcompare a b) as [[]|]; congruence.
Qed.

Lemma leb_le_cmp (a b : number) :
  leb a b = match SFcompare a b with Some c => le_cmp c | None => false end.
Proof. unfold leb, SFleb. destruct (SFcompare a b) as [[]|]; reflexivity. Qed.

Lemma leb_trans (a b c : number) :
  leb a b = true -> leb b c = true -> leb a c = true.
Proof.
  rewrite !leb_le_cmp.
  destruct a as [sa|sa| |sa ma ea], b as [sb|sb| |sb mb eb], c as [sc|sc| |sc mc ec];
    rewrite ?SFcompare_finite;
    try (cbn [SFcompare]; discriminate);
    try (cbn [SFcompare]; destruct sa, sb, sc; cbn [le_cmp]; congruence);
    try (cbn [SFcompare]; destruct sa, sb; cbn [le_cmp]; congruence);
    try (cbn [SFcompare]; destruct sa, sc; cbn [le_cmp]; congruence);
    try (cbn [SFcompare]; destruct sb, sc; cbn [le_cmp]; congruence).
  pose proof (lex_le_trans ma ea mb eb mc ec) as Hpos.
  pose proof (lex_le_trans mc ec mb eb ma ea) as Hneg.
  rewrite (lex_antisym mb eb mc ec), (lex_antisym ma ea mb eb),
    (lex_antisym ma ea mc ec) in Hneg.
  destruct sa, sb, sc; cbn [le_cmp]; try congruence; tauto.
Qed.

(** ** Signs and symmetries of the operations *)

Lemma binary_round_aux_opp (s : bool) (m e : Z) (l : location) :
  binary_round_aux prec emax (negb s) m e l
  = neg (binary_round_aux prec emax s m e l).
Proof.
  unfold binary_round_aux.
  destruct (shr_fexp prec emax m e l) as [mrs e'].
  destruct (shr_fexp prec emax _ e' loc_Exact) as [mrs2 e2].
  destruct (shr_m mrs2); try reflexivity.
  destruct (e2 <=? emax - prec); reflexivity.
Qed.

Lemma mul_opp_l (x y : number) : mul (neg x) y = neg (mul x y).
Proof.
  destruct x as [sx|sx| |sx mx ex], y as [sy|sy| |sy my ey];
    cbn [neg SFopp mul SFmul]; rewrite <- ?negb_xorb_l; try reflexivity.
  apply binary_round_aux_opp.
Qed.

Lemma mul_comm (x y : number) : mul x y = mul y x.
Proof.
  destruct x as [sx|sx| |sx mx ex], y as [sy|sy| |sy my ey];
    cbn [mul SFmul]; rewrite ?(xorb_comm sx sy); try reflexivity.
  now rewrite Pos.mul_comm, Z.add_comm.
Qed.

Lemma mul_opp_r (x y : number) : mul x (neg y) = neg (mul x y).
Proof. now rewrite mul_comm, mul_opp_l, mul_comm. Qed.

Lemma neg_involutive (x : number) : neg (neg x) = x.
Proof. destruct x; cbn [neg SFopp]; now rewrite ?negb_involutive. Qed.

Lemma mul_opp_opp (x y : number) : mul (neg x) (neg y) = mul x y.
Proof. now rewrite mul_opp_l, mul_opp_r, neg_involutive. Qed.

Lemma div_opp_l (x y : number) : div (neg x) y = neg (div x y).
Proof.
  destruct x as [sx|sx| |sx mx ex], y as [sy|sy| |sy my ey];
    cbn [neg SFopp div SFdiv]; rewrite <- ?negb_xorb_l; try reflexivity.
  destruct (SFdiv_core_binary prec emax (Z.pos mx) ex (Z.pos my) ey) as [[mz ez] lz].
  apply binary_round_aux_opp.
Qed.

Lemma binary_normalize_opp (m e : Z) :
  m <> 0 ->
  binary_normalize prec emax (- m) e false = neg (binary_normalize prec emax m e false).
Proof.
  intros Hm. destruct m as [|p|p]; [congruence| |].
  - change (- Z.pos p) with (Z.neg p). cbn [binary_normalize].
    unfold binary_round. destruct (shl_align p e _) as [mz ez].
    apply (binary_round_aux_opp false).
  - change (- Z.neg p) with (Z.pos p). cbn [binary_normalize].
    unfold binary_round. destruct (shl_align p e _) as [mz ez].
    rewrite (binary_round_aux_opp false). now rewrite neg_involutive.
Qed.

(** Swapping the operands of a subtraction negates the difference, unless
    both differences are the same zero or NaN. *)
Lemma sub_swap (a b : number) : sub b a = neg (sub a b) \/ sub b a = sub a b.
Proof.
  destruct a as [sa|sa| |sa ma ea], b as [sb|sb| |sb mb eb];
    cbn [sub SFsub neg SFopp]; auto;
    try (destruct sa, sb; cbn [negb]; auto; fail);
    try (rewrite negb_involutive; auto; fail).
  rewrite (Z.min_comm eb ea).
  set (X := cond_Zopp sa (Z.pos (fst (shl_align ma ea (Z.min ea eb))))).
  set (Y := cond_Zopp sb (Z.pos (fst (shl_align mb eb (Z.min ea eb))))).
  destruct (Z.eq_dec (X - Y) 0) as [E|E].
  - right. replace (Y - X) with 0 by lia. now rewrite E.
  - left. replace (Y - X) with (- (X - Y)) by lia.
    now apply binary_normalize_opp.
Qed.

Lemma sub_self (x : number) : isFinite x = true -> sub x x = pzero.
Proof.
  destruct x as [[]|s| |s m e]; try discriminate; try reflexivity.
  intros _. cbn [sub SFsub]. now rewrite Z.sub_diag.
Qed.

Lemma mul_self_sign (x : number) :
  isFinite (mul x x) = true -> mul (mul x x) pzero = pzero.
Proof.
  destruct x as [s|s| |s m e]; try discriminate.
  - intros _. cbn [mul SFmul]. now rewrite xorb_nilpotent.
  - cbn [mul SFmul]. rewrite xorb_nilpotent.
    unfold binary_round_aux.
    destruct (shr_fexp prec emax (Z.pos (m * m)) (e + e) loc_Exact) as [mrs e'].
    destruct (shr_fexp prec emax _ e' loc_Exact) as [mrs2 e2].
    destruct (shr_m mrs2); try discriminate; try reflexivity.
    destruct (e2 <=? emax - prec); try discriminate; reflexivity.
Qed.

End Binary64.

(* ===================================================================== *)
(** * Facts on arrays *)
(* ===================================================================== *)

Section SortFacts.
Context {A : Type} (comparefn : A -> A -> number).
Variable P : A -> Prop.
Variable le : A -> A -> Prop.

Hypothesis stays_before :
  forall x y, P x -> P y -> sortsAfter comparefn x y = false -> le x y.
Hypothesis goes_after :
  forall x y, P x -> P y -> sortsAfter comparefn x y = true -> le y x.
Hypothesis le_trans :
  forall x y z, le x y -> le y z -> le x z.

Lemma insertSorted_perm x l : Permutation (x :: l) (insertSorted comparefn x l).
Proof.
  induction l as [|y l IH]; cbn [insertSorted]; [reflexivity|].
  destruct (sortsAfter comparefn x y); [|reflexivity].
  rewrite perm_swap. now apply perm_skip.
Qed.

Lemma Array_sort_perm l : Permutation l (Array_sort comparefn l).
Proof.
  induction l as [|x l IH]; cbn [Array_sort]; [reflexivity|].
  rewrite <- insertSorted_perm. now apply perm_skip.
Qed.

Lemma insertSorted_sorted x l :
  P x -> List.Forall P l -> StronglySorted le l ->
  StronglySorted le (insertSorted comparefn x l).
Proof.
  intros Px. induction l as [|y l IH]; intros HP Hs; cbn [insertSorted].
  - constructor; constructor.
  - apply List.Forall_cons_iff in HP as [Py HP].
    apply StronglySorted_inv in Hs as [Hs Hy].
    destruct (sortsAfter comparefn x y) eqn:Hxy.
    + constructor; [now apply IH|].
      eapply Permutation_Forall; [apply insertSorted_perm|].
      constructor; [now apply goes_after | assumption].
    + constructor; [now constructor|].
      assert (Hle : le x y) by now apply stays_before.
      constructor; [assumption|].
      eapply List.Forall_impl; [|exact Hy]. intros z Hz. now apply le_trans with y.
Qed.

Lemma Array_sort_sorted l :
  List.Forall P l -> StronglySorted le (Array_sort comparefn l).
Proof.
  induction l as [|x l IH]; intros HP; cbn [Array_sort]; [constructor|].
  apply List.Forall_cons_iff in HP as [Px HP].
  apply insertSorted_sorted; [assumption| |now apply IH].
  eapply Permutation_Forall; [apply Array_sort_perm|assumption].
Qed.

End SortFacts.

Section SliceFacts.
Context {A : Type}.

Lemma Array_slice0_firstn (l : list A) (limit : number) :
  exists k, Array_slice0 l limit = firstn k l.
Proof.
  destruct limit as [s|[]| |s m e]; cbn [Array_slice0]; eauto.
  - exists 0%nat. reflexivity.
  - exists (length l). symmetry. apply firstn_all.
  - exists 0%nat. reflexivity.
Qed.

Lemma Forall_firstn (Q : A -> Prop) (k : nat) (l : list A) :
  List.Forall Q l -> List.Forall Q (firstn k l).
Proof.
  intros H. revert k. induction H as [|x l Hx Hl IH]; intros [|k];
    cbn [firstn]; constructor; auto.
Qed.

Lemma StronglySorted_firstn (le : A -> A -> Prop) (k : nat) (l : list A) :
  StronglySorted le l -> StronglySorted le (firstn k l).
Proof.
  intros H. revert k. induction H as [|x l Hl IH Hx]; intros [|k];
    cbn [firstn]; constructor; auto.
  now apply Forall_firstn.
Qed.

End SliceFacts.
(* ===================================================================== *)
(** * Examples *)
(* ===================================================================== *)

Example parseFloat_tenth : parseFloat "0.1" = S754_finite false 7205759403792794 (-56).
Proof. reflexivity. Qed.

Example parseFloat_prefix : parseFloat "  12.5e2xyz" = ofZ 1250.
Proof. reflexivity. Qed.

Example parseFloat_text : parseFloat "abc" = NaN /\ parseFloat "" = NaN /\ parseFloat "." = NaN.
Proof. repeat split. Qed.

Example parseFloat_overflow :
  parseFloat "1e999" = Infinity /\ parseFloat "-Infinity" = neg Infinity
  /\ parseFloat "1.7976931348623157e308" = S754_finite false 9007199254740991 971.
Proof. repeat split. Qed.

Example parseFloat_underflow :
  parseFloat "5e-324" = S754_finite false 1 (-1074) /\ parseFloat "2e-324" = pzero.
Proof. repeat split. Qed.

Example parseInt_prefix :
  parseInt "12abc" = ofZ 12 /\ parseInt "-5" = neg (ofZ 5) /\ parseInt "" = NaN
  /\ parseInt "4.9" = ofZ 4.
Proof. repeat split. Qed.

Example parseInt_rounds : parseInt "9007199254740993" = ofZ 9007199254740992.
Proof. reflexivity. Qed.

Example limit_examples :
  limitOf (withLimit (Some "abc") noParameters) = ofZ 200
  /\ limitOf (withLimit (Some "0") noParameters) = ofZ 200
  /\ limitOf (withLimit (Some "-3") noParameters) = ofZ 200
  /\ limitOf (withLimit (Some "7") noParameters) = ofZ 7
  /\ limitOf (withLimit (Some "Unlimited") noParameters) = ofZ 200.
Proof. repeat split. Qed.

(** Three stores around (40.7, -74.0): at the origin, 11 m and 1112 m away;
    within 1000 m the two nearest are returned, nearest first. *)
Example nearest_first :
  match get_stores smallAngle exampleStores
          (withRadius (Some "1000")
             (withOrigin (Some "40.7") (Some "-74.0") noParameters)) with
  | Json l => List.map (fun a => name (store a)) l
  | _ => []
  end = ["Here"; "Near"].
Proof. reflexivity. Qed.

Example loader_drops_row :
  List.map name exampleStores = ["Far"; "Near"; "Here"].
Proof. reflexivity. Qed.

(* ===================================================================== *)
(** * Properties of the record normalizer *)
(* ===================================================================== *)

Module StrFacts.
Import Str.

Lemma length_repeat c n : String.length (repeat c n) = n.
Proof. induction n; simpl; [reflexivity | now f_equal]. Qed.

Lemma length_append (s t : string) :
  String.length (s ++ t) = (String.length s + String.length t)%nat.
Proof. induction s; simpl; [reflexivity | now f_equal]. Qed.

Lemma length_take n s : String.length (take n s) = Nat.min n (String.length s).
Proof.
  revert s; induction n; intros [|c s]; simpl; auto.
Qed.

Lemma length_padStart n c s :
  String.length (padStart n c s) = Nat.max n (String.length s).
Proof.
  unfold padStart. rewrite length_append, length_repeat. lia.
Qed.

Lemma filter_allDigits s : allDigits s = true -> filter isDigit s = s.
Proof.
  induction s as [|c s IH]; simpl; auto.
  intros [Hc Hs]%andb_true_iff. rewrite Hc, IH; auto.
Qed.

Lemma allDigits_filter s : allDigits (filter isDigit s) = true.
Proof.
  induction s as [|c s IH]; simpl; auto.
  destruct (isDigit c) eqn:Hc; simpl; auto. rewrite Hc; auto.
Qed.

Lemma allDigits_take n s : allDigits s = true -> allDigits (take n s) = true.
Proof.
  revert s; induction n; intros [|c s]; simpl; auto.
  intros [Hc Hs]%andb_true_iff. rewrite Hc; simpl; auto.
Qed.

Lemma allDigits_append s t :
  allDigits s = true -> allDigits t = true -> allDigits (s ++ t) = true.
Proof.
  induction s as [|c s IH]; simpl; auto.
  intros [Hc Hs]%andb_true_iff Ht. rewrite Hc; simpl; auto.
Qed.

Lemma allDigits_repeat0 n : allDigits (repeat "0" n) = true.
Proof. induction n; simpl; auto. Qed.

Lemma take_all n s : (String.length s <= n)%nat -> take n s = s.
Proof.
  revert s; induction n; intros [|c s]; simpl; auto; try lia.
  intros Hl. f_equal. apply IHn. lia.
Qed.

Lemma padStart_full n c s : (n <= String.length s)%nat -> padStart n c s = s.
Proof.
  intros Hl. unfold padStart.
  replace (n - String.length s)%nat with 0%nat by lia. reflexivity.
Qed.

End StrFacts.

Section ZipNormalization.
Import Str StrFacts.

(** What [toZip5] does on a string, step by step. *)
Lemma toZip5_string s :
  toZip5 (Some s) = padStart 5 "0" (take 5 (filter isDigit s)).
Proof. reflexivity. Qed.

Lemma toZip5_length s : String.length (toZip5 (Some s)) = 5%nat.
Proof.
  rewrite toZip5_string, length_padStart, length_take. lia.
Qed.

Lemma toZip5_digits s : allDigits (toZip5 (Some s)) = true.
Proof.
  rewrite toZip5_string. unfold padStart.
  apply allDigits_append; [apply allDigits_repeat0|].
  apply allDigits_take, allDigits_filter.
Qed.

Lemma toZip5_nonempty s : toZip5 (Some s) <> "".
Proof.
  intros E. pose proof (toZip5_length s) as H. rewrite E in H. discriminate.
Qed.

Lemma toZip5_fixpoint s :
  String.length s = 5%nat -> allDigits s = true -> toZip5 (Some s) = s.
Proof.
  intros Hl Hd. rewrite toZip5_string, filter_allDigits by assumption.
  rewrite take_all by lia. apply padStart_full. lia.
Qed.

Lemma toZip5_idempotent s : toZip5 (Some (toZip5 (Some s))) = toZip5 (Some s).
Proof. apply toZip5_fixpoint; [apply toZip5_length | apply toZip5_digits]. Qed.

Lemma toZip5_123 : toZip5 (Some "123") = "00123".
Proof. reflexivity. Qed.

Lemma toZip5_undefined : toZip5 None = "".
Proof. reflexivity. Qed.

(** C5.  The empty string is not normalized to the empty string: it has no
    digit and is padded to five zeros, like every string without a digit.
    Only [undefined] gives the empty string, so the guards [if (!zip)] of
    the callers never fire on a string. *)
Theorem toZip5_empty_string :
  toZip5 (Some "") = "00000" /\
  toZip5 (Some "n/a") = "00000" /\
  forall s : string, String.length (toZip5 (Some s)) = 5%nat.
Proof.
  split; [reflexivity|]. split; [reflexivity|]. apply toZip5_length.
Qed.

End ZipNormalization.

Section Loader.

Lemma onData_kept results row :
  finiteCoords row = true -> onData results row = (results ++ [normalized row])%list.
Proof.
  unfold finiteCoords, onData, normalized.
  intros [H1 H2]%andb_true_iff. rewrite H1, H2. reflexivity.
Qed.

Lemma onData_dropped results row :
  finiteCoords row = false -> onData results row = results.
Proof.
  unfold finiteCoords, onData.
  destruct (isFinite (rowLatitude row)), (isFinite (rowLongitude row));
    simpl; intros; congruence.
Qed.

Lemma fold_onData rows : forall acc,
  fold_left onData rows acc
  = (acc ++ List.map normalized (List.filter finiteCoords rows))%list.
Proof.
  induction rows as [|row rows IH]; intros acc; simpl.
  - now rewrite app_nil_r.
  - destruct (finiteCoords row) eqn:Hf.
    + rewrite onData_kept, IH by assumption. simpl.
      now rewrite <- app_assoc.
    + rewrite onData_dropped, IH by assumption. reflexivity.
Qed.

Lemma loadStoresFromCsv_filter rows :
  loadStoresFromCsv rows = List.map normalized (List.filter finiteCoords rows).
Proof. unfold loadStoresFromCsv. now rewrite fold_onData. Qed.

Lemma finiteCoords_other_column (row : Row) (k : string) :
  k <> "Latitude" -> k <> "Longitude" ->
  finiteCoords (delete k row) = finiteCoords row.
Proof.
  intros H1 H2. unfold finiteCoords, rowLatitude, rowLongitude.
  now rewrite !lookup_delete_ne by assumption.
Qed.

(** C8.  Every record that [loadStoresFromCsv] stores has a finite latitude
    and a finite longitude; the stored records are, in order, the records of
    the rows whose two coordinates parse to finite numbers, so a row is
    dropped exactly when one of them does not; and whether a row is dropped
    does not depend on any other column: removing it changes nothing. *)
Theorem loadStoresFromCsv_finite (rows : list Row) :
  Forall (fun s => isFinite (latitude s) = true /\ isFinite (longitude s) = true)
         (loadStoresFromCsv rows)
  /\ loadStoresFromCsv rows = List.map normalized (List.filter finiteCoords rows)
  /\ (forall row, In row rows ->
        (In (normalized row) (loadStoresFromCsv rows) <->
         isFinite (rowLatitude row) = true /\ isFinite (rowLongitude row) = true))
  /\ (forall (row : Row) (k : string), k <> "Latitude" -> k <> "Longitude" ->
        finiteCoords (delete k row) = finiteCoords row).
Proof.
  rewrite loadStoresFromCsv_filter.
  split; [|split; [reflexivity|split]].
  - apply List.Forall_forall. intros s Hs.
    apply in_map_iff in Hs as (row & <- & Hrow).
    apply filter_In in Hrow as [_ Hf].
    unfold finiteCoords in Hf. apply andb_true_iff in Hf. exact Hf.
  - intros row Hin. split.
    + intros Hs. apply in_map_iff in Hs as (row' & Heq & Hrow').
      apply filter_In in Hrow' as [_ Hf].
      unfold finiteCoords in Hf. apply andb_true_iff in Hf as [Hla Hlo].
      unfold normalized, storeOf in Heq.
      injection Heq as _ _ _ _ _ _ _ _ _ _ _ _ _ Hlat Hlon.
      rewrite <- Hlat, <- Hlon. auto.
    + intros [Hla Hlo]. apply in_map_iff. exists row. split; [reflexivity|].
      apply filter_In. split; [assumption|].
      unfold finiteCoords. now rewrite Hla, Hlo.
  - apply finiteCoords_other_column.
Qed.

End Loader.

Lemma loadStoresFromCsv_finite_witness :
  In (normalized (exampleRow "Far" "40.71" "-74.0" "10007"))
     (loadStoresFromCsv exampleRows)
  <-> isFinite (rowLatitude (exampleRow "Far" "40.71" "-74.0" "10007")) = true
      /\ isFinite (rowLongitude (exampleRow "Far" "40.71" "-74.0" "10007")) = true.
Proof.
  apply (proj1 (proj2 (proj2 (loadStoresFromCsv_finite exampleRows)))).
  left. reflexivity.
Defined.

(* ===================================================================== *)
(** * Properties of the parameters of a store query *)
(* ===================================================================== *)

Section QueryParameters.
Variable M : MathLib.

Lemma orElse_supplied s d : s <> "" -> orElse (Some s) d = s.
Proof.
  intros Hs. unfold orElse. destruct (String.eqb_spec s ""); congruence.
Qed.

Lemma get_stores_accepts stores q :
  isFinite (latOf q) = true -> isFinite (lngOf q) = true ->
  get_stores M stores q
  = Json (queryStores M stores (latOf q) (lngOf q) (radiusMetersOf q)
            (healthyOnlyOf q) (storeTypeOf q) (limitOf q)).
Proof. intros H1 H2. unfold get_stores. now rewrite H1, H2. Qed.

Lemma get_stores_rejects stores q :
  isFinite (latOf q) = false \/ isFinite (lngOf q) = false ->
  get_stores M stores q = Status 400 "lat and lng are required numbers".
Proof.
  intros H. unfold get_stores.
  destruct H as [-> | ->]; simpl; [reflexivity|].
  now rewrite orb_true_r.
Qed.

(** A supplied, non-empty coordinate that does not parse to a finite number
    is rejected. *)
Lemma unparsable_origin_rejected stores q s :
  query_lat q = Some s \/ query_lng q = Some s ->
  s <> "" -> isFinite (parseFloat s) = false ->
  get_stores M stores q = Status 400 "lat and lng are required numbers".
Proof.
  intros Hq Hs Hn. apply get_stores_rejects.
  unfold latOf, lngOf. destruct Hq as [-> | ->]; rewrite orElse_supplied by assumption;
    auto.
Qed.

(** C1.  An origin that is supplied as the empty string does not parse
    ([parseFloat("")] is NaN), and the request is not rejected: both
    coordinates are replaced by 0 and the stores around (0, 0) within the
    default radius are returned.  The same holds when the parameters are not
    supplied at all. *)
Theorem empty_origin_not_rejected (stores : list StoreRecord) :
  isFinite (parseFloat "") = false /\
  get_stores M stores (withOrigin (Some "") (Some "") noParameters)
  = Json (queryStores M stores pzero pzero (ofZ 1609) "any" "" (ofZ 200)) /\
  get_stores M stores noParameters
  = Json (queryStores M stores pzero pzero (ofZ 1609) "any" "" (ofZ 200)).
Proof. repeat split. Qed.

(** C10.  When [lat] and [lng] are absent, each defaults to the string
    ['0'], which parses to the finite number 0: the query is not rejected
    and runs with the origin (0, 0).  A rejection happens only when a
    supplied, non-empty coordinate parses to a number that is not
    finite. *)
Theorem absent_origin_defaults (stores : list StoreRecord) (q : Query) :
  (query_lat q = None -> query_lng q = None ->
     orElse (query_lat q) "0" = "0" /\ orElse (query_lng q) "0" = "0" /\
     parseFloat "0" = pzero /\ isFinite pzero = true /\
     get_stores M stores q
     = Json (queryStores M stores pzero pzero (radiusMetersOf q)
               (healthyOnlyOf q) (storeTypeOf q) (limitOf q)))
  /\ (forall code error, get_stores M stores q = Status code error ->
        exists s, (query_lat q = Some s \/ query_lng q = Some s) /\
                  s <> "" /\ isFinite (parseFloat s) = false).
Proof.
  split.
  - intros Hlat Hlng. unfold get_stores, latOf, lngOf. rewrite Hlat, Hlng.
    repeat split.
  - intros code error. unfold get_stores.
    destruct (isFinite (latOf q)) eqn:Hlat; simpl.
    + destruct (isFinite (lngOf q)) eqn:Hlng; simpl; [discriminate|].
      intros _. unfold lngOf, orElse in Hlng.
      destruct (query_lng q) as [s|]; [|discriminate].
      destruct (String.eqb_spec s ""); [discriminate|].
      exists s. auto.
    + intros _. unfold latOf, orElse in Hlat.
      destruct (query_lat q) as [s|]; [|discriminate].
      destruct (String.eqb_spec s ""); [discriminate|].
      exists s. auto.
Qed.

(** ** The radius *)

Lemma leb_NaN_r x : leb x NaN = false.
Proof. destruct x; reflexivity. Qed.

Lemma Array_slice0_nil {A} (limit : number) : Array_slice0 (@nil A) limit = [].
Proof.
  unfold Array_slice0. destruct limit as [|[]| |]; try reflexivity;
    apply firstn_nil.
Qed.

Lemma filter_none {A} (p : A -> bool) l :
  (forall x, p x = false) -> List.filter p l = [].
Proof.
  intros Hp. induction l as [|x l IH]; simpl; [reflexivity|].
  now rewrite Hp.
Qed.

Lemma queryStores_NaN_radius stores lat lng healthyOnly wantedType limit :
  queryStores M stores lat lng NaN healthyOnly wantedType limit = [].
Proof.
  unfold queryStores.
  rewrite (filter_none (fun s => leb (distance_m s) NaN))
    by (intros; apply leb_NaN_r).
  simpl. destruct (isFinite limit); [apply Array_slice0_nil | reflexivity].
Qed.

(** The radius of a query: the default 1609 when the parameter is not
    supplied or is the empty string, and what [parseFloat] reads in any
    other value; with the radius NaN the answer has no store. *)
Lemma radius_default (stores : list StoreRecord) (q : Query) :
  (query_radius q = None \/ query_radius q = Some "" ->
     radiusMetersOf q = ofZ 1609)
  /\ (forall s, query_radius q = Some s -> s <> "" ->
        radiusMetersOf q = parseFloat s)
  /\ (radiusMetersOf q = NaN ->
      isFinite (latOf q) = true -> isFinite (lngOf q) = true ->
      get_stores M stores q = Json []).
Proof.
  split; [|split].
  - unfold radiusMetersOf. intros [-> | ->]; reflexivity.
  - intros s Hs Hne. unfold radiusMetersOf. rewrite Hs.
    now rewrite orElse_supplied.
  - intros Hr Hlat Hlng. rewrite get_stores_accepts by assumption.
    now rewrite Hr, queryStores_NaN_radius.
Qed.

(** ** A store at the origin of the query *)

Lemma distance_at_origin :
  Conforming M -> distanceMeters M pzero pzero pzero pzero = pzero.
Proof.
  intros [Hsin Hcos Hsqrt0 Hsqrt1 Hatan].
  unfold distanceMeters, haversineMeters, toRad. cbv beta zeta.
  cbn [plus minus times over lit pi sine cosine root arctan2 binary64].
  change (Num.div (Num.mul (Num.sub pzero pzero) Math_PI) (ofZ 180)) with pzero.
  change (Num.div (Num.mul pzero Math_PI) (ofZ 180)) with pzero.
  change (Num.div pzero (ofZ 2)) with pzero.
  rewrite Hsin, Hcos.
  change (Num.add (Num.mul pzero pzero)
            (Num.mul (Num.mul (Num.mul (ofZ 1) (ofZ 1)) pzero) pzero)) with pzero.
  change (Num.sub (ofZ 1) pzero) with (ofZ 1).
  rewrite Hsqrt0, Hsqrt1, Hatan. reflexivity.
Qed.

(** A latitude of 5e-324 degrees is 0 radians. *)
Lemma distance_underflow :
  Conforming M -> distanceMeters M pzero pzero tiny pzero = pzero.
Proof.
  intros [Hsin Hcos Hsqrt0 Hsqrt1 Hatan].
  unfold distanceMeters, haversineMeters, toRad. cbv beta zeta.
  cbn [plus minus times over lit pi sine cosine root arctan2 binary64].
  change (Num.div (Num.mul (Num.sub tiny pzero) Math_PI) (ofZ 180)) with pzero.
  change (Num.div (Num.mul (Num.sub pzero pzero) Math_PI) (ofZ 180)) with pzero.
  change (Num.div (Num.mul pzero Math_PI) (ofZ 180)) with pzero.
  change (Num.div (Num.mul tiny Math_PI) (ofZ 180)) with pzero.
  change (Num.div pzero (ofZ 2)) with pzero.
  rewrite Hsin, Hcos.
  change (Num.add (Num.mul pzero pzero)
            (Num.mul (Num.mul (Num.mul (ofZ 1) (ofZ 1)) pzero) pzero)) with pzero.
  change (Num.sub (ofZ 1) pzero) with (ofZ 1).
  rewrite Hsqrt0, Hsqrt1, Hatan. reflexivity.
Qed.

Lemma queryStores_unfiltered stores lat lng radiusMeters limit :
  queryStores M stores lat lng radiusMeters "any" "" limit
  = let withDistance :=
      Array_sort (fun a b => Num.sub (distance_m a) (distance_m b))
        (List.filter (fun s => leb (distance_m s) radiusMeters)
          (List.map (fun s => {| store := s;
                                 distance_m := distanceMeters M lat lng
                                                 (latitude s) (longitude s) |})
                    stores)) in
    if isFinite limit then Array_slice0 withDistance limit else withDistance.
Proof. reflexivity. Qed.

(** With any conforming [Math] library, the request without parameters
    finds the store at (0, 0), at distance 0. *)
Lemma default_radius_finds_origin :
  Conforming M ->
  get_stores M [storeAtOrigin] noParameters
  = Json [ {| store := storeAtOrigin; distance_m := pzero |} ].
Proof.
  intros HM. rewrite get_stores_accepts by reflexivity.
  change (latOf noParameters) with pzero.
  change (lngOf noParameters) with pzero.
  change (radiusMetersOf noParameters) with (ofZ 1609).
  change (healthyOnlyOf noParameters) with "any".
  change (storeTypeOf noParameters) with "".
  change (limitOf noParameters) with (ofZ 200).
  rewrite queryStores_unfiltered. cbv zeta.
  cbn [List.map latitude longitude storeAtOrigin].
  rewrite distance_at_origin by assumption.
  reflexivity.
Qed.

(** C7.  A radius that is supplied and does not parse is not replaced by
    the default 1609: the radius of the query is NaN, every comparison of a
    distance with it fails, and the request, whose origin is accepted, is
    answered with no store whatever the stores are.  It is not answered as
    the request without radius: the store at the origin is in the answer
    to that one. *)
Theorem unparsable_radius_not_defaulted (stores : list StoreRecord) (q : Query)
    (s : string) :
  s <> "" -> isNaN (parseFloat s) = true ->
  radiusMetersOf (withRadius (Some s) q) = NaN
  /\ radiusMetersOf (withRadius None q) = ofZ 1609
  /\ (isFinite (latOf q) = true -> isFinite (lngOf q) = true ->
      get_stores M stores (withRadius (Some s) q) = Json [])
  /\ (Conforming M ->
      get_stores M [storeAtOrigin] (withRadius (Some s) noParameters) = Json []
      /\ get_stores M [storeAtOrigin] (withRadius None noParameters)
         = Json [ {| store := storeAtOrigin; distance_m := pzero |} ]).
Proof.
  intros Hs Hnan.
  assert (Hr : forall q0, radiusMetersOf (withRadius (Some s) q0) = NaN).
  { intros q0. unfold radiusMetersOf. cbn [withRadius query_radius].
    rewrite orElse_supplied by assumption.
    destruct (parseFloat s); try discriminate. reflexivity. }
  assert (Hempty : forall l q0,
            isFinite (latOf q0) = true -> isFinite (lngOf q0) = true ->
            get_stores M l (withRadius (Some s) q0) = Json []).
  { intros l q0 Hlat Hlng. rewrite get_stores_accepts by assumption.
    now rewrite Hr, queryStores_NaN_radius. }
  split; [apply Hr|]. split; [reflexivity|]. split; [apply Hempty|].
  intros HM. split; [now apply Hempty|].
  now apply default_radius_finds_origin.
Qed.

(** ** The limit *)

Lemma limitOf_cases q :
  let n := parseInt (rawLimitOf q) in
  (limitOf q = ofZ 200 /\
     (Str.toLowerCase (rawLimitOf q) = "unlimited" \/
      isFinite n = false \/ leb n pzero = true))
  \/ (limitOf q = n /\ Str.toLowerCase (rawLimitOf q) <> "unlimited" /\
      isFinite n = true /\ leb n pzero = false).
Proof.
  unfold limitOf.
  destruct (String.eqb_spec (Str.toLowerCase (rawLimitOf q)) "unlimited") as [E|E].
  - left. simpl. auto.
  - destruct (isFinite (parseInt (rawLimitOf q))) eqn:Hf; simpl.
    + destruct (leb (parseInt (rawLimitOf q)) pzero) eqn:Hl; simpl;
        [left | right]; auto.
    + left. auto.
Qed.

Lemma limitOf_positive q :
  isFinite (limitOf q) = true /\ leb (limitOf q) pzero = false.
Proof.
  destruct (limitOf_cases q) as [[-> _] | (-> & _ & Hf & Hl)]; auto.
Qed.

Lemma truncate_nonneg x : leb x pzero = false -> 0 <= truncate x.
Proof.
  destruct x as [s|s| |s m e]; simpl; try lia.
  destruct s; [discriminate|]. intros _.
  destruct (Z.leb_spec 0 e).
  - apply Z.mul_nonneg_nonneg; [lia|]. apply Z.pow_nonneg; lia.
  - apply Z.div_pos; [lia|]. apply Z.pow_pos_nonneg; lia.
Qed.

Lemma Array_slice0_length {A} (l : list A) (limit : number) :
  isFinite limit = true -> 0 <= truncate limit ->
  Z.of_nat (length (Array_slice0 l limit)) <= truncate limit.
Proof.
  intros Hf Hk.
  assert (Hgen : Z.of_nat (length (firstn (Z.to_nat
            (if truncate limit <? 0
             then Z.max (Z.of_nat (length l) + truncate limit) 0
             else Z.min (truncate limit) (Z.of_nat (length l)))) l))
          <= truncate limit).
  { destruct (Z.ltb_spec (truncate limit) 0); [lia|].
    rewrite length_firstn. lia. }
  destruct limit as [s|s| |s m e]; try discriminate; exact Hgen.
Qed.

(** The sentinel ['unlimited'] does not survive line 217: [Infinity] is not
    finite, so the limit is reset to 200 like any invalid value. *)
Lemma unlimited_is_capped q :
  Str.toLowerCase (rawLimitOf q) = "unlimited" -> limitOf q = ofZ 200.
Proof.
  intros E. unfold limitOf. rewrite E. reflexivity.
Qed.

(** C4.  A query that is answered never returns more elements than its
    limit.  When the limit parameter does not parse to a finite positive
    number (unparsable text, zero, a negative number) the limit is the
    default 200, not the absence of a limit; when it does, and is not the
    sentinel, the limit is the number it parses to. *)
Theorem result_capped (stores : list StoreRecord) (q : Query)
    (l : list StoreWithDistance) :
  get_stores M stores q = Json l ->
  let n := parseInt (rawLimitOf q) in
  Z.of_nat (length l) <= truncate (limitOf q)
  /\ (isFinite n = false \/ leb n pzero = true ->
        limitOf q = ofZ 200 /\ Z.of_nat (length l) <= 200)
  /\ (Str.toLowerCase (rawLimitOf q) <> "unlimited" ->
      isFinite n = true -> leb n pzero = false ->
        limitOf q = n /\ Z.of_nat (length l) <= truncate n).
Proof.
  intros Hl n.
  assert (Hlen : Z.of_nat (length l) <= truncate (limitOf q)).
  { unfold get_stores in Hl.
    destruct (negb (isFinite (latOf q)) || negb (isFinite (lngOf q)));
      [discriminate|].
    injection Hl as <-. unfold queryStores.
    destruct (limitOf_positive q) as [Hf Hp]. rewrite Hf.
    apply Array_slice0_length; [assumption|]. now apply truncate_nonneg. }
  split; [exact Hlen|]. split.
  - intros Hbad.
    assert (E : limitOf q = ofZ 200).
    { destruct (limitOf_cases q) as [[E _] | (_ & _ & Hf & Hp)]; [exact E|].
      fold n in Hf, Hp. destruct Hbad; congruence. }
    split; [exact E|]. rewrite E in Hlen. exact Hlen.
  - intros Hs Hf Hp.
    assert (E : limitOf q = n).
    { destruct (limitOf_cases q) as [[_ [E' | [E' | E']]] | [E _]];
        try exact E; fold n in E'; congruence. }
    split; [exact E|]. rewrite E in Hlen. exact Hlen.
Qed.

End QueryParameters.

Lemma smallAngle_conforming : Conforming smallAngle.
Proof. constructor; reflexivity. Qed.

(** Radii as the handler reads them: a radius that does not parse is NaN,
    and a zero or negative radius is kept as it is.  The store at (0, 0) is
    found by the request without radius and not by the request with the
    radius [abc]. *)
Example radius_examples :
  radiusMetersOf (withRadius (Some "abc") noParameters) = NaN
  /\ radiusMetersOf (withRadius (Some "0") noParameters) = pzero
  /\ radiusMetersOf (withRadius (Some "-5") noParameters) = neg (ofZ 5)
  /\ radiusMetersOf noParameters = ofZ 1609
  /\ get_stores smallAngle [storeAtOrigin] (withRadius (Some "abc") noParameters)
     = Json []
  /\ get_stores smallAngle [storeAtOrigin] noParameters
     = Json [ {| store := storeAtOrigin; distance_m := pzero |} ].
Proof.
  split; [reflexivity|]. split; [reflexivity|]. split; [reflexivity|].
  split; [reflexivity|]. split; [reflexivity|].
  apply default_radius_finds_origin, smallAngle_conforming.
Qed.

Lemma unparsable_radius_not_defaulted_witness :
  radiusMetersOf (withRadius (Some "abc") exampleQuery) = NaN
  /\ radiusMetersOf (withRadius None exampleQuery) = ofZ 1609
  /\ get_stores smallAngle exampleStores (withRadius (Some "abc") exampleQuery) = Json []
  /\ get_stores smallAngle [storeAtOrigin] (withRadius (Some "abc") noParameters) = Json []
  /\ get_stores smallAngle [storeAtOrigin] (withRadius None noParameters)
     = Json [ {| store := storeAtOrigin; distance_m := pzero |} ].
Proof.
  destruct (unparsable_radius_not_defaulted smallAngle exampleStores exampleQuery "abc")
    as (H1 & H2 & H3 & H4); [discriminate | reflexivity |].
  split; [exact H1|]. split; [exact H2|]. split; [apply H3; reflexivity|].
  apply H4, smallAngle_conforming.
Defined.

Lemma absent_origin_defaults_witness :
  get_stores smallAngle [storeAtOrigin] noParameters
  = Json (queryStores smallAngle [storeAtOrigin] pzero pzero (ofZ 1609) "any" "" (ofZ 200)).
Proof.
  apply (proj1 (absent_origin_defaults smallAngle [storeAtOrigin] noParameters));
    reflexivity.
Defined.

Lemma result_capped_witness :
  Z.of_nat (length (queryStores smallAngle exampleStores
                      (latOf exampleQuery) (lngOf exampleQuery)
                      (radiusMetersOf exampleQuery) (healthyOnlyOf exampleQuery)
                      (storeTypeOf exampleQuery) (limitOf exampleQuery))) <= 2.
Proof.
  apply (proj1 (result_capped smallAngle exampleStores exampleQuery _ eq_refl)).
Defined.

(* ===================================================================== *)
(** * Properties of the ZIP resolver *)
(* ===================================================================== *)

Section ZipResolver.

(** C3.  When the normalized ZIP of the request is a key of
    [zipCentroids], the stored coordinate is the response, the state is
    unchanged (no cache write, no load of the regional table) and the
    request has no effect on the outside: no call of [fetch]. *)
Theorem centroid_hit_is_local (w : World) (st : ServerState) (param : string)
    (c : Coordinate.t) :
  zipCentroids st !! toZip5 (Some param) = Some c ->
  get_zip w st (Some param) = (Json c, st, []).
Proof.
  intros Hc. unfold get_zip.
  destruct (String.eqb_spec (toZip5 (Some param)) "") as [E|_].
  - now apply toZip5_nonempty in E.
  - now rewrite Hc.
Qed.

Lemma regionalTable_cases w st :
  (regionalTable w st = ProcessEnds
   <-> nycZipCache st = None /\ nycZipCsv w = StreamError)
  /\ (regionalTable w st = Settled Rejected
      <-> nycZipCache st = None /\ nycZipCsv w = ParserError).
Proof.
  unfold regionalTable, loadNYCZips.
  destruct (nycZipCache st) as [t|]; cbn [fst].
  - split; split; try discriminate; intros [? _]; discriminate.
  - destruct (nycZipCsv w); cbn [fst];
      split; split; try discriminate; try (intros [_ ?]; discriminate); auto.
Qed.

Lemma get_zip_cases w st param :
  let zip := toZip5 param in
  let r := responseOf w st param in
  (zip = "" /\ r = InvalidInput)
  \/ (zip <> "" /\ exists c, zipCentroids st !! zip = Some c /\ r = Json c)
  \/ (zip <> "" /\ zipCentroids st !! zip = None /\
      regionalTable w st = ProcessEnds /\ r = NoResponse)
  \/ (zip <> "" /\ zipCentroids st !! zip = None /\
      regionalTable w st = Settled Rejected /\ r = LookupFailed)
  \/ (zip <> "" /\ zipCentroids st !! zip = None /\
      exists t, regionalTable w st = Settled (Resolved t) /\
        ((exists e, t !! zip = Some e /\ nyc_borough e = None /\ r = LookupFailed)
         \/ (exists e b c, t !! zip = Some e /\ nyc_borough e = Some b /\
               getBoroughCoordinates (Some b) = Resolved c /\ r = Json c)
         \/ (t !! zip = None /\ exists c, nominatimLookup w zip = Some c /\ r = Json c)
         \/ (t !! zip = None /\ nominatimLookup w zip = None /\
             exists c, uspsLookup w zip = Some c /\ r = Json c)
         \/ (t !! zip = None /\ nominatimLookup w zip = None /\
             uspsLookup w zip = None /\ r = NotFound))).
Proof.
  intros zip r. subst r. unfold responseOf, regionalTable, get_zip. fold zip.
  destruct (String.eqb_spec zip "") as [E|E]; [left; auto|right].
  destruct (zipCentroids st !! zip) as [c|] eqn:Hc; [left; eauto|right].
  destruct (loadNYCZips w st) as [[loaded st1] e1]. cbn [fst].
  destruct loaded as [[t|]|]; [right; right|right; left; auto|left; auto].
  repeat split; auto. exists t. split; [reflexivity|].
  destruct (t !! zip) as [e|] eqn:He.
  - destruct (nyc_borough e) as [b|] eqn:Hb.
    + right; left. exists e, b. unfold getBoroughCoordinates.
      destruct (assoc (Str.toUpperCase b) boroughCoords); cbn [fst]; eauto 8.
    + left. exists e. auto.
  - right; right.
    destruct (nominatimLookup w zip) as [c|]; [left; cbn [fst]; eauto|right].
    destruct (uspsLookup w zip) as [c|]; [left; cbn [fst]; eauto|right]. auto.
Qed.



(** The read of the regional table fails while a request waits for it: the
    process ends and the request has no response. *)
Example read_error_ends_process :
  get_zip brokenTable freshState (Some "10001")
  = (NoResponse, freshState, [ReadNycCsv]).
Proof. reflexivity. Qed.

End ZipResolver.

Lemma centroid_hit_is_local_witness :
  get_zip brokenTable exampleState (Some "10004-1234")
  = (Json (coord (ofDecimal 407 (-1)) (neg (ofZ 74))), exampleState, []).
Proof.
  apply (centroid_hit_is_local brokenTable exampleState "10004-1234").
  apply lookup_singleton_eq.
Defined.


(* ===================================================================== *)
(** * Properties of the results of a store query *)
(* ===================================================================== *)

Section QueryResults.
Variable M : MathLib.

Lemma earth_radius : ofZ 6371000 = S754_finite false 6840809160704000 (-30).
Proof. reflexivity. Qed.

(** Whatever the [Math] library returns, a distance is a product by the
    Earth radius, hence a valid binary64 number. *)
Lemma distance_valid lat lng la lo :
  valid_binary prec emax (distanceMeters M lat lng la lo) = true.
Proof.
  unfold distanceMeters, haversineMeters. cbv beta zeta.
  cbn [times lit binary64]. rewrite earth_radius.
  apply Binary64.mul_valid_normal. reflexivity.
Qed.

Lemma measured_comparable lat lng radiusMeters stores a :
  measured M lat lng radiusMeters stores a -> comparable a.
Proof.
  intros (_ & Hd & Hr). split.
  - rewrite Hd. apply distance_valid.
  - now apply Binary64.leb_not_NaN in Hr.
Qed.

Lemma comparator_stays_before a b :
  comparable a -> comparable b ->
  sortsAfter (fun a b => Num.sub (distance_m a) (distance_m b)) a b = false ->
  nearerOrEqual a b.
Proof.
  intros [Va Na] [Vb Nb]. unfold sortsAfter, nearerOrEqual.
  rewrite Binary64.sub_positive by assumption.
  now apply Binary64.leb_of_not_ltb.
Qed.

Lemma comparator_goes_after a b :
  comparable a -> comparable b ->
  sortsAfter (fun a b => Num.sub (distance_m a) (distance_m b)) a b = true ->
  nearerOrEqual b a.
Proof.
  intros [Va Na] [Vb Nb]. unfold sortsAfter, nearerOrEqual.
  rewrite Binary64.sub_positive by assumption.
  apply Binary64.leb_of_ltb.
Qed.

Lemma nearerOrEqual_trans a b c :
  nearerOrEqual a b -> nearerOrEqual b c -> nearerOrEqual a c.
Proof. apply Binary64.leb_trans. Qed.

Lemma filter_subset {A} (p : A -> bool) (Q : A -> Prop) l :
  List.Forall Q l -> List.Forall Q (List.filter p l).
Proof.
  intros H. apply List.Forall_forall. intros x Hx.
  apply filter_In in Hx as [Hx _].
  now apply (proj1 (List.Forall_forall Q l) H).
Qed.

Lemma queryStores_measured stores lat lng radiusMeters healthyOnly wantedType limit :
  List.Forall (measured M lat lng radiusMeters stores)
    (queryStores M stores lat lng radiusMeters healthyOnly wantedType limit)
  /\ StronglySorted nearerOrEqual
       (queryStores M stores lat lng radiusMeters healthyOnly wantedType limit).
Proof.
  unfold queryStores.
  set (byHealth :=
    if String.eqb healthyOnly "true" then List.filter isHealthyStore stores
    else if String.eqb healthyOnly "false"
      then List.filter (fun s => negb (isHealthyStore s)) stores
    else stores).
  set (byType :=
    if negb (String.eqb wantedType "") then
      List.filter (fun s => String.eqb (Str.toLowerCase (storeType s))
                                       (Str.toLowerCase wantedType)) byHealth
    else byHealth).
  assert (Hsub : List.Forall (fun s => In s stores) byType).
  { assert (H0 : List.Forall (fun s => In s stores) stores)
      by (apply List.Forall_forall; auto).
    assert (H1 : List.Forall (fun s => In s stores) byHealth).
    { subst byHealth. destruct (String.eqb healthyOnly "true");
        [now apply filter_subset|].
      destruct (String.eqb healthyOnly "false"); [now apply filter_subset|assumption]. }
    subst byType. destruct (negb (String.eqb wantedType ""));
      [now apply filter_subset|assumption]. }
  set (withDistance := List.filter _ (List.map _ byType)).
  assert (Hm : List.Forall (measured M lat lng radiusMeters stores) withDistance).
  { apply List.Forall_forall. intros a Ha. subst withDistance.
    apply filter_In in Ha as [Ha Hr].
    apply in_map_iff in Ha as (s & <- & Hs).
    repeat split; cbn [store distance_m]; [|exact Hr].
    now apply (proj1 (List.Forall_forall _ _) Hsub). }
  set (sorted := Array_sort _ withDistance).
  assert (Hm' : List.Forall (measured M lat lng radiusMeters stores) sorted).
  { eapply Permutation_Forall; [apply Array_sort_perm|exact Hm]. }
  assert (Hs : StronglySorted nearerOrEqual sorted).
  { subst sorted.
    apply Array_sort_sorted with (P := comparable).
    - apply comparator_stays_before.
    - apply comparator_goes_after.
    - apply nearerOrEqual_trans.
    - eapply List.Forall_impl; [|exact Hm].
      intros a. apply measured_comparable. }
  destruct (isFinite limit); [|split; assumption].
  destruct (Array_slice0_firstn sorted limit) as [k ->].
  split; [now apply Forall_firstn | now apply StronglySorted_firstn].
Qed.

(** C2.  A query with a finite origin is answered, and its answer is
    sorted by distance, non-decreasing for the [<=] of numbers between any
    two positions, and holds only elements whose distance is [<=] the
    radius of the request.  Each element is a store of the collection with
    the distance computed for it. *)
Theorem results_sorted_within_radius (stores : list StoreRecord) (q : Query) :
  isFinite (latOf q) = true -> isFinite (lngOf q) = true ->
  exists l : list StoreWithDistance,
    get_stores M stores q = Json l
    /\ StronglySorted nearerOrEqual l
    /\ List.Forall (within (radiusMetersOf q)) l
    /\ List.Forall (fun a =>
         In (store a) stores /\
         distance_m a = distanceMeters M (latOf q) (lngOf q)
                          (latitude (store a)) (longitude (store a))) l.
Proof.
  intros Hlat Hlng. eexists. split; [now apply get_stores_accepts|].
  destruct (queryStores_measured stores (latOf q) (lngOf q) (radiusMetersOf q)
              (healthyOnlyOf q) (storeTypeOf q) (limitOf q)) as [Hm Hs].
  split; [exact Hs|]. split.
  - eapply List.Forall_impl; [|exact Hm]. now intros a (_ & _ & Hr).
  - eapply List.Forall_impl; [|exact Hm]. now intros a (Hin & Hd & _).
Qed.

End QueryResults.

Lemma results_sorted_within_radius_witness :
  exists l : list StoreWithDistance,
    get_stores smallAngle exampleStores exampleQuery = Json l
    /\ StronglySorted nearerOrEqual l
    /\ List.Forall (within (radiusMetersOf exampleQuery)) l
    /\ List.Forall (fun a =>
         In (store a) exampleStores /\
         distance_m a = distanceMeters smallAngle (latOf exampleQuery) (lngOf exampleQuery)
                          (latitude (store a)) (longitude (store a))) l.
Proof.
  apply (results_sorted_within_radius smallAngle exampleStores exampleQuery);
    reflexivity.
Defined.

(* ===================================================================== *)
(** * Properties of the distance *)
(* ===================================================================== *)

Section BinaryDistance.
Variable M : MathLib.
Hypothesis sin_odd : OddSine M.

Lemma toRad_opp d : @toRad number (binary64 M) (neg d) = neg (@toRad number (binary64 M) d).
Proof.
  unfold toRad. cbn [times over pi lit binary64].
  now rewrite Binary64.mul_opp_l, Binary64.div_opp_l.
Qed.

Lemma halfSine_opp d :
  Math_sin M (Num.div (@toRad number (binary64 M) (neg d)) (ofZ 2))
  = neg (Math_sin M (Num.div (@toRad number (binary64 M) d) (ofZ 2))).
Proof. now rewrite toRad_opp, Binary64.div_opp_l, sin_odd. Qed.

(** With an odd sine, swapping the two points does not change the binary64
    distance. *)
Lemma distance_symmetric_binary64 lat1 lon1 lat2 lon2 :
  distanceMeters M lat1 lon1 lat2 lon2 = distanceMeters M lat2 lon2 lat1 lon1.
Proof.
  unfold distanceMeters, haversineMeters. cbv beta zeta.
  cbn [plus minus times over lit sine cosine root arctan2 binary64].
  set (c1 := Math_cos M (@toRad number (binary64 M) lat1)).
  set (c2 := Math_cos M (@toRad number (binary64 M) lat2)).
  assert (Hlat :
    Num.mul (Math_sin M (Num.div (@toRad number (binary64 M) (Num.sub lat1 lat2)) (ofZ 2)))
            (Math_sin M (Num.div (@toRad number (binary64 M) (Num.sub lat1 lat2)) (ofZ 2)))
    = Num.mul (Math_sin M (Num.div (@toRad number (binary64 M) (Num.sub lat2 lat1)) (ofZ 2)))
              (Math_sin M (Num.div (@toRad number (binary64 M) (Num.sub lat2 lat1)) (ofZ 2)))).
  { destruct (Binary64.sub_swap lat2 lat1) as [-> | ->]; [|reflexivity].
    now rewrite halfSine_opp, Binary64.mul_opp_opp. }
  assert (Hlon :
    Num.mul (Num.mul (Num.mul c2 c1)
               (Math_sin M (Num.div (@toRad number (binary64 M) (Num.sub lon1 lon2)) (ofZ 2))))
            (Math_sin M (Num.div (@toRad number (binary64 M) (Num.sub lon1 lon2)) (ofZ 2)))
    = Num.mul (Num.mul (Num.mul c1 c2)
                 (Math_sin M (Num.div (@toRad number (binary64 M) (Num.sub lon2 lon1)) (ofZ 2))))
              (Math_sin M (Num.div (@toRad number (binary64 M) (Num.sub lon2 lon1)) (ofZ 2)))).
  { rewrite (Binary64.mul_comm c2 c1).
    destruct (Binary64.sub_swap lon2 lon1) as [-> | ->]; [|reflexivity].
    now rewrite halfSine_opp, (Binary64.mul_opp_r (Num.mul c1 c2)), Binary64.mul_opp_opp. }
  now rewrite Hlat, Hlon.
Qed.

Hypothesis conforming : Conforming M.

(** With a conforming library whose squared cosine at the latitude is
    finite, the binary64 distance from a point to itself is +0. *)
Lemma distance_same_point_binary64 lat lon :
  isFinite lat = true -> isFinite lon = true ->
  isFinite (Num.mul (Math_cos M (@toRad number (binary64 M) lat))
                    (Math_cos M (@toRad number (binary64 M) lat))) = true ->
  distanceMeters M lat lon lat lon = pzero.
Proof.
  intros Hlat Hlon Hcos.
  destruct conforming as [Hsin Hcos0 Hsqrt0 Hsqrt1 Hatan].
  unfold distanceMeters, haversineMeters. cbv beta zeta.
  cbn [plus minus times over lit sine cosine root arctan2 binary64].
  rewrite !Binary64.sub_self by assumption.
  change (Num.div (@toRad number (binary64 M) pzero) (ofZ 2)) with pzero.
  rewrite Hsin.
  rewrite (Binary64.mul_self_sign _ Hcos).
  change (Num.add (Num.mul pzero pzero) (Num.mul pzero pzero)) with pzero.
  change (Num.sub (ofZ 1) pzero) with (ofZ 1).
  rewrite Hsqrt0, Hsqrt1, Hatan. reflexivity.
Qed.
End BinaryDistance.

(** A finite latitude whose measure in radians overflows: with a library
    whose cosine of an infinity is NaN, the distance from the point to
    itself is NaN. *)
Lemma distance_same_point_NaN (M : MathLib) (lat lon : number) :
  Conforming M -> PropagatesNaN M ->
  isFinite lat = true -> isFinite lon = true ->
  isFinite (@toRad number (binary64 M) lat) = false ->
  distanceMeters M lat lon lat lon = NaN.
Proof.
  intros [Hsin Hcos0 Hsqrt0 Hsqrt1 Hatan] [Hcos Hsqrt Hatan2] Hlat Hlon Hrad.
  unfold distanceMeters, haversineMeters. cbv beta zeta.
  cbn [plus minus times over lit sine cosine root arctan2 binary64].
  rewrite !Binary64.sub_self by assumption.
  change (Num.div (@toRad number (binary64 M) pzero) (ofZ 2)) with pzero.
  rewrite Hsin, (Hcos _ Hrad).
  change (Num.add (Num.mul pzero pzero)
            (Num.mul (Num.mul (Num.mul NaN NaN) pzero) pzero)) with NaN.
  change (Num.sub (ofZ 1) NaN) with NaN.
  rewrite Hsqrt, Hatan2. reflexivity.
Qed.

Lemma smallAngleStrict_conforming : Conforming smallAngleStrict.
Proof. constructor; reflexivity. Qed.

Lemma smallAngleStrict_propagates : PropagatesNaN smallAngleStrict.
Proof.
  constructor; [|reflexivity..].
  intros x Hx. cbn [Math_cos smallAngleStrict]. now rewrite Hx.
Qed.




(* ===================================================================== *)
(** * Further facts on binary64 arithmetic *)
(* ===================================================================== *)

Section ExactRounding.

Lemma ofZ_one : ofZ 1 = S754_finite false 4503599627370496 (-52).
Proof. reflexivity. Qed.

Lemma valid_bounded (s : bool) (m : positive) (e : Z) :
  valid_binary prec emax (S754_finite s m e) = true -> e <= emax - prec.
Proof.
  cbn [valid_binary]. unfold SpecFloat.bounded.
  intros [_ H]%andb_true_iff. now apply Z.leb_le.
Qed.

Lemma shr_fexp_valid (s : bool) (m : positive) (e : Z) :
  valid_binary prec emax (S754_finite s m e) = true ->
  shr_fexp prec emax (Z.pos m) e loc_Exact
  = (shr_record_of_loc (Z.pos m) loc_Exact, e).
Proof.
  intros Hv. pose proof (Binary64.valid_canonical s m e Hv) as Hc.
  destruct (Binary64.shr_fexp_specZ (Z.pos m) e loc_Exact ltac:(lia))
    as [[_ H] | (Hn & _)]; [exact H|].
  rewrite Binary64.Zdigits2_pos in Hn. lia.
Qed.

(** Rounding a valid number gives the number. *)
Lemma binary_round_aux_exact (s : bool) (m : positive) (e : Z) :
  valid_binary prec emax (S754_finite s m e) = true ->
  binary_round_aux prec emax s (Z.pos m) e loc_Exact = S754_finite s m e.
Proof.
  intros Hv. pose proof (valid_bounded s m e Hv) as Hb.
  pose proof (shr_fexp_valid s m e Hv) as Hs.
  unfold binary_round_aux. rewrite Hs.
  cbn [shr_record_of_loc loc_of_shr_record shr_m shr_r shr_s round_nearest_even].
  change {| shr_m := Z.pos m; shr_r := false; shr_s := false |}
    with (shr_record_of_loc (Z.pos m) loc_Exact) in Hs.
  rewrite Hs. cbn [shr_record_of_loc shr_m].
  apply Z.leb_le in Hb. now rewrite Hb.
Qed.

(** The same from one binary digit more. *)
Lemma binary_round_aux_exact_twice (s : bool) (m : positive) (e : Z) :
  valid_binary prec emax (S754_finite s m e) = true ->
  fexp prec emax (Z.pos (digits2_pos m) + e - 1) = e - 1 ->
  binary_round_aux prec emax s (Z.pos m~0) (e - 1) loc_Exact = S754_finite s m e.
Proof.
  intros Hv Hlow. pose proof (Binary64.valid_canonical s m e Hv) as Hc.
  pose proof (valid_bounded s m e Hv) as Hb.
  pose proof (shr_fexp_valid s m e Hv) as Hs.
  assert (Hs2 : shr_fexp prec emax (Z.pos m~0) (e - 1) loc_Exact
               = (shr_record_of_loc (Z.pos m) loc_Exact, e)).
  { unfold shr_fexp. rewrite Binary64.Zdigits2_pos. cbn [digits2_pos].
    rewrite Pos2Z.inj_succ.
    replace (Z.succ (Z.pos (digits2_pos m)) + (e - 1))
      with (Z.pos (digits2_pos m) + e) by lia.
    rewrite Hc. replace (e - (e - 1)) with 1 by lia.
    cbn [shr SpecFloat.iter_pos shr_1 shr_record_of_loc shr_m shr_r shr_s orb].
    f_equal. lia. }
  unfold binary_round_aux. rewrite Hs2.
  cbn [shr_record_of_loc loc_of_shr_record shr_m shr_r shr_s round_nearest_even].
  change {| shr_m := Z.pos m; shr_r := false; shr_s := false |}
    with (shr_record_of_loc (Z.pos m) loc_Exact) in Hs.
  rewrite Hs. cbn [shr_record_of_loc shr_m].
  apply Z.leb_le in Hb. now rewrite Hb.
Qed.

(** [x / 1] is [x]. *)
Lemma div_by_one (x : number) :
  valid_binary prec emax x = true -> isFinite x = true -> Num.div x (ofZ 1) = x.
Proof.
  intros Hv Hf. rewrite ofZ_one.
  destruct x as [s|s| |s m e]; try discriminate.
  - destruct s; reflexivity.
  - pose proof (Binary64.valid_canonical s m e Hv) as Hc.
    unfold Num.div. cbn [SFdiv]. unfold SFdiv_core_binary.
    rewrite Binary64.Zdigits2_pos.
    change (Zdigits2 4503599627370496) with 53.
    replace (Z.pos (digits2_pos m) + e - (53 + -52))
      with (Z.pos (digits2_pos m) + e - 1) by lia.
    rewrite xorb_false_r.
    pose proof (Binary64.fexp_eq (Z.pos (digits2_pos m) + e)) as H1.
    pose proof (Binary64.fexp_eq (Z.pos (digits2_pos m) + e - 1)) as H2.
    remember (fexp prec emax (Z.pos (digits2_pos m) + e - 1)) as e' eqn:He'.
    assert (Hcases : e' = e \/ e' = e - 1) by lia.
    assert (Hmin : Z.min e' (e - -52) = e') by lia. rewrite Hmin.
    destruct Hcases as [-> | ->].
    + replace (e - -52 - e) with 52 by lia.
      rewrite Z.shiftl_mul_pow2 by lia.
      pose proof (Z_div_mod (Z.pos m * 2 ^ 52) 4503599627370496 ltac:(lia)) as Hd.
      destruct (Z.div_eucl (Z.pos m * 2 ^ 52) 4503599627370496) as [q r].
      destruct Hd as [Hq Hr].
      change (2 ^ 52) with 4503599627370496 in Hq.
      assert (r = 0) by lia. assert (q = Z.pos m) by lia. subst q r.
      cbn [new_location Z.even new_location_even Z.eqb].
      now apply binary_round_aux_exact.
    + replace (e - -52 - (e - 1)) with 53 by lia.
      rewrite Z.shiftl_mul_pow2 by lia.
      pose proof (Z_div_mod (Z.pos m * 2 ^ 53) 4503599627370496 ltac:(lia)) as Hd.
      destruct (Z.div_eucl (Z.pos m * 2 ^ 53) 4503599627370496) as [q r].
      destruct Hd as [Hq Hr].
      change (2 ^ 53) with 9007199254740992 in Hq.
      assert (r = 0) by lia. assert (q = Z.pos m~0) by lia. subst q r.
      cbn [new_location Z.even new_location_even Z.eqb].
      apply binary_round_aux_exact_twice; [assumption|]. now rewrite <- He'.
Qed.

Lemma add_zero_l (x : number) :
  isFinite x = true -> x <> nzero -> Num.add pzero x = x.
Proof.
  destruct x as [[]|s| |s m e]; try discriminate; try reflexivity.
  intros _ H. now elim H.
Qed.

End ExactRounding.

Section ValidNumbers.

Lemma digits2_pos_shift (m : positive) (k : Z) (p : positive) :
  0 <= k -> Z.pos p = Z.pos m * 2 ^ k ->
  Z.pos (digits2_pos p) = Z.pos (digits2_pos m) + k.
Proof.
  intros Hk Hp. apply Binary64.digits2_pos_unique.
  pose proof (Binary64.digits2_pos_bounds m) as [Hlo Hhi].
  assert (0 < 2 ^ k) by (apply Z.pow_pos_nonneg; lia).
  rewrite Hp.
  replace (Z.pos (digits2_pos m) + k - 1) with ((Z.pos (digits2_pos m) - 1) + k) by lia.
  rewrite !Z.pow_add_r by lia. nia.
Qed.

Lemma binary_round_valid (s : bool) (m : positive) (e : Z) :
  valid_binary prec emax (binary_round prec emax s m e) = true.
Proof.
  unfold binary_round.
  pose proof (Binary64.shl_align_exponent m e
                (fexp prec emax (Z.pos (digits2_pos m) + e))) as Hx.
  destruct (Z.le_gt_cases (fexp prec emax (Z.pos (digits2_pos m) + e)) e) as [Hle|Hgt].
  - pose proof (Binary64.shl_align_value m e _ Hle) as Hv.
    destruct (shl_align m e (fexp prec emax (Z.pos (digits2_pos m) + e))) as [mz ez].
    cbn [fst snd] in Hx, Hv. apply Binary64.binary_round_aux_valid.
    remember (fexp prec emax (Z.pos (digits2_pos m) + e)) as E eqn:HE.
    rewrite (digits2_pos_shift m (e - E) mz ltac:(lia) Hv). subst ez.
    replace (Z.pos (digits2_pos m) + (e - E) + Z.min e E)
      with (Z.pos (digits2_pos m) + e) by lia.
    lia.
  - assert (Hm : fst (shl_align m e (fexp prec emax (Z.pos (digits2_pos m) + e))) = m).
    { unfold shl_align.
      destruct (fexp prec emax (Z.pos (digits2_pos m) + e) - e) eqn:Hd;
        try reflexivity; lia. }
    destruct (shl_align m e (fexp prec emax (Z.pos (digits2_pos m) + e))) as [mz ez].
    cbn [fst snd] in Hx, Hm. subst mz ez. apply Binary64.binary_round_aux_valid.
    replace (Z.min e (fexp prec emax (Z.pos (digits2_pos m) + e))) with e by lia.
    lia.
Qed.

Lemma binary_normalize_valid (m e : Z) (szero : bool) :
  valid_binary prec emax (binary_normalize prec emax m e szero) = true.
Proof.
  destruct m as [|p|p]; cbn [binary_normalize]; [reflexivity| |];
    apply binary_round_valid.
Qed.

Lemma ofZ_valid (z : Z) : valid_binary prec emax (ofZ z) = true.
Proof. apply binary_normalize_valid. Qed.

(** Rounding nothing, at or below the least exponent. *)
Lemma binary_round_aux_valid_zero (s : bool) (e : Z) (l : location) :
  e <= -1074 ->
  valid_binary prec emax (binary_round_aux prec emax s 0 e l) = true.
Proof.
  intros He. unfold binary_round_aux.
  assert (Hs : exists mrs, shr_fexp prec emax 0 e l = (mrs, -1074) /\ shr_m mrs = 0).
  { destruct (Binary64.shr_fexp_specZ 0 e l ltac:(lia)) as [[Hn H] | (Hn & mrs & H & Hm)];
      cbn [Zdigits2] in Hn, H; pose proof (Binary64.fexp_eq (0 + e)) as HF.
    - exists (shr_record_of_loc 0 l). rewrite Binary64.shr_record_of_loc_m.
      split; [rewrite H; f_equal; lia | reflexivity].
    - cbn [Zdigits2] in Hm. exists mrs. split; [rewrite H; f_equal; lia|].
      rewrite Hm. apply Zdiv_0_l. }
  destruct Hs as (mrs & -> & Hm). rewrite Hm.
  destruct (Binary64.round_nearest_even_cases 0 (loc_of_shr_record mrs)) as [-> | ->].
  - pose proof (Binary64.shr_fexp_zero (-1074) loc_Exact) as Hz.
    destruct (shr_fexp prec emax 0 (-1074) loc_Exact) as [mrs2 e2]. cbn [fst] in Hz.
    now rewrite Hz.
  - reflexivity.
Qed.

Lemma div_eucl_spec (a b : Z) :
  0 <= a -> 0 < b ->
  exists q r, Z.div_eucl a b = (q, r) /\ a = b * q + r /\ 0 <= r < b /\ 0 <= q.
Proof.
  intros Ha Hb. pose proof (Z_div_mod a b ltac:(lia)) as H.
  destruct (Z.div_eucl a b) as [q r]. destruct H as [H1 H2].
  exists q, r. repeat split; try lia. nia.
Qed.

(** The quotient of two finite numbers is a valid number: its mantissa has
    53 digits at least before rounding, or its exponent is the least. *)
Lemma div_finite_valid (s1 : bool) (m1 : positive) (e1 : Z)
    (s2 : bool) (m2 : positive) (e2 : Z) :
  valid_binary prec emax
    (Num.div (S754_finite s1 m1 e1) (S754_finite s2 m2 e2)) = true.
Proof.
  unfold Num.div. cbn [SFdiv]. unfold SFdiv_core_binary.
  rewrite !Binary64.Zdigits2_pos.
  pose proof (Binary64.digits2_pos_bounds m1) as [Hlo1 Hhi1].
  pose proof (Binary64.digits2_pos_bounds m2) as [Hlo2 Hhi2].
  remember (Z.pos (digits2_pos m1)) as d1 eqn:Hd1.
  remember (Z.pos (digits2_pos m2)) as d2 eqn:Hd2.
  assert (0 < d1) by lia. assert (0 < d2) by lia.
  pose proof (Binary64.fexp_eq (d1 + e1 - (d2 + e2))) as HF.
  remember (fexp prec emax (d1 + e1 - (d2 + e2))) as F eqn:HeF.
  remember (Z.min F (e1 - e2)) as e' eqn:He'.
  remember (e1 - e2 - e') as sh eqn:Hsh.
  assert (Hsh0 : 0 <= sh) by lia.
  assert (Hm' : match sh with
                | 0 => Z.pos m1
                | Z.pos _ => Z.shiftl (Z.pos m1) sh
                | Z.neg _ => 0
                end = Z.pos m1 * 2 ^ sh).
  { destruct sh as [|p|p]; [lia| |lia]. apply Z.shiftl_mul_pow2. lia. }
  rewrite Hm'.
  assert (Hp : 0 < 2 ^ sh) by (apply Z.pow_pos_nonneg; lia).
  destruct (div_eucl_spec (Z.pos m1 * 2 ^ sh) (Z.pos m2) ltac:(nia) ltac:(lia))
    as (q & r & -> & Hq & Hr & Hq0).
  destruct q as [|q|q]; [|clear Hq0|lia].
  - apply binary_round_aux_valid_zero.
    destruct (Z.le_gt_cases e' (-1074)) as [|Hgt]; [assumption|exfalso].
    assert (Hbig : 2 ^ (d2 + 52) <= Z.pos m1 * 2 ^ sh).
    { destruct (Z.le_gt_cases F (e1 - e2)) as [Hle|Hlt].
      - assert (sh = 53 + d2 - d1) by lia.
        assert (E : d2 + 52 = (d1 - 1) + sh) by lia.
        rewrite E, Z.pow_add_r by lia. nia.
      - assert (Hs0 : sh = 0) by lia. assert (d2 + 53 < d1) by lia.
        assert (2 ^ (d2 + 52) <= 2 ^ (d1 - 1)) by (apply Z.pow_le_mono_r; lia).
        rewrite Hs0, Z.pow_0_r. lia. }
    assert (E : 2 ^ (d2 + 52) = 2 ^ d2 * 2 ^ 52) by (apply Z.pow_add_r; lia).
    assert (0 < 2 ^ 52) by (apply Z.pow_pos_nonneg; lia).
    nia.
  - apply Binary64.binary_round_aux_valid.
    destruct (Z.le_gt_cases e' (-1074)) as [Hle|Hgt].
    { pose proof (Binary64.emin_le_fexp (Z.pos (digits2_pos q) + e')). lia. }
    pose proof (Binary64.digits2_pos_bounds q) as [Hloq Hhiq].
    remember (Z.pos (digits2_pos q)) as dq eqn:Hdq.
    rewrite Binary64.fexp_eq.
    destruct (Z.le_gt_cases F (e1 - e2)) as [Hle|Hlt].
    + assert (Hs : sh = 53 + d2 - d1) by lia.
      assert (Hbig : 2 ^ (d2 + 52) <= Z.pos m1 * 2 ^ sh).
      { assert (E : d2 + 52 = (d1 - 1) + sh) by lia.
        rewrite E, Z.pow_add_r by lia. nia. }
      assert (E : 2 ^ (d2 + 52) = 2 ^ d2 * 2 ^ 52) by (apply Z.pow_add_r; lia).
      assert (H52 : 2 ^ 52 <= Z.pos q) by nia.
      destruct (Z.le_gt_cases 53 dq) as [|Hsmall]; [lia|exfalso].
      assert (2 ^ dq <= 2 ^ 52) by (apply Z.pow_le_mono_r; lia). lia.
    + assert (Hs : sh = 0) by lia.
      assert (d2 + 53 < d1) by lia.
      assert (Hbig : 2 ^ (d2 + 53) <= Z.pos m1 * 2 ^ sh).
      { assert (2 ^ (d2 + 53) <= 2 ^ (d1 - 1)) by (apply Z.pow_le_mono_r; lia).
        rewrite Hs, Z.pow_0_r. lia. }
      assert (E : 2 ^ (d2 + 53) = 2 ^ d2 * 2 ^ 53) by (apply Z.pow_add_r; lia).
      assert (H53 : 2 ^ 53 <= Z.pos q) by nia.
      destruct (Z.le_gt_cases 54 dq) as [|Hsmall]; [lia|exfalso].
      assert (2 ^ dq <= 2 ^ 53) by (apply Z.pow_le_mono_r; lia). lia.
Qed.

Lemma ofDecimal_valid (m e : Z) : valid_binary prec emax (ofDecimal m e) = true.
Proof.
  unfold ofDecimal. destruct m as [|p|p]; [reflexivity| |reflexivity].
  destruct (0 <=? e); [apply ofZ_valid | apply div_finite_valid].
Qed.

Lemma neg_valid (x : number) :
  valid_binary prec emax x = true -> valid_binary prec emax (Num.neg x) = true.
Proof. destruct x; auto. Qed.

(** [parseFloat] and [parseInt] return valid numbers. *)
Lemma parseFloat_valid (s : string) : valid_binary prec emax (parseFloat s) = true.
Proof.
  unfold parseFloat. destruct (signOf (Str.trimStart s)) as [sg r].
  assert (H : valid_binary prec emax (unsignedDecimal r) = true).
  { unfold unsignedDecimal.
    destruct (Str.stripPrefix "Infinity" r); [reflexivity|].
    destruct (Str.spanDigits r) as [ip r1].
    destruct (match r1 with
              | String "." t => Str.spanDigits t
              | _ => (EmptyString, r1)
              end) as [fp r2].
    destruct (String.eqb ip "" && String.eqb fp ""); [reflexivity|].
    apply ofDecimal_valid. }
  unfold applySign. destruct sg; [now apply neg_valid | assumption].
Qed.

Lemma parseInt_valid (s : string) : valid_binary prec emax (parseInt s) = true.
Proof.
  unfold parseInt. destruct (signOf (Str.trimStart s)) as [sg r].
  destruct (Str.spanDigits r) as [ds r1].
  destruct (String.eqb ds ""); [reflexivity|].
  unfold applySign. destruct sg; [apply neg_valid|]; apply ofDecimal_valid.
Qed.

Lemma number_leb_refl (a : number) : isNaN a = false -> leb a a = true.
Proof.
  intros Ha. rewrite Binary64.leb_le_cmp.
  destruct a as [s|s| |s m e]; try discriminate; try (destruct s; reflexivity).
  rewrite Binary64.SFcompare_finite. unfold lex.
  rewrite Z.compare_refl, Pos.compare_refl. destruct s; reflexivity.
Qed.

(** [Math.max(lo, Math.min(hi, n))] is between [lo] and [hi]. *)
Lemma clamp_range (lo hi n : number) :
  leb lo hi = true -> isNaN n = false ->
  leb lo (Math_max lo (Math_min hi n)) = true
  /\ leb (Math_max lo (Math_min hi n)) hi = true.
Proof.
  intros Hlh Hn.
  destruct (Binary64.leb_not_NaN lo hi Hlh) as [Nlo Nhi].
  pose proof (number_leb_refl lo Nlo) as Rlo.
  pose proof (number_leb_refl hi Nhi) as Rhi.
  assert (Hx : leb (Math_min hi n) hi = true /\ isNaN (Math_min hi n) = false).
  { unfold Math_min. pose proof (Binary64.SFcompare_antisym hi n) as Ha.
    destruct (Binary64.SFcompare_defined hi n Nhi Hn) as [c Hc]. rewrite Hc in Ha |- *.
    cbn [option_map] in Ha.
    assert (Hnhi : c <> Lt -> leb n hi = true).
    { intros Hne. rewrite Binary64.leb_le_cmp, Ha. destruct c; try reflexivity.
      now elim Hne. }
    destruct c; [|auto|split; [apply Hnhi; discriminate | assumption]].
    destruct hi as [[]| | |]; auto; split; try (apply Hnhi; discriminate); assumption. }
  destruct Hx as [Hx Nx]. set (x := Math_min hi n) in *.
  unfold Math_max.
  destruct (Binary64.SFcompare_defined lo x Nlo Nx) as [c Hc]. rewrite Hc.
  assert (Hlx : c <> Gt -> leb lo x = true).
  { intros Hne. rewrite Binary64.leb_le_cmp, Hc. destruct c; try reflexivity.
    now elim Hne. }
  destruct c; [|split; [apply Hlx; discriminate | assumption]|auto].
  destruct lo as [[]| | |]; auto; split; try (apply Hlx; discriminate); assumption.
Qed.

End ValidNumbers.

(* ===================================================================== *)
(** * Further facts on strings and lists *)
(* ===================================================================== *)

Section CaseFacts.

Lemma upper_lower_char c : Str.upperChar (Str.lowerChar c) = Str.upperChar c.
Proof. destruct c as [[] [] [] [] [] [] [] []]; reflexivity. Qed.

Lemma lower_upper_char c : Str.lowerChar (Str.upperChar c) = Str.lowerChar c.
Proof. destruct c as [[] [] [] [] [] [] [] []]; reflexivity. Qed.

Lemma upper_upper_char c : Str.upperChar (Str.upperChar c) = Str.upperChar c.
Proof. destruct c as [[] [] [] [] [] [] [] []]; reflexivity. Qed.

Lemma white_upper_char c : Str.isWhite (Str.upperChar c) = Str.isWhite c.
Proof. destruct c as [[] [] [] [] [] [] [] []]; reflexivity. Qed.

Lemma Str_map_map f g s : Str.map f (Str.map g s) = Str.map (fun c => f (g c)) s.
Proof. induction s as [|c s IH]; cbn [Str.map]; [reflexivity | now rewrite IH]. Qed.

Lemma Str_map_ext f g s : (forall c, f c = g c) -> Str.map f s = Str.map g s.
Proof.
  intros H. induction s as [|c s IH]; cbn [Str.map]; [reflexivity|].
  now rewrite H, IH.
Qed.

Lemma toUpperCase_toLowerCase s :
  Str.toUpperCase (Str.toLowerCase s) = Str.toUpperCase s.
Proof.
  unfold Str.toUpperCase, Str.toLowerCase. rewrite Str_map_map.
  apply Str_map_ext, upper_lower_char.
Qed.

Lemma toLowerCase_toUpperCase s :
  Str.toLowerCase (Str.toUpperCase s) = Str.toLowerCase s.
Proof.
  unfold Str.toUpperCase, Str.toLowerCase. rewrite Str_map_map.
  apply Str_map_ext, lower_upper_char.
Qed.

Lemma toUpperCase_idempotent s :
  Str.toUpperCase (Str.toUpperCase s) = Str.toUpperCase s.
Proof.
  unfold Str.toUpperCase. rewrite Str_map_map. apply Str_map_ext, upper_upper_char.
Qed.

End CaseFacts.

Section Trimming.
Import Str.

Lemma append_cons c (a b : string) : String c a ++ b = String c (a ++ b).
Proof. reflexivity. Qed.

Lemma append_nil_l (b : string) : "" ++ b = b.
Proof. reflexivity. Qed.

Lemma Str_append_assoc (a b c : string) : (a ++ b) ++ c = a ++ (b ++ c).
Proof.
  induction a as [|x a IH]; rewrite ?append_nil_l, ?append_cons;
    [reflexivity | now rewrite IH].
Qed.

Lemma Str_append_nil_r (a : string) : a ++ "" = a.
Proof.
  induction a as [|x a IH]; rewrite ?append_nil_l, ?append_cons;
    [reflexivity | now rewrite IH].
Qed.

Lemma rev_acc_append s acc : rev_acc s acc = rev s ++ acc.
Proof.
  unfold rev. revert acc. induction s as [|c s IH]; intros acc; cbn [rev_acc].
  - reflexivity.
  - rewrite IH, (IH (String c "")), Str_append_assoc. reflexivity.
Qed.

Lemma Str_rev_cons c s : rev (String c s) = rev s ++ String c "".
Proof. unfold rev at 1. cbn [rev_acc]. apply rev_acc_append. Qed.

Lemma Str_rev_append a b : rev (a ++ b) = rev b ++ rev a.
Proof.
  induction a as [|c a IH]; rewrite ?append_nil_l, ?append_cons.
  - now rewrite Str_append_nil_r.
  - now rewrite !Str_rev_cons, IH, Str_append_assoc.
Qed.

Lemma allWhite_append a b : allWhite (a ++ b) = allWhite a && allWhite b.
Proof.
  induction a as [|c a IH]; rewrite ?append_nil_l, ?append_cons; cbn [allWhite];
    [reflexivity|].
  now rewrite IH, andb_assoc.
Qed.

Lemma allWhite_rev s : allWhite (rev s) = allWhite s.
Proof.
  induction s as [|c s IH]; [reflexivity|].
  rewrite Str_rev_cons, allWhite_append, IH. cbn [allWhite].
  rewrite andb_true_r. apply andb_comm.
Qed.

Lemma trimStart_white pad s : allWhite pad = true -> trimStart (pad ++ s) = trimStart s.
Proof.
  induction pad as [|c pad IH]; rewrite ?append_nil_l, ?append_cons; cbn [allWhite];
    [reflexivity|].
  intros [Hc Hp]%andb_true_iff. cbn [trimStart]. rewrite Hc. now apply IH.
Qed.

Lemma trimStart_all_white s : allWhite s = true -> trimStart s = "".
Proof.
  intros H. rewrite <- (Str_append_nil_r s). now rewrite trimStart_white.
Qed.

Lemma trimEnd_white s pad : allWhite pad = true -> trimEnd (s ++ pad) = trimEnd s.
Proof.
  intros H. unfold trimEnd. rewrite Str_rev_append, trimStart_white; [reflexivity|].
  now rewrite allWhite_rev.
Qed.

Lemma trimStart_append s pad :
  allWhite pad = true ->
  trimStart (s ++ pad) = trimStart s ++ pad
  \/ (trimStart s = "" /\ trimStart (s ++ pad) = "").
Proof.
  intros H. induction s as [|c s IH]; rewrite ?append_nil_l, ?append_cons;
    cbn [trimStart].
  - right. split; [reflexivity|]. now apply trimStart_all_white.
  - destruct (isWhite c); [exact IH|]. left. reflexivity.
Qed.

(** White space around a string does not change what [trim] gives. *)
Lemma trim_white pre s post :
  allWhite pre = true -> allWhite post = true ->
  trim (pre ++ s ++ post) = trim s.
Proof.
  intros Hpre Hpost. unfold trim. rewrite trimStart_white by assumption.
  destruct (trimStart_append s post Hpost) as [-> | [-> ->]].
  - now apply trimEnd_white.
  - reflexivity.
Qed.

Lemma trimStart_map f s :
  (forall c, isWhite (f c) = isWhite c) ->
  trimStart (map f s) = map f (trimStart s).
Proof.
  intros Hf. induction s as [|c s IH]; cbn [map trimStart]; [reflexivity|].
  rewrite Hf. destruct (isWhite c); [exact IH | reflexivity].
Qed.

Lemma Str_map_append f a b : map f (a ++ b) = map f a ++ map f b.
Proof.
  induction a as [|c a IH]; rewrite ?append_nil_l, ?append_cons; cbn [map];
    rewrite ?append_nil_l, ?append_cons; [reflexivity | now rewrite IH].
Qed.

Lemma Str_rev_map f s : rev (map f s) = map f (rev s).
Proof.
  induction s as [|c s IH]; [reflexivity|].
  cbn [map]. now rewrite !Str_rev_cons, IH, Str_map_append.
Qed.

Lemma trim_map f s :
  (forall c, isWhite (f c) = isWhite c) -> trim (map f s) = map f (trim s).
Proof.
  intros Hf. unfold trim, trimEnd.
  now rewrite trimStart_map, Str_rev_map, trimStart_map, Str_rev_map.
Qed.

End Trimming.

Section ListFacts.
Context {A : Type}.

Lemma filter_twice (p q : A -> bool) l :
  List.filter q (List.filter p l) = List.filter (fun x => p x && q x) l.
Proof.
  induction l as [|x l IH]; cbn [List.filter]; [reflexivity|].
  destruct (p x); cbn [List.filter andb]; [|exact IH].
  destruct (q x); now rewrite IH.
Qed.

Lemma filter_all (l : list A) : List.filter (fun _ => true) l = l.
Proof. induction l as [|x l IH]; cbn [List.filter]; [reflexivity | now f_equal]. Qed.

Lemma In_firstn (k : nat) (l : list A) (x : A) : In x (firstn k l) -> In x l.
Proof.
  intros H. rewrite <- (firstn_skipn k l). apply in_or_app. now left.
Qed.

Lemma In_skipn (k : nat) (l : list A) (x : A) : In x (skipn k l) -> In x l.
Proof.
  intros H. rewrite <- (firstn_skipn k l). apply in_or_app. now right.
Qed.

(** In a sorted list, what a prefix leaves out is not before any element of
    the prefix. *)
Lemma StronglySorted_split (le : A -> A -> Prop) (k : nat) (l : list A) :
  StronglySorted le l ->
  List.Forall (fun b => List.Forall (fun a => le a b) (firstn k l)) (skipn k l).
Proof.
  intros H. revert k. induction H as [|x l Hl IH Hx]; intros [|k];
    cbn [firstn skipn].
  - constructor.
  - constructor.
  - apply List.Forall_forall. intros; constructor.
  - specialize (IH k). apply List.Forall_forall. intros b Hb.
    constructor.
    + apply (proj1 (List.Forall_forall _ _) Hx). eapply In_skipn; exact Hb.
    + now apply (proj1 (List.Forall_forall _ _) IH).
Qed.

Lemma Array_sliceFrom_last (l : list A) (n : nat) :
  Array_sliceFrom l (- Z.of_nat (S n)) = skipn (length l - S n) l.
Proof.
  unfold Array_sliceFrom. cbv zeta.
  destruct (Z.ltb_spec (- Z.of_nat (S n)) 0); [|lia].
  f_equal. lia.
Qed.

End ListFacts.

(* ===================================================================== *)
(** * Further properties of the record normalizer *)
(* ===================================================================== *)

Section Normalizer.

(** X1.  [parseBoolean] reads an argument of ASCII characters without
    regard to the case of the letters and to the white space around it. *)
Theorem parseBoolean_insensitive (pre s post : string) :
  isAscii s = true ->
  allWhite pre = true -> allWhite post = true ->
  parseBoolean (Some (pre ++ Str.toUpperCase s ++ post)) = parseBoolean (Some s).
Proof.
  intros _ Hpre Hpost. unfold parseBoolean.
  assert (E : forall x, orElse (Some x) "" = x).
  { intros x. unfold orElse. now destruct (String.eqb_spec x "") as [->|]. }
  rewrite !E, trim_white by assumption.
  unfold Str.toUpperCase. rewrite trim_map by apply white_upper_char.
  fold (Str.toUpperCase (Str.trim s)). now rewrite toLowerCase_toUpperCase.
Qed.

Lemma parseScore_range (hi : Z) (raw : option string) (n : number) :
  leb (ofZ 1) (ofZ hi) = true ->
  parseScore hi raw = Some n ->
  leb (ofZ 1) n = true /\ leb n (ofZ hi) = true.
Proof.
  intros Hhi. unfold parseScore. destruct raw as [s|]; [|discriminate].
  destruct (String.eqb (Str.trim s) ""); [discriminate|].
  destruct (isFinite (parseInt s)) eqn:Hf; [|discriminate].
  intros [= <-]. apply clamp_range; [assumption|].
  destruct (parseInt s); try discriminate; reflexivity.
Qed.

Lemma loaded_normalized rows s :
  In s (loadStoresFromCsv rows) ->
  exists row, In row rows /\ finiteCoords row = true /\ s = normalized row.
Proof.
  rewrite loadStoresFromCsv_filter. intros H.
  apply in_map_iff in H as (row & <- & H).
  apply filter_In in H as [H1 H2]. eauto.
Qed.

Lemma normalized_loaded rows row :
  In row rows -> finiteCoords row = true ->
  In (normalized row) (loadStoresFromCsv rows).
Proof.
  intros Hin Hf. rewrite loadStoresFromCsv_filter.
  apply in_map. now apply filter_In.
Qed.

(** X2.  The scores of a stored record, when present, are numbers between 1
    and 10 for the health score and between 1 and 5 for the economy score,
    whatever the cells hold. *)
Theorem loaded_scores_in_range (rows : list Row) (s : StoreRecord) :
  In s (loadStoresFromCsv rows) ->
  (forall n, aiScore s = Some n -> leb (ofZ 1) n = true /\ leb n (ofZ 10) = true)
  /\ (forall n, aiEconomyScore s = Some n ->
        leb (ofZ 1) n = true /\ leb n (ofZ 5) = true).
Proof.
  intros Hs. apply loaded_normalized in Hs as (row & _ & _ & ->).
  split; intros n; cbn [normalized storeOf aiScore aiEconomyScore];
    apply parseScore_range; reflexivity.
Qed.

Lemma loaded_zip_fixpoint rows s :
  In s (loadStoresFromCsv rows) -> zip s <> "" -> toZip5 (Some (zip s)) = zip s.
Proof.
  intros Hs Hz. apply loaded_normalized in Hs as (row & _ & _ & ->).
  cbn [normalized storeOf zip] in *.
  destruct (row !! "Zip_Code") as [cell|]; [|now elim Hz].
  apply toZip5_idempotent.
Qed.

Lemma loaded_coordinates rows s :
  In s (loadStoresFromCsv rows) ->
  (valid_binary prec emax (latitude s) = true /\ isFinite (latitude s) = true)
  /\ (valid_binary prec emax (longitude s) = true /\ isFinite (longitude s) = true).
Proof.
  intros Hs. apply loaded_normalized in Hs as (row & _ & Hf & ->).
  cbn [normalized storeOf latitude longitude].
  unfold finiteCoords in Hf. apply andb_true_iff in Hf as [H1 H2].
  repeat split; try assumption; apply parseFloat_valid.
Qed.

(** X3.  What the loader leaves in a stored record: the ZIP is empty (the
    row has no ZIP cell) or five digits, and then a fixed point of the
    normalization; when the county is written in ASCII characters, the
    borough is in upper case and is the county up to the case of the
    letters; both coordinates are valid binary64 numbers. *)
Theorem loaded_store_normal_form (rows : list Row) (s : StoreRecord) :
  In s (loadStoresFromCsv rows) ->
  (zip s = "" \/ (String.length (zip s) = 5%nat /\ allDigits (zip s) = true))
  /\ toZip5 (Some (zip s)) = (if String.eqb (zip s) "" then "00000" else zip s)
  /\ (isAscii (county s) = true ->
      Str.toUpperCase (borough s) = borough s
      /\ Str.toLowerCase (borough s) = Str.toLowerCase (county s))
  /\ valid_binary prec emax (latitude s) = true
  /\ valid_binary prec emax (longitude s) = true.
Proof.
  intros Hs. apply loaded_normalized in Hs as (row & _ & _ & ->).
  cbn [normalized storeOf zip borough county latitude longitude].
  split; [|split; [|split; [|split]]].
  - destruct (row !! "Zip_Code") as [cell|]; [right|left; reflexivity].
    split; [apply toZip5_length | apply toZip5_digits].
  - destruct (row !! "Zip_Code") as [cell|]; [|reflexivity].
    destruct (String.eqb_spec (toZip5 (Some cell)) "") as [E|_].
    + now apply toZip5_nonempty in E.
    + apply toZip5_idempotent.
  - intros _. split; [apply toUpperCase_idempotent | apply toLowerCase_toUpperCase].
  - apply parseFloat_valid.
  - apply parseFloat_valid.
Qed.

End Normalizer.

Lemma parseBoolean_insensitive_witness :
  parseBoolean (Some ("  " ++ Str.toUpperCase "yes" ++ " ")) = parseBoolean (Some "yes").
Proof. apply (parseBoolean_insensitive "  " "yes" " "); reflexivity. Defined.

Lemma loaded_scores_in_range_witness :
  (forall n, aiScore (normalized farRow) = Some n ->
     leb (ofZ 1) n = true /\ leb n (ofZ 10) = true)
  /\ (forall n, aiEconomyScore (normalized farRow) = Some n ->
        leb (ofZ 1) n = true /\ leb n (ofZ 5) = true).
Proof.
  apply (loaded_scores_in_range catalogRows (normalized farRow)).
  apply normalized_loaded; [left; reflexivity | reflexivity].
Defined.

Lemma loaded_store_normal_form_witness :
  (zip (normalized nowhereRow) = ""
   \/ (String.length (zip (normalized nowhereRow)) = 5%nat
       /\ allDigits (zip (normalized nowhereRow)) = true))
  /\ toZip5 (Some (zip (normalized nowhereRow)))
     = (if String.eqb (zip (normalized nowhereRow)) "" then "00000"
        else zip (normalized nowhereRow))
  /\ (Str.toUpperCase (borough (normalized nowhereRow)) = borough (normalized nowhereRow)
      /\ Str.toLowerCase (borough (normalized nowhereRow))
         = Str.toLowerCase (county (normalized nowhereRow)))
  /\ valid_binary prec emax (latitude (normalized nowhereRow)) = true
  /\ valid_binary prec emax (longitude (normalized nowhereRow)) = true.
Proof.
  pose proof (loaded_store_normal_form catalogRows (normalized nowhereRow)) as H.
  destruct H as (H1 & H2 & H3 & H4 & H5).
  { apply normalized_loaded; [do 3 right; left; reflexivity | reflexivity]. }
  split; [exact H1|]. split; [exact H2|]. split; [apply H3; reflexivity|].
  split; [exact H4 | exact H5].
Defined.

(* ===================================================================== *)
(** * Further properties of the store query engine *)
(* ===================================================================== *)

Section QueryFilters.
Variable M : MathLib.

(** The two filters of the handler are one filter by [passesHealth] and
    [passesType]. *)
Lemma filters_passes stores healthyOnly wantedType :
  (let filtered := stores in
   let filtered :=
     if String.eqb healthyOnly "true" then List.filter isHealthyStore filtered
     else if String.eqb healthyOnly "false"
       then List.filter (fun s => negb (isHealthyStore s)) filtered
     else filtered in
   if negb (String.eqb wantedType "") then
     let typeLc := Str.toLowerCase wantedType in
     List.filter (fun s => String.eqb (Str.toLowerCase (storeType s)) typeLc) filtered
   else filtered)
  = List.filter (fun s => passesHealth healthyOnly s && passesType wantedType s) stores.
Proof.
  cbv zeta. unfold passesHealth, passesType.
  destruct (String.eqb wantedType ""); cbn [negb orb].
  - destruct (String.eqb healthyOnly "true").
    { apply List.filter_ext. intros s. now rewrite andb_true_r. }
    destruct (String.eqb healthyOnly "false").
    { apply List.filter_ext. intros s. now rewrite andb_true_r. }
    symmetry. apply filter_all.
  - destruct (String.eqb healthyOnly "true"); [apply filter_twice|].
    destruct (String.eqb healthyOnly "false"); [apply filter_twice|].
    reflexivity.
Qed.

(** An answer is a prefix of the sorted list of the stores asked for, and
    the whole of it when it is shorter than the limit. *)
Lemma get_stores_qualifying stores q l :
  get_stores M stores q = Json l ->
  exists k,
    l = firstn k (Array_sort (fun a b => Num.sub (distance_m a) (distance_m b))
                    (qualifying M stores q))
    /\ (Z.of_nat (length l) < truncate (limitOf q) ->
        (length (qualifying M stores q) <= k)%nat).
Proof.
  unfold get_stores.
  destruct (negb (isFinite (latOf q)) || negb (isFinite (lngOf q))); [discriminate|].
  intros [= <-]. unfold queryStores.
  pose proof (filters_passes stores (healthyOnlyOf q) (storeTypeOf q)) as Hf.
  cbv zeta in Hf |- *. rewrite Hf. fold (withDistanceOf M (latOf q) (lngOf q)).
  fold (qualifying M stores q).
  set (sorted := Array_sort _ (qualifying M stores q)).
  assert (Hlen : length sorted = length (qualifying M stores q)).
  { symmetry. apply Permutation_length, Array_sort_perm. }
  destruct (limitOf_positive q) as [Hfin Hpos]. rewrite Hfin.
  pose proof (truncate_nonneg _ Hpos) as Ht.
  exists (Z.to_nat (Z.min (truncate (limitOf q)) (Z.of_nat (length sorted)))).
  assert (E : Array_slice0 sorted (limitOf q)
              = firstn (Z.to_nat (Z.min (truncate (limitOf q))
                                        (Z.of_nat (length sorted)))) sorted).
  { unfold Array_slice0.
    destruct (limitOf q) as [s|s| |s m e]; try discriminate;
      destruct (Z.ltb_spec (truncate (S754_finite s m e)) 0); try reflexivity; try lia. }
  split; [exact E|].
  rewrite E, length_firstn, <- Hlen. lia.
Qed.

Lemma qualifying_passes stores q a :
  In a (qualifying M stores q) ->
  In (store a) stores
  /\ passesHealth (healthyOnlyOf q) (store a) = true
  /\ passesType (storeTypeOf q) (store a) = true
  /\ measured M (latOf q) (lngOf q) (radiusMetersOf q) stores a.
Proof.
  unfold qualifying. intros Ha.
  apply filter_In in Ha as [Ha Hr].
  apply in_map_iff in Ha as (s & <- & Hs).
  apply filter_In in Hs as [Hs Hp].
  apply andb_true_iff in Hp as [Hh Ht].
  cbn [store withDistanceOf]. repeat split; assumption.
Qed.

Lemma result_qualifies stores q l a :
  get_stores M stores q = Json l -> In a l -> In a (qualifying M stores q).
Proof.
  intros Hl Ha. destruct (get_stores_qualifying stores q l Hl) as (k & -> & _).
  apply In_firstn in Ha.
  eapply Permutation_in; [|exact Ha].
  symmetry. apply Array_sort_perm.
Qed.

Lemma sorted_qualifying stores q :
  StronglySorted nearerOrEqual
    (Array_sort (fun a b => Num.sub (distance_m a) (distance_m b))
       (qualifying M stores q)).
Proof.
  apply Array_sort_sorted with (P := comparable).
  - apply comparator_stays_before.
  - apply comparator_goes_after.
  - apply nearerOrEqual_trans.
  - apply List.Forall_forall. intros a Ha.
    apply qualifying_passes in Ha as (_ & _ & _ & Hm).
    eapply measured_comparable; exact Hm.
Qed.

(** X4.  The health filter: with [isHealthy=true], in any case of the
    letters, every returned store is a healthy store; with [isHealthy=false]
    none is; any other value, [yes] and [1] included, filters nothing: the
    answer is that of the request without the parameter. *)
Theorem health_filter (stores : list StoreRecord) (q : Query)
    (l : list StoreWithDistance) :
  get_stores M stores q = Json l ->
  (healthyOnlyOf q = "true" ->
     List.Forall (fun a => isHealthyStore (store a) = true) l)
  /\ (healthyOnlyOf q = "false" ->
     List.Forall (fun a => isHealthyStore (store a) = false) l)
  /\ (healthyOnlyOf q <> "true" -> healthyOnlyOf q <> "false" ->
     get_stores M stores (withHealthy None q) = Json l).
Proof.
  intros Hl. split; [|split].
  - intros E. apply List.Forall_forall. intros a Ha.
    apply (result_qualifies _ _ _ _ Hl), qualifying_passes in Ha as (_ & Hh & _).
    unfold passesHealth in Hh. now rewrite E in Hh.
  - intros E. apply List.Forall_forall. intros a Ha.
    apply (result_qualifies _ _ _ _ Hl), qualifying_passes in Ha as (_ & Hh & _).
    unfold passesHealth in Hh. rewrite E in Hh. cbn in Hh.
    now apply negb_true_iff in Hh.
  - intros Ht Hf. rewrite <- Hl. unfold get_stores, queryStores.
    change (latOf (withHealthy None q)) with (latOf q).
    change (lngOf (withHealthy None q)) with (lngOf q).
    change (radiusMetersOf (withHealthy None q)) with (radiusMetersOf q).
    change (storeTypeOf (withHealthy None q)) with (storeTypeOf q).
    change (limitOf (withHealthy None q)) with (limitOf q).
    change (healthyOnlyOf (withHealthy None q)) with "any".
    destruct (String.eqb_spec (healthyOnlyOf q) "true"); [contradiction|].
    destruct (String.eqb_spec (healthyOnlyOf q) "false"); [contradiction|].
    reflexivity.
Qed.

(** X5.  The store-type filter: when the trimmed parameter is not empty,
    the type of every returned store is the parameter up to the case of the
    letters; when it is empty or white space only, the answer is that of the
    request without the parameter. *)
Theorem type_filter (stores : list StoreRecord) (q : Query)
    (l : list StoreWithDistance) :
  get_stores M stores q = Json l ->
  (storeTypeOf q <> "" ->
     List.Forall (fun a => Str.toLowerCase (storeType (store a))
                           = Str.toLowerCase (storeTypeOf q)) l)
  /\ (storeTypeOf q = "" ->
     get_stores M stores (withStoreType None q) = Json l).
Proof.
  intros Hl. split.
  - intros E. apply List.Forall_forall. intros a Ha.
    apply (result_qualifies _ _ _ _ Hl), qualifying_passes in Ha as (_ & _ & Ht & _).
    unfold passesType in Ht.
    destruct (String.eqb_spec (storeTypeOf q) ""); [contradiction|].
    now apply String.eqb_eq in Ht.
  - intros E. rewrite <- Hl. unfold get_stores, queryStores.
    change (latOf (withStoreType None q)) with (latOf q).
    change (lngOf (withStoreType None q)) with (lngOf q).
    change (radiusMetersOf (withStoreType None q)) with (radiusMetersOf q).
    change (healthyOnlyOf (withStoreType None q)) with (healthyOnlyOf q).
    change (limitOf (withStoreType None q)) with (limitOf q).
    change (storeTypeOf (withStoreType None q)) with "".
    rewrite E. reflexivity.
Qed.

(** X6.  An answer that is shorter than the limit leaves nothing out: it
    holds the stores that pass the filters and lie within the radius, each
    as often as the collection has it. *)
Theorem below_cap_complete (stores : list StoreRecord) (q : Query)
    (l : list StoreWithDistance) :
  get_stores M stores q = Json l ->
  Z.of_nat (length l) < truncate (limitOf q) ->
  Permutation l (qualifying M stores q).
Proof.
  intros Hl Hlt. destruct (get_stores_qualifying stores q l Hl) as (k & E & Hk).
  specialize (Hk Hlt). rewrite E, firstn_all2.
  - symmetry. apply Array_sort_perm.
  - rewrite <- (Permutation_length (Array_sort_perm _ _)). exact Hk.
Qed.

(** X7.  The cap keeps the nearest: the answer together with what it omits
    is the list of the stores asked for, and an omitted store is at least as
    far as every returned one. *)
Theorem cap_keeps_nearest (stores : list StoreRecord) (q : Query)
    (l : list StoreWithDistance) :
  get_stores M stores q = Json l ->
  exists omitted : list StoreWithDistance,
    Permutation (l ++ omitted) (qualifying M stores q)
    /\ List.Forall (fun b => List.Forall (fun a => nearerOrEqual a b) l) omitted.
Proof.
  intros Hl. destruct (get_stores_qualifying stores q l Hl) as (k & -> & _).
  exists (skipn k (Array_sort (fun a b => Num.sub (distance_m a) (distance_m b))
                     (qualifying M stores q))).
  split.
  - rewrite firstn_skipn. symmetry. apply Array_sort_perm.
  - apply StronglySorted_split, sorted_qualifying.
Qed.

(** X8.  The sentinel [unlimited], in any case of the letters, removes no
    cap: the request is answered as the request without limit, with 200
    stores at most. *)
Theorem unlimited_is_default (stores : list StoreRecord) (q : Query) (s : string) :
  Str.toLowerCase s = "unlimited" ->
  get_stores M stores (withLimit (Some s) q) = get_stores M stores (withLimit None q)
  /\ limitOf (withLimit (Some s) q) = ofZ 200.
Proof.
  intros E.
  assert (Hs : s <> "") by (intros ->; discriminate).
  assert (Hlim : limitOf (withLimit (Some s) q) = ofZ 200).
  { apply unlimited_is_capped. unfold rawLimitOf. cbn [query_limit withLimit].
    now rewrite orElse_supplied. }
  split; [|exact Hlim]. unfold get_stores.
  change (latOf (withLimit (Some s) q)) with (latOf (withLimit None q)).
  change (lngOf (withLimit (Some s) q)) with (lngOf (withLimit None q)).
  change (radiusMetersOf (withLimit (Some s) q)) with (radiusMetersOf (withLimit None q)).
  change (healthyOnlyOf (withLimit (Some s) q)) with (healthyOnlyOf (withLimit None q)).
  change (storeTypeOf (withLimit (Some s) q)) with (storeTypeOf (withLimit None q)).
  rewrite Hlim. reflexivity.
Qed.

End QueryFilters.

Lemma health_filter_witness :
  List.Forall (fun a => isHealthyStore (store a) = true)
    (queryStores smallAngle catalogStores (latOf healthyQuery) (lngOf healthyQuery)
       (radiusMetersOf healthyQuery) (healthyOnlyOf healthyQuery)
       (storeTypeOf healthyQuery) (limitOf healthyQuery)).
Proof.
  apply (proj1 (health_filter smallAngle catalogStores healthyQuery _ eq_refl)).
  reflexivity.
Defined.

Lemma type_filter_witness :
  List.Forall (fun a => Str.toLowerCase (storeType (store a))
                        = Str.toLowerCase (storeTypeOf supermarketQuery))
    (queryStores smallAngle catalogStores (latOf supermarketQuery)
       (lngOf supermarketQuery) (radiusMetersOf supermarketQuery)
       (healthyOnlyOf supermarketQuery) (storeTypeOf supermarketQuery)
       (limitOf supermarketQuery)).
Proof.
  apply (proj1 (type_filter smallAngle catalogStores supermarketQuery _ eq_refl)).
  intros H. vm_compute in H. discriminate H.
Defined.

Lemma below_cap_complete_witness :
  Permutation
    (queryStores smallAngle catalogStores (latOf wideQuery) (lngOf wideQuery)
       (radiusMetersOf wideQuery) (healthyOnlyOf wideQuery)
       (storeTypeOf wideQuery) (limitOf wideQuery))
    (qualifying smallAngle catalogStores wideQuery).
Proof.
  apply (below_cap_complete smallAngle catalogStores wideQuery _ eq_refl).
  vm_compute. reflexivity.
Defined.

Lemma cap_keeps_nearest_witness :
  exists omitted : list StoreWithDistance,
    Permutation
      (queryStores smallAngle catalogStores (latOf exampleQuery) (lngOf exampleQuery)
         (radiusMetersOf exampleQuery) (healthyOnlyOf exampleQuery)
         (storeTypeOf exampleQuery) (limitOf exampleQuery) ++ omitted)
      (qualifying smallAngle catalogStores exampleQuery)
    /\ List.Forall
         (fun b => List.Forall (fun a => nearerOrEqual a b)
            (queryStores smallAngle catalogStores (latOf exampleQuery)
               (lngOf exampleQuery) (radiusMetersOf exampleQuery)
               (healthyOnlyOf exampleQuery) (storeTypeOf exampleQuery)
               (limitOf exampleQuery)))
         omitted.
Proof.
  apply (cap_keeps_nearest smallAngle catalogStores exampleQuery _ eq_refl).
Defined.

Lemma unlimited_is_default_witness :
  get_stores smallAngle catalogStores (withLimit (Some "Unlimited") wideQuery)
  = get_stores smallAngle catalogStores (withLimit None wideQuery)
  /\ limitOf (withLimit (Some "Unlimited") wideQuery) = ofZ 200.
Proof.
  apply (unlimited_is_default smallAngle catalogStores wideQuery "Unlimited").
  reflexivity.
Defined.

Section StableSort.
Context {A : Type} (comparefn : A -> A -> number).
Variable P : A -> Prop.
Variable p : A -> bool.

Hypothesis never_swapped :
  forall x y, P x -> P y -> p x = true -> p y = true -> sortsAfter comparefn x y = false.

Lemma insertSorted_stable x l :
  P x -> List.Forall P l ->
  List.filter p (insertSorted comparefn x l) = List.filter p (x :: l).
Proof.
  intros Px. induction l as [|y l IH]; intros HP; cbn [insertSorted]; [reflexivity|].
  apply List.Forall_cons_iff in HP as [Py HP].
  destruct (sortsAfter comparefn x y) eqn:Hxy; [|reflexivity].
  specialize (IH HP). cbn [List.filter] in IH |- *. rewrite IH.
  destruct (p x) eqn:Hx, (p y) eqn:Hy; try reflexivity.
  rewrite (never_swapped x y Px Py Hx Hy) in Hxy. discriminate.
Qed.

Lemma Array_sort_stable l :
  List.Forall P l -> List.filter p (Array_sort comparefn l) = List.filter p l.
Proof.
  induction l as [|x l IH]; intros HP; cbn [Array_sort]; [reflexivity|].
  apply List.Forall_cons_iff in HP as [Px HP].
  rewrite insertSorted_stable; [|assumption|].
  - cbn [List.filter]. now rewrite IH.
  - eapply Permutation_Forall; [apply Array_sort_perm|assumption].
Qed.

End StableSort.

Section Ties.
Variable M : MathLib.

Lemma leb_not_ltb (a b : number) : leb a b = true -> ltb b a = false.
Proof.
  unfold ltb, leb, SFltb, SFleb. rewrite (Binary64.SFcompare_antisym a b).
  destruct (SFcompare a b) as [[]|]; cbn [option_map CompOpp]; congruence.
Qed.

Lemma ties_never_swapped d a b :
  comparable a -> comparable b ->
  sameDistance d a = true -> sameDistance d b = true ->
  sortsAfter (fun a b => Num.sub (distance_m a) (distance_m b)) a b = false.
Proof.
  intros [Va Na] [Vb Nb] [Had _]%andb_true_iff [_ Hdb]%andb_true_iff.
  unfold sortsAfter. rewrite Binary64.sub_positive by assumption.
  apply leb_not_ltb. now apply Binary64.leb_trans with d.
Qed.

(** X24.  Stores at the same distance keep the order of the collection:
    for every distance, the stores at that distance come in the answer, and
    then in what the cap omits, in the order in which the collection has
    them. *)
Theorem ties_keep_order (stores : list StoreRecord) (q : Query)
    (l : list StoreWithDistance) :
  get_stores M stores q = Json l ->
  exists omitted : list StoreWithDistance,
    Permutation (l ++ omitted) (qualifying M stores q)
    /\ forall d : number,
         List.filter (sameDistance d) (l ++ omitted)
         = List.filter (sameDistance d) (qualifying M stores q).
Proof.
  intros Hl. destruct (get_stores_qualifying M stores q l Hl) as (k & -> & _).
  exists (skipn k (Array_sort (fun a b => Num.sub (distance_m a) (distance_m b))
                     (qualifying M stores q))).
  rewrite firstn_skipn. split; [symmetry; apply Array_sort_perm|].
  intros d. apply Array_sort_stable with (P := comparable).
  - apply ties_never_swapped.
  - apply List.Forall_forall. intros a Ha.
    apply qualifying_passes in Ha as (_ & _ & _ & Hm).
    eapply measured_comparable; exact Hm.
Qed.

End Ties.

Lemma ties_keep_order_witness :
  exists omitted : list StoreWithDistance,
    Permutation
      (queryStores smallAngle catalogStores (latOf exampleQuery) (lngOf exampleQuery)
         (radiusMetersOf exampleQuery) (healthyOnlyOf exampleQuery)
         (storeTypeOf exampleQuery) (limitOf exampleQuery) ++ omitted)
      (qualifying smallAngle catalogStores exampleQuery)
    /\ forall d : number,
         List.filter (sameDistance d)
           (queryStores smallAngle catalogStores (latOf exampleQuery)
              (lngOf exampleQuery) (radiusMetersOf exampleQuery)
              (healthyOnlyOf exampleQuery) (storeTypeOf exampleQuery)
              (limitOf exampleQuery) ++ omitted)
         = List.filter (sameDistance d) (qualifying smallAngle catalogStores exampleQuery).
Proof.
  apply (ties_keep_order smallAngle catalogStores exampleQuery _ eq_refl).
Defined.

(* ===================================================================== *)
(** * Further properties of the ZIP resolver *)
(* ===================================================================== *)

Section ZipRuns.

Lemma loadNYCZips_cases w st :
  (exists t, nycZipCache st = Some t
             /\ loadNYCZips w st = (Settled (Resolved t), st, []))
  \/ (nycZipCache st = None /\ nycZipCsv w = FileMissing
      /\ loadNYCZips w st = (Settled (Resolved ∅), st, []))
  \/ (nycZipCache st = None /\ (nycZipCsv w = StreamError \/ nycZipCsv w = ParserError)
      /\ exists failed, loadNYCZips w st = (failed, st, [ReadNycCsv])
                        /\ forall t, failed <> Settled (Resolved t))
  \/ (exists rows, nycZipCache st = None /\ nycZipCsv w = FileRows rows
      /\ loadNYCZips w st
         = (Settled (Resolved (nycZipTable rows)),
            {| zipCentroids := zipCentroids st;
               nycZipCache := Some (nycZipTable rows) |},
            [ReadNycCsv])).
Proof.
  unfold loadNYCZips. destruct (nycZipCache st) as [t|]; [left; eauto|right].
  destruct (nycZipCsv w) as [| | |rows];
    [left|right; left|right; left|right; right]; eauto.
  - split; [reflexivity|]. split; [auto|]. eexists. split; [reflexivity|]. discriminate.
  - split; [reflexivity|]. split; [auto|]. eexists. split; [reflexivity|]. discriminate.
Qed.

(** X9.  The regional table is read from the file once at most: a call
    never touches the centroid index, and after a call that read the file,
    or found the table in memory, every later call answers with the same
    table from memory, whatever has become of the file. *)
Theorem loadNYCZips_once (w w' : World) (st st' : ServerState)
    (t : gmap string NycZip) (e : list Effect) :
  loadNYCZips w st = (Settled (Resolved t), st', e) ->
  zipCentroids st' = zipCentroids st
  /\ (e = [ReadNycCsv] \/ nycZipCache st = Some t ->
      loadNYCZips w' st' = (Settled (Resolved t), st', [])).
Proof.
  intros H.
  destruct (loadNYCZips_cases w st) as
    [(t0 & Hc & E) | [(Hc & Hf & E) | [(Hc & Hf & failed & E & Hno)
      | (rows & Hc & Hf & E)]]];
    rewrite E in H; inversion H; subst.
  - split; [reflexivity|]. intros _. unfold loadNYCZips. now rewrite Hc.
  - split; [reflexivity|]. intros [?|?]; [discriminate|congruence].
  - now destruct (Hno t).
  - split; [reflexivity|]. intros _. reflexivity.
Qed.

(** What one request does, case by case: the response, the state and the
    effects. *)
Lemma get_zip_run w st param :
  let zip := toZip5 param in
  let run := get_zip w st param in
  (zip = "" /\ run = (InvalidInput, st, []))
  \/ (zip <> "" /\ exists c, zipCentroids st !! zip = Some c /\ run = (Json c, st, []))
  \/ (zip <> "" /\ zipCentroids st !! zip = None /\
      exists loaded st1 e1, loadNYCZips w st = (loaded, st1, e1) /\
        match loaded with
        | ProcessEnds => run = (NoResponse, st1, e1)
        | Settled Rejected => run = (LookupFailed, st1, e1)
        | Settled (Resolved t) =>
            match t !! zip with
            | Some entry =>
                match nyc_borough entry with
                | Some b => exists c, getBoroughCoordinates (Some b) = Resolved c
                                      /\ run = (Json c, st1, e1)
                | None => run = (LookupFailed, st1, e1)
                end
            | None =>
                match nominatimLookup w zip, uspsLookup w zip with
                | Some c, _ =>
                    run = (Json c, cache zip c st1,
                           (e1 ++ [Fetch (nominatimUrl zip); CacheWrite zip c])%list)
                | None, Some c =>
                    run = (Json c, cache zip c st1,
                           (e1 ++ [Fetch (nominatimUrl zip); Fetch (uspsUrl zip);
                                   CacheWrite zip c])%list)
                | None, None =>
                    run = (NotFound, st1,
                           (e1 ++ [Fetch (nominatimUrl zip); Fetch (uspsUrl zip)])%list)
                end
            end
        end).
Proof.
  intros zip run. subst run. unfold get_zip. fold zip.
  destruct (String.eqb_spec zip "") as [E|E]; [left; auto|right].
  destruct (zipCentroids st !! zip) as [c|] eqn:Hc; [left; eauto|right].
  split; [assumption|]. split; [reflexivity|].
  destruct (loadNYCZips w st) as [[loaded st1] e1].
  exists loaded, st1, e1. split; [reflexivity|].
  destruct loaded as [[t|]|]; [|reflexivity|reflexivity].
  destruct (t !! zip) as [entry|].
  - destruct (nyc_borough entry) as [b|]; [|reflexivity].
    unfold getBoroughCoordinates.
    destruct (assoc (Str.toUpperCase b) boroughCoords); eauto.
  - destruct (nominatimLookup w zip); [reflexivity|].
    destruct (uspsLookup w zip); reflexivity.
Qed.

Lemma fetched_app e1 e2 : fetched (e1 ++ e2) = (fetched e1 ++ fetched e2)%list.
Proof.
  induction e1 as [|[]]; cbn [fetched app]; [reflexivity|exact IHe1| |exact IHe1].
  now rewrite IHe1.
Qed.

Lemma written_app e1 e2 : written (e1 ++ e2) = (written e1 ++ written e2)%list.
Proof.
  induction e1 as [|[]]; cbn [written app]; [reflexivity|exact IHe1|exact IHe1|].
  now rewrite IHe1.
Qed.

Lemma loadNYCZips_effects w st :
  fetched (snd (loadNYCZips w st)) = [] /\ written (snd (loadNYCZips w st)) = []
  /\ zipCentroids (snd (fst (loadNYCZips w st))) = zipCentroids st
  /\ (forall t, nycZipCache st = Some t ->
        nycZipCache (snd (fst (loadNYCZips w st))) = Some t).
Proof.
  destruct (loadNYCZips_cases w st) as
    [(t0 & Hc & E) | [(Hc & Hf & E) | [(Hc & Hf & failed & E & _)
      | (rows & Hc & Hf & E)]]];
    rewrite E; cbn [fst snd fetched written zipCentroids nycZipCache];
    repeat split; auto; congruence.
Qed.

Lemma get_zip_centroid w st param c :
  toZip5 param <> "" -> zipCentroids st !! toZip5 param = Some c ->
  get_zip w st param = (Json c, st, []).
Proof.
  intros Hz Hc. unfold get_zip.
  destruct (String.eqb_spec (toZip5 param) ""); [contradiction|].
  now rewrite Hc.
Qed.

(** X10.  A ZIP that was answered with a coordinate is answered again with
    the same coordinate from memory: in the state that the first request
    left, and whatever the files and the services have become, the same
    request reads no file, fetches nothing and leaves the state as it
    is. *)
Theorem answer_repeats (w w' : World) (st st' : ServerState)
    (param : option string) (c : Coordinate.t) (e : list Effect) :
  get_zip w st param = (Json c, st', e) ->
  get_zip w' st' param = (Json c, st', []).
Proof.
  intros H.
  destruct (get_zip_run w st param) as
    [[Hz Hr] | [(Hz & c0 & Hc & Hr) | (Hz & Hc & loaded & st1 & e1 & Hl & Hr)]];
    cbv zeta in *.
  - rewrite Hr in H. discriminate.
  - rewrite Hr in H. inversion H; subst. now apply get_zip_centroid.
  - destruct loaded as [[t|]|];
      [|rewrite Hr in H; discriminate|rewrite Hr in H; discriminate].
    destruct (t !! toZip5 param) as [entry|] eqn:Ht.
    + destruct (nyc_borough entry) as [b|] eqn:Hb; [|rewrite Hr in H; discriminate].
      destruct Hr as (c1 & Hg & Hr). rewrite Hr in H. inversion H; subst.
      assert (Hst : zipCentroids st' = zipCentroids st
                    /\ loadNYCZips w' st' = (Settled (Resolved t), st', [])).
      { destruct (loadNYCZips_cases w st) as
          [(t0 & Hc0 & E) | [(Hc0 & Hf & E) | [(Hc0 & Hf & failed & E & Hno)
            | (rows & Hc0 & Hf & E)]]];
          rewrite E in Hl; inversion Hl; subst.
        - split; [reflexivity|]. unfold loadNYCZips. now rewrite Hc0.
        - now rewrite lookup_empty in Ht.
        - now destruct (Hno t).
        - split; reflexivity. }
      destruct Hst as [Hst Hload]. unfold get_zip.
      destruct (String.eqb_spec (toZip5 param) ""); [contradiction|].
      rewrite Hst, Hc, Hload, Ht, Hb, Hg. reflexivity.
    + destruct (nominatimLookup w (toZip5 param)) as [c1|].
      * rewrite Hr in H. inversion H; subst. apply get_zip_centroid; [assumption|].
        cbn [cache zipCentroids]. apply lookup_insert_eq.
      * destruct (uspsLookup w (toZip5 param)) as [c1|];
          rewrite Hr in H; [|discriminate].
        inversion H; subst. apply get_zip_centroid; [assumption|].
        cbn [cache zipCentroids]. apply lookup_insert_eq.
Qed.

(** X11.  A request changes the centroid index by one insertion at most:
    of the coordinate that it answers, at the normalized ZIP, which was not
    a key.  No entry of the index is ever changed or removed, and a regional
    table in memory is never replaced. *)
Theorem index_only_grows (w : World) (st : ServerState) (param : option string) :
  let zip := toZip5 param in
  let st' := stateAfter w st param in
  (zipCentroids st' = zipCentroids st
   \/ exists c, responseOf w st param = Json c
                /\ zipCentroids st !! zip = None
                /\ zipCentroids st' = <[zip := c]> (zipCentroids st))
  /\ (forall k c, zipCentroids st !! k = Some c -> zipCentroids st' !! k = Some c)
  /\ (forall t, nycZipCache st = Some t -> nycZipCache st' = Some t).
Proof.
  intros zip st'. subst st'. unfold stateAfter, responseOf.
  destruct (get_zip_run w st param) as
    [[Hz Hr] | [(Hz & c0 & Hc & Hr) | (Hz & Hc & loaded & st1 & e1 & Hl & Hr)]];
    cbv zeta in *; fold zip in Hz, Hc, Hr || fold zip in Hz, Hr.
  - rewrite Hr. cbn [fst snd]. auto.
  - rewrite Hr. cbn [fst snd]. auto.
  - destruct (loadNYCZips_effects w st) as (_ & _ & Hi & Hk).
    rewrite Hl in Hi, Hk. cbn [fst snd] in Hi, Hk.
    assert (Hsame : forall r e, get_zip w st param = (r, st1, e) ->
              (zipCentroids (snd (fst (get_zip w st param))) = zipCentroids st
               \/ exists c, fst (fst (get_zip w st param)) = Json c
                    /\ zipCentroids st !! zip = None
                    /\ zipCentroids (snd (fst (get_zip w st param)))
                       = <[zip := c]> (zipCentroids st))
              /\ (forall k c, zipCentroids st !! k = Some c ->
                    zipCentroids (snd (fst (get_zip w st param))) !! k = Some c)
              /\ (forall t, nycZipCache st = Some t ->
                    nycZipCache (snd (fst (get_zip w st param))) = Some t)).
    { intros r e ->. cbn [fst snd]. rewrite Hi. auto. }
    assert (Hins : forall c e, get_zip w st param = (Json c, cache zip c st1, e) ->
              (zipCentroids (snd (fst (get_zip w st param))) = zipCentroids st
               \/ exists c, fst (fst (get_zip w st param)) = Json c
                    /\ zipCentroids st !! zip = None
                    /\ zipCentroids (snd (fst (get_zip w st param)))
                       = <[zip := c]> (zipCentroids st))
              /\ (forall k c, zipCentroids st !! k = Some c ->
                    zipCentroids (snd (fst (get_zip w st param))) !! k = Some c)
              /\ (forall t, nycZipCache st = Some t ->
                    nycZipCache (snd (fst (get_zip w st param))) = Some t)).
    { intros c e ->. cbn [fst snd cache zipCentroids nycZipCache]. rewrite Hi.
      split; [right; eauto|]. split; [|exact Hk].
      intros k c1 Hk1. rewrite lookup_insert_ne; [exact Hk1|].
      intros <-. congruence. }
    destruct loaded as [[t|]|];
      [|eapply Hsame; eassumption|eapply Hsame; eassumption].
    destruct (t !! zip) as [entry|].
    + destruct (nyc_borough entry) as [b|]; [|eapply Hsame; eassumption].
      destruct Hr as (c1 & _ & Hr). eapply Hsame; eassumption.
    + destruct (nominatimLookup w zip) as [c1|]; [eapply Hins; eassumption|].
      destruct (uspsLookup w zip) as [c1|];
        [eapply Hins; eassumption | eapply Hsame; eassumption].
Qed.

(** X12.  The outside calls of a request: it fetches nothing, or the
    geocoding URL of the normalized ZIP, or that URL and then the URL of the
    validation service; it writes to the index nothing, or once the
    coordinate that it answers; NotFound is answered after both fetches and
    without a write; and a ZIP of the regional table is answered without a
    fetch and without a write. *)
Theorem fetch_discipline (w : World) (st : ServerState) (param : option string) :
  let zip := toZip5 param in
  let e := effectsOf w st param in
  (fetched e = [] \/ fetched e = [nominatimUrl zip]
   \/ fetched e = [nominatimUrl zip; uspsUrl zip])
  /\ (written e = []
      \/ exists c, responseOf w st param = Json c /\ written e = [(zip, c)])
  /\ (responseOf w st param = NotFound ->
      fetched e = [nominatimUrl zip; uspsUrl zip] /\ written e = [])
  /\ (forall t, regionalTable w st = Settled (Resolved t) -> is_Some (t !! zip) ->
      fetched e = [] /\ written e = []).
Proof.
  intros zip e. subst e. unfold effectsOf, responseOf, regionalTable.
  destruct (get_zip_run w st param) as
    [[Hz Hr] | [(Hz & c0 & Hc & Hr) | (Hz & Hc & loaded & st1 & e1 & Hl & Hr)]];
    cbv zeta in *; fold zip in Hz, Hc, Hr || fold zip in Hz, Hr.
  - rewrite Hr. cbn [fst snd fetched written]. unfold InvalidInput, NotFound.
    repeat split; auto; try discriminate.
  - rewrite Hr. cbn [fst snd fetched written]. unfold NotFound.
    repeat split; auto; try discriminate.
  - destruct (loadNYCZips_effects w st) as (Hf & Hw & _ & _).
    rewrite Hl in Hf, Hw |- *. cbn [fst snd] in Hf, Hw |- *.
    destruct loaded as [[t|]|].
    + destruct (t !! zip) as [entry|] eqn:Ht.
      * assert (Hrun : exists r, get_zip w st param = (r, st1, e1) /\ r <> NotFound).
        { destruct (nyc_borough entry) as [b|].
          - destruct Hr as (c1 & _ & Hr). exists (Json c1). split; [exact Hr|].
            discriminate.
          - exists LookupFailed. split; [exact Hr|]. discriminate. }
        destruct Hrun as (r & -> & Hne). cbn [fst snd].
        repeat split; auto; try contradiction.
      * destruct (nominatimLookup w zip) as [c1|];
          [|destruct (uspsLookup w zip) as [c1|]];
          rewrite Hr; cbn [fst snd]; rewrite fetched_app, written_app, Hf, Hw;
          cbn [fetched written app]; unfold NotFound;
          (split; [auto|]); (split; [eauto|]);
          (split; [try discriminate; auto|]);
          intros t' [= <-] Hs; rewrite Ht in Hs; now apply is_Some_None in Hs.
    + rewrite Hr. cbn [fst snd]. unfold LookupFailed, NotFound.
      repeat split; auto; try discriminate.
    + rewrite Hr. cbn [fst snd]. unfold NotFound.
      repeat split; auto; try discriminate.
Qed.

(** X13.  The third tier reads the first element of what the geocoding
    service sends and checks nothing of it.  When [lat] and [lon] of the
    element can be read, the tier answers and caches what they hold, finite
    or not: an element without [lat] or without [lon] gives the coordinate
    NaN, which the index keeps.  When the read throws, as it does for the
    element [null], the tier gives nothing and the fourth tier decides the
    answer. *)
Theorem geocoder_hit_unchecked (w : World) (st : ServerState) (param : string)
    (t : gmap string NycZip) (res : HttpResponse)
    (first : option Hit) (hits : list (option Hit)) :
  let zip := toZip5 (Some param) in
  zipCentroids st !! zip = None ->
  regionalTable w st = Settled (Resolved t) -> t !! zip = None ->
  fetch w (nominatimUrl zip) = Resolved res ->
  ok res = true -> json res = Resolved (Hits (first :: hits)) ->
  match first with
  | Some h =>
      let c := coord (parseFloat (ToString (hit_lat h)))
                     (parseFloat (ToString (hit_lon h))) in
      responseOf w st (Some param) = Json c
      /\ zipCentroids (stateAfter w st (Some param)) !! zip = Some c
      /\ (hit_lat h = None -> Coordinate.latitude c = NaN)
      /\ (hit_lon h = None -> Coordinate.longitude c = NaN)
  | None =>
      nominatimLookup w zip = None
      /\ responseOf w st (Some param)
         = match uspsLookup w zip with
           | Some c => Json c
           | None => NotFound
           end
  end.
Proof.
  intros zip Hc Ht Hz Hf Hok Hj.
  unfold responseOf, stateAfter, regionalTable in *.
  destruct (get_zip_run w st (Some param)) as
    [[Hz0 Hr] | [(Hz0 & c0 & Hc0 & Hr) | (Hz0 & _ & loaded & st1 & e1 & Hl & Hr)]];
    cbv zeta in *; fold zip in Hz0, Hr.
  - now apply toZip5_nonempty in Hz0.
  - fold zip in Hc0. congruence.
  - rewrite Hl in Ht. cbn [fst] in Ht. subst loaded. rewrite Hz in Hr.
    destruct first as [h|].
    + assert (Hn : nominatimLookup w zip
                   = Some (coord (parseFloat (ToString (hit_lat h)))
                                 (parseFloat (ToString (hit_lon h))))).
      { unfold nominatimLookup. now rewrite Hf, Hok, Hj. }
      rewrite Hn in Hr. rewrite Hr. cbn [fst snd cache zipCentroids].
      split; [reflexivity|]. split; [apply lookup_insert_eq|].
      split; intros E; cbn [coord Coordinate.latitude Coordinate.longitude];
        rewrite E; reflexivity.
    + assert (Hn : nominatimLookup w zip = None).
      { unfold nominatimLookup. now rewrite Hf, Hok, Hj. }
      split; [exact Hn|]. rewrite Hn in Hr.
      destruct (uspsLookup w zip) as [c|]; rewrite Hr; reflexivity.
Qed.

(** X14.  The fourth tier knows eleven prefixes only: for a ZIP whose first
    three digits are not among them, that is in neither index nor table and
    that the geocoding service does not locate, the answer is NotFound
    whatever the validation service says. *)
Theorem unknown_prefix_not_found (w : World) (st : ServerState) (param : string)
    (t : gmap string NycZip) :
  let zip := toZip5 (Some param) in
  zipCentroids st !! zip = None ->
  regionalTable w st = Settled (Resolved t) -> t !! zip = None ->
  nominatimLookup w zip = None ->
  assoc (Str.take 3 zip) zipPrefixCoords = None ->
  responseOf w st (Some param) = NotFound
  /\ zipCentroids (stateAfter w st (Some param)) = zipCentroids st.
Proof.
  intros zip Hc Ht Hz Hn Hp.
  assert (Hu : uspsLookup w zip = None).
  { unfold uspsLookup, getNYCApproximateCoordinates. rewrite Hp.
    destruct (fetch w (uspsUrl zip)) as [res|]; [|reflexivity].
    destruct (ok res); [|reflexivity].
    destruct (text res) as [body|]; [|reflexivity].
    destruct (negb (Str.includes "<Error>" body)); reflexivity. }
  unfold responseOf, stateAfter, regionalTable in *.
  destruct (loadNYCZips_effects w st) as (_ & _ & Hi & _).
  destruct (get_zip_run w st (Some param)) as
    [[Hz0 Hr] | [(Hz0 & c0 & Hc0 & Hr) | (Hz0 & _ & loaded & st1 & e1 & Hl & Hr)]];
    cbv zeta in *; fold zip in Hz0, Hr.
  - now apply toZip5_nonempty in Hz0.
  - fold zip in Hc0. congruence.
  - rewrite Hl in Ht, Hi. cbn [fst snd] in Ht, Hi. subst loaded.
    rewrite Hz, Hn, Hu in Hr. rewrite Hr. cbn [fst snd]. auto.
Qed.

End ZipRuns.

Section Boroughs.

(** X15.  [getBoroughCoordinates] answers every borough name with one of
    the five borough coordinates.  It reads a name of ASCII characters
    without regard to the case of the letters, and answers such a name that
    it does not know as it answers Manhattan. *)
Theorem borough_coordinates (b : string) :
  (exists c, getBoroughCoordinates (Some b) = Resolved c
             /\ In c (List.map snd boroughCoords))
  /\ (isAscii b = true ->
      getBoroughCoordinates (Some (Str.toLowerCase b)) = getBoroughCoordinates (Some b)
      /\ (assoc (Str.toUpperCase b) boroughCoords = None ->
          getBoroughCoordinates (Some b) = getBoroughCoordinates (Some "Manhattan"))).
Proof.
  split.
  - unfold getBoroughCoordinates.
    destruct (assoc (Str.toUpperCase b) boroughCoords) as [c|] eqn:E.
    + exists c. split; [reflexivity|].
      unfold boroughCoords in *. cbn [assoc] in E. cbn [List.map snd].
      repeat match type of E with
      | (if ?x then _ else _) = _ => destruct x; [injection E as <-; cbn [In]; tauto|]
      end.
      discriminate.
    + eexists. split; [reflexivity|]. cbn [List.map snd boroughCoords In]. tauto.
  - intros _. split.
    + unfold getBoroughCoordinates. now rewrite toUpperCase_toLowerCase.
    + intros E. unfold getBoroughCoordinates. rewrite E. reflexivity.
Qed.

End Boroughs.

Section RegionalTable.

Lemma nycZipTable_snoc rows row :
  nycZipTable (rows ++ [row]) = <[keyOf row := entryOf row]> (nycZipTable rows).
Proof. unfold nycZipTable. now rewrite fold_left_app. Qed.

(** X16.  A lookup in the regional table gives the entry of the last row
    of the file whose ZIP cell is the key, as the cell is written; a row
    without ZIP cell is kept under the key [undefined]. *)
Theorem nycZipTable_lookup (rows : list Row) (k : string) :
  nycZipTable rows !! k
  = entryOf <$> List.find (fun row => String.eqb (keyOf row) k) (List.rev rows).
Proof.
  induction rows as [|row rows IH] using rev_ind.
  - reflexivity.
  - rewrite nycZipTable_snoc, rev_unit. cbn [List.find].
    destruct (String.eqb_spec (keyOf row) k) as [<-|Hne].
    + now rewrite lookup_insert_eq.
    + now rewrite lookup_insert_ne.
Qed.

End RegionalTable.

Lemma borough_coordinates_witness :
  getBoroughCoordinates (Some "queens") = getBoroughCoordinates (Some "QUEENS")
  /\ getBoroughCoordinates (Some "Yonkers") = getBoroughCoordinates (Some "Manhattan").
Proof.
  split.
  - apply (proj1 (proj2 (borough_coordinates "QUEENS") eq_refl)).
  - apply (proj2 (proj2 (borough_coordinates "Yonkers") eq_refl)). reflexivity.
Defined.

Lemma loadNYCZips_once_witness :
  zipCentroids (snd (fst (loadNYCZips geocoderWorld freshState))) = zipCentroids freshState
  /\ loadNYCZips brokenTable (snd (fst (loadNYCZips geocoderWorld freshState)))
     = (fst (fst (loadNYCZips geocoderWorld freshState)),
        snd (fst (loadNYCZips geocoderWorld freshState)), []).
Proof.
  destruct (loadNYCZips_once geocoderWorld brokenTable freshState _ _ _ eq_refl)
    as [H1 H2].
  split; [exact H1|]. apply H2. left. reflexivity.
Defined.

Lemma answer_repeats_witness :
  get_zip brokenTable (stateAfter geocoderWorld freshState (Some "11201")) (Some "11201")
  = (responseOf geocoderWorld freshState (Some "11201"),
     stateAfter geocoderWorld freshState (Some "11201"), []).
Proof.
  apply (answer_repeats geocoderWorld brokenTable freshState _ (Some "11201") _
           (effectsOf geocoderWorld freshState (Some "11201"))).
  reflexivity.
Defined.

Lemma geocoder_hit_unchecked_witness :
  (responseOf geocoderWorld freshState (Some "11201")
   = Json (coord (parseFloat "40.69") NaN)
   /\ zipCentroids (stateAfter geocoderWorld freshState (Some "11201")) !! "11201"
      = Some (coord (parseFloat "40.69") NaN))
  /\ nominatimLookup nullHitWorld "11201" = None
  /\ responseOf nullHitWorld freshState (Some "11201")
     = Json (coord (ofDecimal 406782 (-4)) (neg (ofDecimal 739442 (-4)))).
Proof.
  pose proof (geocoder_hit_unchecked geocoderWorld freshState "11201" _ _
                (Some {| hit_lat := Some "40.69"; hit_lon := None |}) []
                eq_refl eq_refl eq_refl eq_refl eq_refl eq_refl) as (H1 & H2 & _).
  pose proof (geocoder_hit_unchecked nullHitWorld freshState "11201" _ _
                None [] eq_refl eq_refl eq_refl eq_refl eq_refl eq_refl) as (H3 & H4).
  split; [split; [exact H1 | exact H2]|]. split; [exact H3|].
  rewrite H4. reflexivity.
Defined.

Lemma unknown_prefix_not_found_witness :
  responseOf brokenTable loadedState (Some "90210") = NotFound
  /\ zipCentroids (stateAfter brokenTable loadedState (Some "90210"))
     = zipCentroids loadedState.
Proof.
  apply (unknown_prefix_not_found brokenTable loadedState "90210" ∅); reflexivity.
Defined.

(* ===================================================================== *)
(** * Properties of the startup *)
(* ===================================================================== *)

Section Startup.

Lemma aggregate_lookup agg s k :
  is_Some (aggregate agg s !! k) <-> is_Some (agg !! k) \/ (zip s = k /\ k <> "").
Proof.
  unfold aggregate. destruct (String.eqb_spec (zip s) "") as [E|E].
  - split; [auto|]. intros [H|[<- H]]; [assumption|contradiction].
  - destruct (String.eqb_spec (zip s) k) as [<-|Hne].
    + rewrite lookup_insert_eq. split; [auto|]. intros _. eauto.
    + rewrite lookup_insert_ne by assumption. split; [auto|].
      intros [H|[H _]]; [assumption|contradiction].
Qed.

Lemma fold_aggregate_lookup stores : forall agg k,
  is_Some (fold_left aggregate stores agg !! k)
  <-> is_Some (agg !! k) \/ (k <> "" /\ exists s, In s stores /\ zip s = k).
Proof.
  induction stores as [|s stores IH]; intros agg k; cbn [fold_left].
  - split; [auto|]. intros [H|(_ & s & [] & _)]. exact H.
  - rewrite IH, aggregate_lookup. split.
    + intros [[H|[Hz Hk]]|(Hk & s' & Hin & Hz)]; [auto| |].
      * right. split; [assumption|]. exists s. split; [now left|assumption].
      * right. split; [assumption|]. exists s'. split; [now right|assumption].
    + intros [H|(Hk & s' & [<-|Hin] & Hz)]; [auto| |].
      * left. right. auto.
      * right. eauto.
Qed.

Lemma buildCentroids_keys (stores : list StoreRecord) (k : string) :
  is_Some (buildCentroids stores !! k)
  <-> k <> "" /\ exists s, In s stores /\ zip s = k.
Proof.
  unfold buildCentroids. rewrite lookup_fmap, fmap_is_Some, fold_aggregate_lookup.
  rewrite lookup_empty. split; [|auto].
  intros [H|H]; [|exact H]. now apply is_Some_None in H.
Qed.

Lemma aggregate_at agg s k :
  k <> "" ->
  aggregate agg s !! k = if atZip k s then accumulateIn (agg !! k) s else agg !! k.
Proof.
  intros Hk. unfold aggregate, atZip.
  destruct (String.eqb_spec (zip s) "") as [E|E].
  - destruct (String.eqb_spec (zip s) k); [congruence | reflexivity].
  - destruct (String.eqb_spec (zip s) k) as [<-|Hne].
    + now rewrite lookup_insert_eq.
    + now rewrite lookup_insert_ne.
Qed.

Lemma fold_aggregate_at stores k : k <> "" -> forall agg,
  fold_left aggregate stores agg !! k
  = fold_left accumulateIn (List.filter (atZip k) stores) (agg !! k).
Proof.
  intros Hk. induction stores as [|s stores IH]; intros agg; cbn [fold_left List.filter].
  - reflexivity.
  - rewrite IH, aggregate_at by assumption.
    destruct (atZip k s); reflexivity.
Qed.

Lemma filter_atZip_idem k stores :
  List.filter (atZip k) (List.filter (atZip k) stores) = List.filter (atZip k) stores.
Proof.
  induction stores as [|s stores IH]; cbn [List.filter]; [reflexivity|].
  destruct (atZip k s) eqn:E; cbn [List.filter]; rewrite ?E, IH; reflexivity.
Qed.

Lemma centroid_local (stores : list StoreRecord) (k : string) :
  buildCentroids stores !! k
  = buildCentroids (List.filter (fun s => String.eqb (zip s) k) stores) !! k.
Proof.
  fold (atZip k). unfold buildCentroids. rewrite !lookup_fmap.
  destruct (String.eqb_spec k "") as [->|Hk].
  - assert (H : forall l, fold_left aggregate l ∅ !! "" = None).
    { intros l. destruct (fold_left aggregate l ∅ !! "") eqn:E; [|reflexivity].
      assert (Hs : is_Some (fold_left aggregate l ∅ !! "")) by eauto.
      apply fold_aggregate_lookup in Hs as [Hs|[Hs _]]; [|congruence].
      rewrite lookup_empty in Hs. now apply is_Some_None in Hs. }
    now rewrite !H.
  - rewrite !fold_aggregate_at by assumption. now rewrite filter_atZip_idem.
Qed.

Lemma start_listening csv stores st :
  start csv = Listening stores st ->
  exists rows, csv = FileRows rows /\ stores = loadStoresFromCsv rows
               /\ zipCentroids st = buildCentroids stores /\ nycZipCache st = None.
Proof.
  destruct csv as [| | |rows]; cbn [start]; try discriminate.
  intros [= <- <-]. exists rows. repeat split.
Qed.

(** X17.  The index that [start] builds has an entry for a ZIP exactly when
    the ZIP is not empty and some stored record has it, and the entry
    depends on the records of that ZIP only: it is what [start] would build
    from them alone. *)
Theorem start_indexes_stores (csv : CsvFile) (stores : list StoreRecord)
    (st : ServerState) (k : string) :
  start csv = Listening stores st ->
  (is_Some (zipCentroids st !! k) <-> k <> "" /\ exists s, In s stores /\ zip s = k)
  /\ zipCentroids st !! k
     = buildCentroids (List.filter (fun s => String.eqb (zip s) k) stores) !! k.
Proof.
  intros H. apply start_listening in H as (rows & _ & _ & -> & _).
  split; [apply buildCentroids_keys | apply centroid_local].
Qed.

(** X18.  The centroid of a ZIP that one stored record has is the
    coordinate of that record, with no rounding: the sum from 0 and the
    division by 1 are exact.  (A coordinate -0 would come out as 0.) *)
Theorem lone_store_centroid (csv : CsvFile) (stores : list StoreRecord)
    (st : ServerState) (s : StoreRecord) :
  start csv = Listening stores st ->
  List.filter (fun s' => String.eqb (zip s') (zip s)) stores = [s] ->
  zip s <> "" -> latitude s <> nzero -> longitude s <> nzero ->
  zipCentroids st !! zip s = Some (coord (latitude s) (longitude s)).
Proof.
  intros H Hone Hz Hla Hlo. apply start_listening in H as (rows & _ & -> & -> & _).
  assert (Hin : In s (loadStoresFromCsv rows)).
  { assert (Hs : In s [s]) by now left.
    rewrite <- Hone in Hs. now apply filter_In in Hs as [Hs _]. }
  destruct (loaded_coordinates rows s Hin) as [[Vla Fla] [Vlo Flo]].
  rewrite centroid_local, Hone. unfold buildCentroids.
  cbn [fold_left]. unfold aggregate.
  destruct (String.eqb_spec (zip s) ""); [contradiction|].
  rewrite lookup_empty, lookup_fmap, lookup_insert_eq. cbn [fmap option_fmap option_map].
  unfold centroidOf. cbn [sumLat sumLon count newAgg].
  rewrite (add_zero_l (latitude s)), (add_zero_l (longitude s)) by assumption.
  change (Num.add pzero (ofZ 1)) with (ofZ 1).
  now rewrite (div_by_one (latitude s)), (div_by_one (longitude s)).
Qed.

(** X19.  After [start], a request whose ZIP normalizes to the ZIP of a
    stored record is answered from the index: with the centroid of that ZIP,
    without reading a file or calling a service, and without a change of
    state. *)
Theorem store_zip_resolves (csv : CsvFile) (stores : list StoreRecord)
    (st : ServerState) (s : StoreRecord) (w : World) (param : option string) :
  start csv = Listening stores st ->
  In s stores -> zip s <> "" -> toZip5 param = zip s ->
  exists c, get_zip w st param = (Json c, st, [])
            /\ buildCentroids stores !! zip s = Some c.
Proof.
  intros H Hs Hz Hp. apply start_listening in H as (rows & _ & -> & Hc & _).
  assert (Hk : is_Some (buildCentroids (loadStoresFromCsv rows) !! zip s))
    by (apply buildCentroids_keys; eauto).
  destruct Hk as [c Hk]. exists c. split; [|exact Hk].
  apply get_zip_centroid; rewrite Hp; [assumption|]. now rewrite Hc.
Qed.


End Startup.

Lemma start_indexes_stores_witness :
  (is_Some (zipCentroids catalogState !! "10004")
   <-> "10004" <> "" /\ exists s, In s catalogStores /\ zip s = "10004")
  /\ zipCentroids catalogState !! "10004"
     = buildCentroids
         (List.filter (fun s => String.eqb (zip s) "10004") catalogStores) !! "10004".
Proof.
  apply (start_indexes_stores (FileRows catalogRows) catalogStores catalogState "10004").
  reflexivity.
Defined.

Lemma lone_store_centroid_witness :
  zipCentroids catalogState !! zip (normalized farRow)
  = Some (coord (latitude (normalized farRow)) (longitude (normalized farRow))).
Proof.
  apply (lone_store_centroid (FileRows catalogRows) catalogStores catalogState
           (normalized farRow)).
  - reflexivity.
  - vm_compute. reflexivity.
  - intros H. vm_compute in H. discriminate H.
  - intros H. vm_compute in H. discriminate H.
  - intros H. vm_compute in H. discriminate H.
Defined.

Lemma store_zip_resolves_witness :
  exists c, get_zip brokenTable catalogState (Some "zip 10007-0001")
            = (Json c, catalogState, [])
            /\ buildCentroids catalogStores !! zip (normalized farRow) = Some c.
Proof.
  apply (store_zip_resolves (FileRows catalogRows) catalogStores catalogState
           (normalized farRow) brokenTable (Some "zip 10007-0001")).
  - reflexivity.
  - apply normalized_loaded; [left; reflexivity | reflexivity].
  - intros H. vm_compute in H. discriminate H.
  - reflexivity.
Defined.


Section HealthFacts.

Lemma filter_length_all {A} (p : A -> bool) (l : list A) :
  (length (List.filter p l) <= length l)%nat
  /\ (length (List.filter p l) = length l <-> List.Forall (fun x => p x = true) l).
Proof.
  induction l as [|x l [IH1 IH2]]; cbn [List.filter length].
  - split; [lia|]. split; [constructor | reflexivity].
  - destruct (p x) eqn:Hx; cbn [length].
    + split; [lia|]. split.
      * intros H. constructor; [assumption|]. apply IH2. lia.
      * intros H. apply List.Forall_cons_iff in H as [_ H]. f_equal. now apply IH2.
    + split; [lia|]. split; [lia|].
      intros H. apply List.Forall_cons_iff in H as [H _]. congruence.
Qed.

(** X29.  After [start], [/health] reports the number of the rows of the store
    file whose two coordinates are finite: never more than the rows of the
    file, and as many exactly when no row was dropped. *)
Theorem health_counts_kept_rows (rows : list Row) (stores : list StoreRecord)
    (st : ServerState) :
  start (FileRows rows) = Listening stores st ->
  health_ok (get_health stores) = true
  /\ storesLoaded (get_health stores) = length (List.filter finiteCoords rows)
  /\ (storesLoaded (get_health stores) <= length rows)%nat
  /\ (storesLoaded (get_health stores) = length rows
      <-> List.Forall (fun row => finiteCoords row = true) rows).
Proof.
  intros H. apply start_listening in H as (rows' & [= <-] & -> & _).
  cbn [get_health health_ok storesLoaded].
  rewrite loadStoresFromCsv_filter, length_map.
  destruct (filter_length_all finiteCoords rows) as [H1 H2]. auto.
Qed.

End HealthFacts.

Lemma health_counts_kept_rows_witness :
  health_ok (get_health exampleStores) = true
  /\ storesLoaded (get_health exampleStores) = length (List.filter finiteCoords exampleRows)
  /\ (storesLoaded (get_health exampleStores) <= length exampleRows)%nat
  /\ (storesLoaded (get_health exampleStores) = length exampleRows
      <-> List.Forall (fun row => finiteCoords row = true) exampleRows).
Proof.
  apply (health_counts_kept_rows exampleRows exampleStores
           {| zipCentroids := buildCentroids exampleStores; nycZipCache := None |}).
  reflexivity.
Defined.

(* ===================================================================== *)
(** * Properties of the chat proxy *)
(* ===================================================================== *)

Section ChatFacts.
Context {Store Message : Type}.

(** X21.  The request to the completion service carries 20 messages at
    most, the last ones: the system prompt and the whole conversation while
    the conversation, context of the user included, has fewer than 20
    messages, and the last 20 messages of the conversation, without the
    system prompt, from then on. *)
Theorem chat_messages_window (system : Message) (userContext : list Message)
    (messages : option (list Message)) :
  let conversation :=
    (userContext ++ match messages with Some l => l | None => [] end)%list in
  let sent := chatMessages system userContext messages in
  (length sent <= 20)%nat
  /\ ((length conversation < 20)%nat -> sent = system :: conversation)
  /\ ((20 <= length conversation)%nat ->
      sent = skipn (length conversation - 20) conversation).
Proof.
  intros conversation sent. subst sent. unfold chatMessages. fold conversation.
  change (-20) with (- Z.of_nat 20). rewrite Array_sliceFrom_last.
  cbn [length]. split; [|split].
  - rewrite length_skipn. cbn [length]. lia.
  - intros H. replace (S (length conversation) - 20)%nat with 0%nat by lia.
    reflexivity.
  - intros H.
    replace (S (length conversation) - 20)%nat
      with (S (length conversation - 20)) by lia.
    reflexivity.
Qed.

(** X22.  From 20 messages in the body on, neither the system prompt nor
    the context of the user (the stores, the ZIP) reaches the completion
    service: the last 20 messages of the body are sent. *)
Theorem chat_context_dropped (storesMessage : list Store -> Message)
    (zipMessage : string -> Message) (system : Message)
    (context : option (ChatContext Store)) (l : list Message) :
  (20 <= length l)%nat ->
  chatMessages system (userContextOf storesMessage zipMessage context) (Some l)
  = skipn (length l - 20) l.
Proof.
  intros Hl. unfold chatMessages.
  change (-20) with (- Z.of_nat 20). rewrite Array_sliceFrom_last.
  set (ctx := userContextOf storesMessage zipMessage context).
  change (system :: ctx ++ l)%list with ((system :: ctx) ++ l)%list.
  rewrite length_app, skipn_app.
  rewrite (skipn_all2 (system :: ctx)) by lia.
  cbn [app]. f_equal. lia.
Qed.

End ChatFacts.

Lemma chat_context_dropped_witness :
  chatMessages 0%nat
    (userContextOf (fun _ : list unit => 1%nat) (fun _ => 2%nat)
       (Some {| context_stores := Some [tt]; context_zip := Some "10004" |}))
    (Some (List.seq 100 21))
  = List.seq 101 20.
Proof.
  apply (chat_context_dropped (fun _ : list unit => 1%nat) (fun _ => 2%nat) 0%nat
           (Some {| context_stores := Some [tt]; context_zip := Some "10004" |})
           (List.seq 100 21)).
  cbn. lia.
Defined.

Section ChatHandlerFacts.
Context {Store Message Data : Type}.
Variable systemMessage : string -> string -> option nat -> Message.
Variable storesMessage : list Store -> Message.
Variable zipMessage : string -> Message.
Variable storeLineThrows : Store -> bool.

Lemma post_chat_cases (files : KeyFiles)
    (service : CompletionRequest Message -> Outcome (CompletionResponse Data))
    (body : option (ChatBody Store Message)) :
  let run := post_chat systemMessage storesMessage zipMessage storeLineThrows
               files service body in
  let file := snd (readApiKey files) in
  (fst (readApiKey files) = Rejected
   /\ run = (ChatError "Could not read api_key.txt file" None, [ReadKeyFile file]))
  \/ (fst (readApiKey files) = Resolved ""
      /\ run = (ChatError "API key file is empty" None, [ReadKeyFile file]))
  \/ (exists apiKey, fst (readApiKey files) = Resolved apiKey /\ apiKey <> ""
        /\ storeInfoThrows storeLineThrows (contextOf body) = true
        /\ run = (ChatError "Chat proxy failed" None, [ReadKeyFile file]))
  \/ (exists apiKey, fst (readApiKey files) = Resolved apiKey /\ apiKey <> "" /\
        storeInfoThrows storeLineThrows (contextOf body) = false /\
        let request :=
          completionRequest systemMessage storesMessage zipMessage apiKey body in
        snd run = [ReadKeyFile file; Complete request]
        /\ match service request with
           | Rejected => fst run = ChatError "Chat proxy failed" None
           | Resolved response =>
               if completion_ok response then
                 match completion_json response with
                 | Resolved data => fst run = ChatJson data
                 | Rejected => fst run = ChatError "Chat proxy failed" None
                 end
               else
                 match completion_text response with
                 | Resolved text => fst run = ChatError "OpenAI error" (Some text)
                 | Rejected => fst run = ChatError "Chat proxy failed" None
                 end
           end).
Proof.
  cbv zeta. unfold post_chat, contextOf.
  destruct (readApiKey files) as [[apiKey|] file]; cbn [fst snd]; [|left; auto].
  destruct (String.eqb_spec apiKey "") as [->|Hne]; [right; left; auto|].
  destruct (storeInfoThrows storeLineThrows _) eqn:Hthrow.
  { right; right; left. exists apiKey. auto. }
  right; right; right. exists apiKey. split; [reflexivity|]. split; [assumption|].
  split; [reflexivity|]. cbv zeta.
  destruct (service _) as [response|]; [|split; reflexivity].
  destruct (completion_ok response); cbn [negb].
  - destruct (completion_json response); split; reflexivity.
  - destruct (completion_text response); split; reflexivity.
Qed.


(** X26.  The secret file of the host, when it exists, is the only key file
    read: the answer and the effects do not depend on the local file, and a
    secret file that cannot be read or holds white space only is answered
    with an error, with no fallback to the local file. *)
Theorem secret_file_precedence (content : Outcome string) (a b : Outcome string)
    (service : CompletionRequest Message -> Outcome (CompletionResponse Data))
    (body : option (ChatBody Store Message)) :
  post_chat systemMessage storesMessage zipMessage storeLineThrows
    {| renderKey := Some content; localKey := a |} service body
  = post_chat systemMessage storesMessage zipMessage storeLineThrows
      {| renderKey := Some content; localKey := b |} service body
  /\ keyReads (snd (post_chat systemMessage storesMessage zipMessage storeLineThrows
                      {| renderKey := Some content; localKey := a |} service body))
     = [RenderPath]
  /\ (content = Rejected \/ (exists s, content = Resolved s /\ allWhite s = true) ->
      exists error,
        post_chat systemMessage storesMessage zipMessage storeLineThrows
          {| renderKey := Some content; localKey := a |} service body
        = (ChatError error None, [ReadKeyFile RenderPath])).
Proof.
  split; [reflexivity|]. split.
  - destruct (post_chat_cases {| renderKey := Some content; localKey := a |} service body)
      as [[Hk Hr] | [[Hk Hr] | [(apiKey & Hk & Hne & Ht & Hr)
            | (apiKey & Hk & Hne & Ht & He & _)]]]; cbv zeta in *.
    + rewrite Hr. reflexivity.
    + rewrite Hr. reflexivity.
    + rewrite Hr. reflexivity.
    + rewrite He. reflexivity.
  - intros [-> | (s & -> & Hs)].
    + eexists. reflexivity.
    + unfold post_chat, readApiKey. cbn [renderKey].
      assert (E : Str.trim s = "").
      { unfold Str.trim. now rewrite (trimStart_all_white s Hs). }
      rewrite E. eexists. reflexivity.
Qed.



End ChatHandlerFacts.

(** A blank secret file blocks the proxy although the local file holds a
    key. *)
Example blank_secret_blocks :
  post_chat (fun _ _ _ => 0%nat) (fun _ : list unit => 1%nat) (fun _ => 2%nat)
    (fun _ => false) blankSecret echoService (Some exampleBody)
  = (ChatError "API key file is empty" None, [ReadKeyFile RenderPath]).
Proof. reflexivity. Qed.

(** With the local file alone, the service is called with the trimmed key,
    the system prompt, the two messages of the context and the messages of
    the body; [Concise] is not [concise]. *)
Example local_key_used :
  post_chat (fun _ _ _ => 0%nat) (fun _ : list unit => 1%nat) (fun _ => 2%nat)
    (fun _ => false) localOnly echoService (Some exampleBody)
  = (ChatJson [0; 1; 2; 7; 8]%nat,
     [ReadKeyFile LocalPath;
      Complete {| authorization := "Bearer sk-local";
                  request_messages := [0; 1; 2; 7; 8]%nat;
                  request_temperature := ofDecimal 7 (-1);
                  request_max_tokens := 1000 |}]).
Proof. reflexivity. Qed.

(** A [null] among the stores of the context: the key is read, the service
    is not called, and the answer is the error of the outer [catch]. *)
Example null_store_blocks :
  post_chat (fun _ _ _ => 0%nat) (fun _ : list (option unit) => 1%nat) (fun _ => 2%nat)
    isNull localOnly echoService (Some nullStoreBody)
  = (ChatError "Chat proxy failed" None, [ReadKeyFile LocalPath]).
Proof. reflexivity. Qed.
